(** * craytracer: a shallow embedding of the ray tracing core of [code.js]

    The JavaScript program computes with IEEE-754 doubles.  The vector and ray
    layer is written once over an interface of number operations; it is run
    on the kernel's binary64 floats (what the program does) and read over the
    real numbers (what its comments reason about).  Everything from the
    primitives upwards is stated on the floats. *)

From Stdlib Require Import Floats ZArith List Bool Lia.
From Stdlib Require Reals Lra RNsatz String.
Import ListNotations.

Set Implicit Arguments.

(** ** Numbers *)

(** The operations of a JavaScript number that [Vector3] and [Ray] use. *)
Class Number (num : Type) : Type := {
  num_zero : num;
  num_one : num;
  num_add : num -> num -> num;
  num_sub : num -> num -> num;
  num_mul : num -> num -> num;
  num_div : num -> num -> num;
  num_opp : num -> num;
  num_sqrt : num -> num;          (* Math.sqrt *)
  num_neq : num -> num -> bool;   (* a != b *)
  num_truthy : num -> bool        (* ToBoolean: false on 0, -0 and NaN *)
}.

Declare Scope num_scope.
Delimit Scope num_scope with num.
Infix "+" := num_add : num_scope.
Infix "-" := num_sub : num_scope.
Infix "*" := num_mul : num_scope.
Infix "/" := num_div : num_scope.
Notation "- a" := (num_opp a) : num_scope.
Infix "!=" := num_neq (at level 70, no associativity) : num_scope.

(** [a || d] on numbers. *)
Definition js_or {num} `{Number num} (a d : num) : num :=
  if num_truthy a then a else d.

(** IEEE-754 binary64, the numbers of the program. *)
#[export] Instance float_Number : Number float := {|
  num_zero := PrimFloat.zero;
  num_one := PrimFloat.one;
  num_add := PrimFloat.add;
  num_sub := PrimFloat.sub;
  num_mul := PrimFloat.mul;
  num_div := PrimFloat.div;
  num_opp := PrimFloat.opp;
  num_sqrt := PrimFloat.sqrt;
  num_neq := fun a b => negb (PrimFloat.eqb a b);
  num_truthy := fun a => negb (PrimFloat.is_zero a || PrimFloat.is_nan a)
|}.

(** Exact arithmetic, the numbers of the program's comments. *)
#[export] Instance R_Number : Number Rdefinitions.R := {|
  num_zero := Rdefinitions.IZR 0;
  num_one := Rdefinitions.IZR 1;
  num_add := Rdefinitions.Rplus;
  num_sub := Rdefinitions.Rminus;
  num_mul := Rdefinitions.Rmult;
  num_div := Rdefinitions.Rdiv;
  num_opp := Rdefinitions.Ropp;
  num_sqrt := R_sqrt.sqrt;
  num_neq := fun a b => if RIneq.Req_dec_T a b then false else true;
  num_truthy := fun a => if RIneq.Req_dec_T a (Rdefinitions.IZR 0) then false else true
|}.

(** ** Vector3 *)

Module Vector3.
Section Ops.
Context {num : Type} `{Number num}.
Local Open Scope num_scope.

Record t : Type := raw { x : num; y : num; z : num }.

(** [function Vector3(x, y, z)]: a falsy component becomes [0]. *)
Definition new (x y z : num) : t :=
  raw (js_or x num_zero) (js_or y num_zero) (js_or z num_zero).

Definition add (this vector : t) : t :=
  new (x this + x vector) (y this + y vector) (z this + z vector).

Definition times (this : t) (scalar : num) : t :=
  new (scalar * x this) (scalar * y this) (scalar * z this).

Definition subtract (this vector : t) : t :=
  add this (times vector (- num_one)).

Definition divide (this : t) (scalar : num) : t :=
  let scalar := num_one / scalar in
  times this scalar.

Definition cross (this vector : t) : t :=
  let x' := y this * z vector - z this * y vector in
  let y' := z this * x vector - x this * z vector in
  let z' := x this * y vector - y this * x vector in
  new x' y' z'.

Definition inner (this vector : t) : num :=
  x this * x vector + y this * y vector + z this * z vector.

Definition norm (this : t) : num :=
  num_sqrt (inner this this).

Definition normalize (this : t) : t :=
  let norm' := norm this in
  if norm' != num_zero then divide this (norm this) else this.

End Ops.
Arguments t : clear implicits.
End Vector3.

(** ** Ray *)

Module Ray.
Section Ops.
Context {num : Type} `{Number num}.

Record t : Type := raw { origin : Vector3.t num; direction : Vector3.t num }.

(** [function Ray(origin, direction)]. *)
Definition new (origin direction : Vector3.t num) : t :=
  raw origin (Vector3.normalize direction).

Definition at_ (this : t) (t0 : num) : Vector3.t num :=
  Vector3.add (origin this) (Vector3.times (direction this) t0).

End Ops.
Arguments t : clear implicits.
End Ray.


(** ** The doubles of the tracer *)

Definition Vec : Type := Vector3.t float.

Local Open Scope float_scope.
Set Warnings "-inexact-float".

(** [Math.min]: NaN if either argument is, and [-0] below [+0]. *)
Definition Math_min (a b : float) : float :=
  if is_nan a || is_nan b then nan
  else if a <? b then a
  else if b <? a then b
  else if get_sign a then a else b.

(** [Math.max]: NaN if either argument is, and [+0] above [-0]. *)
Definition Math_max (a b : float) : float :=
  if is_nan a || is_nan b then nan
  else if a <? b then b
  else if b <? a then a
  else if get_sign a then b else a.

Definition Math_abs (a : float) : float := abs a.

Definition Infinity : float := infinity.

(** ** The random source

    [Math.random] reads the next number of a tape; a computation that asks
    for more numbers than the tape holds stops with [NoMoreRandom]. *)

Inductive outcome (A : Type) : Type :=
| Done (a : A) (rest : list float)
| Throw            (* TypeError: a property of [null] is read *)
| NoMoreRandom
| OutOfFuel.
Arguments Throw {A}.
Arguments NoMoreRandom {A}.
Arguments OutOfFuel {A}.

Definition M (A : Type) : Type := list float -> outcome A.

Definition ret {A} (a : A) : M A := fun tape => Done a tape.

Definition bind {A B} (m : M A) (f : A -> M B) : M B :=
  fun tape =>
    match m tape with
    | Done a rest => f a rest
    | Throw => Throw
    | NoMoreRandom => NoMoreRandom
    | OutOfFuel => OutOfFuel
    end.

Definition throw {A} : M A := fun _ => Throw.

Notation "x <- m ;; k" := (bind m (fun x => k))
  (at level 61, m at next level, right associativity).

Definition Math_random : M float :=
  fun tape =>
    match tape with
    | [] => NoMoreRandom
    | r :: rest => Done r rest
    end.

Definition randBetween (min max : float) : M float :=
  r <- Math_random ;;
  ret (r * (max - min) + min).

(** [Vector3.random]: the [while (true)] loop, one round per unit of
    [rounds]. *)
Fixpoint Vector3_random_loop (rounds : nat) (min max : float) : M Vec :=
  match rounds with
  | O => fun _ => NoMoreRandom
  | S rounds' =>
      a <- randBetween min max ;;
      b <- randBetween min max ;;
      c <- randBetween min max ;;
      let vec := Vector3.new a b c in
      if 1 <=? Vector3.norm vec then Vector3_random_loop rounds' min max
      else ret vec
  end.

(** Every round reads three numbers, so the tape's length bounds the rounds. *)
Definition Vector3_random (min max : float) : M Vec :=
  fun tape => Vector3_random_loop (length tape) min max tape.

(** ** Materials, lights and primitives *)

Module Material.
Record t : Type := raw {
  color : Vec;
  diffuse : float;
  specular : float;
  ambient : float
}.

(** [function Material(diffuse, specular, ambient, color)]. *)
Definition new (diffuse specular ambient : float) (color : option Vec) : t :=
  raw (match color with Some c => c | None => Vector3.new 0 0 0 end)
      (js_or diffuse 0) (js_or specular 0) (js_or ambient 0).

(** [Material.reflect]. *)
Definition reflect (v normal : Vec) : Vec :=
  Vector3.subtract v (Vector3.times normal (2 * Vector3.inner normal v)).
End Material.

Module Light.
Record t : Type := raw {
  position : Vec;
  intensity : float;
  id : String.string
}.

Definition new (x y z intensity : float) (id : String.string) : t :=
  raw (Vector3.new x y z) (js_or intensity 1) id.
End Light.

Module Sphere.
Record t : Type := raw {
  position : Vec;
  radius : float;
  material : Material.t;
  id : String.string
}.

Definition new (x y z radius : float) (material : option Material.t)
  (id : String.string) : t :=
  raw (Vector3.new x y z) (js_or radius 0)
      (match material with Some m => m | None => Material.new 0 0 0 None end)
      id.

Definition normal (this : t) (pos : Vec) : Vec :=
  Vector3.normalize (Vector3.subtract pos (position this)).
End Sphere.

Module Plane.
Record t : Type := raw {
  position : Vec;
  normalVec : Vec;
  material : Material.t;
  id : String.string
}.

Definition new (x y z : float) (normal : option Vec)
  (material : option Material.t) (id : String.string) : t :=
  raw (Vector3.new x y z)
      (match normal with Some n => n | None => Vector3.new 0 0 0 end)
      (match material with Some m => m | None => Material.new 0 0 0 None end)
      id.

(** [Plane.prototype.normal] ignores its argument, and is also called
    without one. *)
Definition normal (this : t) (pos : option Vec) : Vec :=
  normalVec this.
End Plane.

(** The objects of a scene: anything with [material], [normal] and
    [checkIntersection]. *)
Inductive Primitive : Type :=
| ASphere (s : Sphere.t)
| APlane (p : Plane.t).

Definition material (object : Primitive) : Material.t :=
  match object with
  | ASphere s => Sphere.material s
  | APlane p => Plane.material p
  end.

Definition normal (object : Primitive) (pos : Vec) : Vec :=
  match object with
  | ASphere s => Sphere.normal s pos
  | APlane p => Plane.normal p (Some pos)
  end.

(** ** The scene *)

Record Camera : Type := {
  pos : Vec;
  direction : Vec;
  fov : float;
  up : Vec;
  antialiasing_samples_per_pixel : Z;
  ray_tracing_depth : Z;
  background : Vec
}.

Record Image : Type := {
  width : Z;
  height : Z;
  scale : float;
  zero_tol : float
}.

Record Scene : Type := {
  lights : list Light.t;
  objects : list Primitive;
  camera : Camera;
  image : Image
}.

(** An object of the scene is referred to by its place in [scene.objects];
    [null] is [None]. *)
Definition ref : Type := nat.
Bind Scope nat_scope with ref.

Module Intersection.
Record result : Type := raw {
  object : option ref;
  t : float
}.
End Intersection.

(** ** The tracer

    Every function below reads the program's global [scene]. *)

Section Tracer.

Variable scene : Scene.

(** [Sphere.prototype.checkIntersection]. *)
Definition Sphere_checkIntersection (this : Sphere.t) (ray : Ray.t float) : float :=
  let A := Ray.origin ray in
  let r := Ray.direction ray in
  let O := Vector3.subtract A (Sphere.position this) in
  let a := 1 in
  let b := 2 * Vector3.inner O r in
  let c := Vector3.inner O O - Sphere.radius this * Sphere.radius this in
  let discriminant := b * b - 4 * a * c in
  if 0 <=? discriminant then
    let sqrtDisc := sqrt discriminant in
    let num := (if b <? 0 then - b - sqrtDisc else - b + sqrtDisc) / 2 in
    let t_0 := num / a in
    let t_1 := c / num in
    (* t_0 = Math.min(t_0, t_1), t_1 = Math.max(t_0, t_1): the second
       assignment reads the t_0 the first one wrote *)
    let t_0 := Math_min t_0 t_1 in
    let t_1 := Math_max t_0 t_1 in
    if zero_tol (image scene) <=? t_1
    then (if t_0 <? 0 then t_1 else t_0)
    else Infinity
  else Infinity.

(** [Plane.prototype.checkIntersection]. *)
Definition Plane_checkIntersection (this : Plane.t) (ray : Ray.t float) : float :=
  let A := Ray.origin ray in
  let b := Ray.direction ray in
  let normal := Plane.normal this None in
  let denominator := Vector3.inner normal b in
  if Math_abs denominator <? zero_tol (image scene) then Infinity
  else
    let t := Vector3.inner (Vector3.subtract (Plane.position this) A) normal
             / denominator in
    if zero_tol (image scene) <? t then t else Infinity.

Definition checkIntersection (object : Primitive) (ray : Ray.t float) : float :=
  match object with
  | ASphere s => Sphere_checkIntersection s ray
  | APlane p => Plane_checkIntersection p ray
  end.

(** The [for] loop of [closestIntersection], from index [i] on. *)
Fixpoint closestIntersection_loop (objects : list Primitive) (i : nat)
  (intersection : Intersection.result) (ray : Ray.t float) : Intersection.result :=
  match objects with
  | [] => intersection
  | object :: objects' =>
      let intersectSolution := checkIntersection object ray in
      let intersection :=
        if (intersectSolution <? Infinity)
           && (intersectSolution <? Intersection.t intersection)
        then Intersection.raw (Some i) intersectSolution
        else intersection in
      closestIntersection_loop objects' (S i) intersection ray
  end.

Definition closestIntersection (ray : Ray.t float) : Intersection.result :=
  closestIntersection_loop (objects scene) 0
    (Intersection.raw None Infinity) ray.

(** [a == b] where [a] may be [null] and [b] is an object. *)
Definition same_object (a : option ref) (b : ref) : bool :=
  match a with
  | Some r => Nat.eqb r b
  | None => false
  end.

(** [Light.prototype.visible]. *)
Definition Light_visible (this : Light.t) (pos : Vec) (object : ref) : bool :=
  let intersection :=
    closestIntersection
      (Ray.new (Light.position this)
               (Vector3.subtract pos (Light.position this))) in
  same_object (Intersection.object intersection) object
  && (- zero_tol (image scene) <? Intersection.t intersection).

(** The object a reference points to. *)
Definition deref (r : option ref) : option Primitive :=
  match r with
  | Some i => nth_error (objects scene) i
  | None => None
  end.

(** [traceRay], over the [computeColor] it calls. *)
Definition traceRay_with
  (computeColor : Ray.t float -> Intersection.result -> Z -> M Vec)
  (ray : Ray.t float) (depth : Z) : M Vec :=
  let intersection := closestIntersection ray in
  match Intersection.object intersection with
  | None => ret (background (camera scene))
  | Some _ => computeColor ray intersection depth
  end.

(** [Material.prototype.scatter], over the [traceRay] it calls. *)
Definition Material_scatter (traceRay : Ray.t float -> Z -> M Vec)
  (ray : Ray.t float) (intersection : Intersection.result) (depth : Z) : M Vec :=
  let p := Ray.at_ ray (Intersection.t intersection) in
  match deref (Intersection.object intersection) with
  | None => throw
  | Some object =>
      let hitNormal := Vector3.times (normal object p) (-1) in
      rnd <- Vector3_random (-1) 1 ;;
      let targ := Vector3.add hitNormal rnd in
      let r := Ray.new p targ in
      traceRay r depth
  end.

(** The light loop of [computeColor]: what one light adds to
    [lambertianAmount]. *)
Definition lambertianStep (rayIntPoint surfaceNormal : Vec) (object : ref)
  (lambertianAmount : float) (light : Light.t) : float :=
  if Light_visible light rayIntPoint object then
    let L := Vector3.inner
               (Vector3.normalize
                  (Vector3.subtract (Light.position light) rayIntPoint))
               surfaceNormal
             * Light.intensity light in
    lambertianAmount + Math_max L 0
  else lambertianAmount.

(** [computeColor], over the [traceRay] it calls.  [depth] is the integer
    the renderer is started with; an [intersection] without an object makes
    the first line throw. *)
Definition computeColor_body (traceRay : Ray.t float -> Z -> M Vec)
  (ray : Ray.t float) (intersection : Intersection.result) (depth : Z) : M Vec :=
  match Intersection.object intersection, deref (Intersection.object intersection) with
  | Some objref, Some object =>
      let color := Material.color (material object) in
      let reflection := Vector3.new 0 0 0 in
      let lights := lights scene in
      let rayIntPoint := Ray.at_ ray (Intersection.t intersection) in
      let surfaceNormal := normal object rayIntPoint in
      let depth := (depth - 1)%Z in
      if (depth <? 1)%Z then ret reflection
      else
        (* Apply Lambertian reflectance (diffuse) *)
        let lambertianScale := Material.diffuse (material object) in
        let lambertianAmount := 0 in
        lambertianAmount <-
          (if 0 <? lambertianScale then
             let lambertianAmount :=
               fold_left (lambertianStep rayIntPoint surfaceNormal objref)
                         lights lambertianAmount in
             let lambertianAmount := Math_min lambertianAmount 1 in
             scattered <- Material_scatter traceRay ray intersection depth ;;
             (* color.add(...): the sum is a new vector, which is dropped *)
             let _ := Vector3.add color scattered in
             ret lambertianAmount
           else ret lambertianAmount) ;;
        (* Apply specular reflection *)
        let specularScale := Material.specular (material object) in
        reflection <-
          (if 0 <? specularScale then
             let surfaceRay :=
               Ray.new rayIntPoint
                       (Material.reflect (Ray.direction ray) surfaceNormal) in
             traced <- traceRay surfaceRay depth ;;
             ret (Vector3.times traced specularScale)
           else ret reflection) ;;
        ret (Vector3.add
               (Vector3.add reflection
                  (Vector3.times color (lambertianAmount * lambertianScale)))
               (Vector3.times color (Material.ambient (material object))))
  | _, _ => throw
  end.

(** The recursion of [computeColor] through [traceRay] and
    [Material.scatter]; [calls] bounds how many calls of [computeColor] may
    be nested. *)
Fixpoint computeColor_rec (calls : nat)
  (ray : Ray.t float) (intersection : Intersection.result) (depth : Z) : M Vec :=
  match calls with
  | O => fun _ => OutOfFuel
  | S calls' =>
      computeColor_body (traceRay_with (computeColor_rec calls'))
                        ray intersection depth
  end.

(** [computeColor(ray, intersection, depth)]: at most [max 1 depth] nested
    calls. *)
Definition computeColor (ray : Ray.t float) (intersection : Intersection.result)
  (depth : Z) : M Vec :=
  computeColor_rec (Z.to_nat (Z.max 1 depth)) ray intersection depth.

(** [traceRay(ray, depth)]. *)
Definition traceRay (ray : Ray.t float) (depth : Z) : M Vec :=
  traceRay_with computeColor ray depth.

End Tracer.

(** ** The scene of the program *)

Import String.StringSyntax.
Local Open Scope string_scope.

Definition default_scene : Scene := {|
  lights := [Light.new 0 4 (-2) 1 "top light"];
  objects :=
    [APlane (Plane.new 0 (-0.2) 1 (Some (Vector3.new 0 1 0))
               (Some (Material.new 0.7 0.1 0.5 (Some (Vector3.new 61 62 64))))
               "floor");
     ASphere (Sphere.new 0.1 (-0.145) 1.4 0.055
               (Some (Material.new 0.05 0.3 0.5 (Some (Vector3.new 175 250 201))))
               "1st row ball 1");
     ASphere (Sphere.new 0 (-0.145) 1.4 0.055
               (Some (Material.new 0.05 0.3 0.5 (Some (Vector3.new 245 175 250))))
               "2nd row ball 2");
     ASphere (Sphere.new (-0.1) (-0.145) 1.4 0.055
               (Some (Material.new 0.05 0.3 0.5 (Some (Vector3.new 250 110 129))))
               "1st row ball 3");
     ASphere (Sphere.new 0.05 (-0.145) 1.3 0.055
               (Some (Material.new 0.05 0.3 0.5 (Some (Vector3.new 110 115 250))))
               "2nd row ball 1");
     ASphere (Sphere.new (-0.05) (-0.145) 1.3 0.055
               (Some (Material.new 0.05 0.3 0.5 (Some (Vector3.new 161 116 112))))
               "2nd row ball 2");
     ASphere (Sphere.new 0 (-0.145) 1.2 0.055
               (Some (Material.new 0.05 0.1 0.5 (Some (Vector3.new 245 203 86))))
               "3rd row ball 1");
     ASphere (Sphere.new 0 (-0.02) 1.3 0.055
               (Some (Material.new 0.2 0.7 0.5 (Some (Vector3.new 20 20 20))))
               "top mirror sphere")];
  camera := {|
    pos := Vector3.new 0 0 0;
    direction := Vector3.new 0 0 1;
    fov := 40;
    up := Vector3.new 0 1 0;
    antialiasing_samples_per_pixel := 1;
    ray_tracing_depth := 3;
    background := Vector3.new 0 0 0
  |};
  image := {| width := 320; height := 450; scale := 1; zero_tol := 1e-3 |}
|}.

(** ** The specification's sphere intersection

    The text of the specification: the two candidate roots are ordered so
    that [t0 <= t1] before the tolerance test. *)
Definition Sphere_intersect_spec (epsilon : float) (this : Sphere.t)
  (ray : Ray.t float) : float :=
  let O := Vector3.subtract (Ray.origin ray) (Sphere.position this) in
  let a := 1 in
  let b := 2 * Vector3.inner O (Ray.direction ray) in
  let c := Vector3.inner O O - Sphere.radius this * Sphere.radius this in
  let delta := b * b - 4 * a * c in
  if delta <? 0 then Infinity
  else
    let num := (if b <? 0 then - b - sqrt delta else - b + sqrt delta) / 2 in
    let t0 := num / a in
    let t1 := c / num in
    let lo := Math_min t0 t1 in
    let hi := Math_max t0 t1 in
    if epsilon <=? hi then (if 0 <=? lo then lo else hi) else Infinity.

(** ** Scenes and rays of the examples *)

Definition plain_camera (background : Vec) : Camera := {|
  pos := Vector3.new 0 0 0;
  direction := Vector3.new 0 0 1;
  fov := 40;
  up := Vector3.new 0 1 0;
  antialiasing_samples_per_pixel := 1;
  ray_tracing_depth := 3;
  background := background
|}.

Definition plain_image : Image :=
  {| width := 320; height := 450; scale := 1; zero_tol := 1e-3 |}.

Definition empty_scene : Scene := {|
  lights := [];
  objects := [];
  camera := plain_camera (Vector3.new 7 8 9);
  image := plain_image
|}.

(** A unit sphere around the origin, where the camera sits. *)
Definition dome : Sphere.t := Sphere.new 0 0 0 1 None "dome".

Definition dome_scene : Scene := {|
  lights := [];
  objects := [ASphere dome];
  camera := plain_camera (Vector3.new 0 0 0);
  image := plain_image
|}.

Definition forward_ray : Ray.t float :=
  Ray.new (Vector3.new 0 0 0) (Vector3.new 0 0 1).

(** An unlit matt floor [y = 0] with a ball under it, before a bright
    background. *)
Definition matt_floor : Plane.t :=
  Plane.new 0 0 0 (Some (Vector3.new 0 1 0))
    (Some (Material.new 1 0 1 (Some (Vector3.new 10 20 30)))) "floor".

Definition buried_ball : Sphere.t :=
  Sphere.new 0 (-3) 0 1
    (Some (Material.new 0 0 1 (Some (Vector3.new 1 2 3)))) "ball".

Definition matt_scene : Scene := {|
  lights := [];
  objects := [APlane matt_floor; ASphere buried_ball];
  camera := plain_camera (Vector3.new 100 100 100);
  image := plain_image
|}.

(** Random numbers that scatter straight down, and to the side. *)
Definition tape_down : list float := [0.5; 0.5; 0.5].
Definition tape_aside : list float := [0.9; 0.9; 0.9; 0.95; 0.5; 0.5].

Definition down_ray : Ray.t float :=
  Ray.new (Vector3.new 0 1 0) (Vector3.new 0 (-1) 0).

Definition floor_hit : Intersection.result := Intersection.raw (Some 0%nat) 1.

(** The same floor twice: both are hit at the same distance. *)
Definition twin_scene : Scene := {|
  lights := [Light.new 0 4 0 1 "lamp"];
  objects := [APlane matt_floor; APlane matt_floor];
  camera := plain_camera (Vector3.new 0 0 0);
  image := plain_image
|}.

(** ** What the loop of [closestIntersection] finds

    Started from [acc] at index [i], the loop over [objs] leaves [acc] when
    no object of [objs] is nearer, and otherwise ends on the first object of
    [objs] at the least distance. *)

Definition nothing_nearer (scene : Scene) (ray : Ray.t float)
  (objs : list Primitive) (acc r : Intersection.result) : Prop :=
  r = acc /\
  forall o, In o objs ->
    (checkIntersection scene o ray <? Infinity)
    && (checkIntersection scene o ray <? Intersection.t acc) = false.

Definition first_nearest (scene : Scene) (ray : Ray.t float)
  (objs : list Primitive) (i : nat) (acc r : Intersection.result) : Prop :=
  exists k o,
    nth_error objs k = Some o /\
    r = Intersection.raw (Some (i + k)%nat) (checkIntersection scene o ray) /\
    (checkIntersection scene o ray <? Infinity) = true /\
    (checkIntersection scene o ray <? Intersection.t acc) = true /\
    forall j o', nth_error objs j = Some o' ->
      (checkIntersection scene o' ray <? Infinity) = true ->
      (checkIntersection scene o ray <=? checkIntersection scene o' ray) = true /\
      ((j < k)%nat ->
       (checkIntersection scene o ray <? checkIntersection scene o' ray) = true).

(** A vector whose squared norm is beyond the doubles, and a diagonal. *)
Definition huge_vector : Vec := Vector3.new 0x1p600 0 0.
Definition diagonal_vector : Vec := Vector3.new 1 1 0.

(** ** Properties of computations on the tape *)

(** [m] never stops for want of nested calls. *)
Definition never_out_of_fuel {A} (m : M A) : Prop :=
  forall tape, m tape <> OutOfFuel.

(** The value [m] returns does not depend on the tape. *)
Definition ignores_tape {A} (m : M A) : Prop :=
  forall tape1 tape2 a1 a2 rest1 rest2,
    m tape1 = Done a1 rest1 -> m tape2 = Done a2 rest2 -> a1 = a2.

(** On a tape of [n >= k] numbers [0.5], [m] returns and reads at most [k]
    of them. *)
Definition returns_within {A} (m : M A) (k : nat) : Prop :=
  forall n, (k <= n)%nat ->
    exists a n', m (repeat 0.5 n) = Done a (repeat 0.5 n') /\ (n <= n' + k)%nat.

(** Random numbers that [calls] nested calls of [computeColor] may read
    when every [Vector3.random] succeeds in its first round. *)
Fixpoint draws (calls : nat) : nat :=
  match calls with
  | O => 0
  | S calls' => 3 + (draws calls' + draws calls')
  end.

(** ** What the constructor stores *)

(** A number [function Vector3] can store: not NaN, and of the two zeros
    only [+0]. *)
Definition stored (a : float) : Prop :=
  is_nan a = false /\ (is_zero a = true -> a = 0).

(** A vector as [new Vector3(...)] leaves it. *)
Definition constructed (v : Vec) : Prop :=
  stored (Vector3.x v) /\ stored (Vector3.y v) /\ stored (Vector3.z v).

(** ** More properties of computations on the tape *)

(** [m] never reads a property of [null]. *)
Definition never_throws {A} (m : M A) : Prop :=
  forall tape, m tape <> Throw.

(** [m] returns one value, whatever the tape, and reads nothing of it. *)
Definition reads_nothing {A} (m : M A) : Prop :=
  exists a, forall tape, m tape = Done a tape.

(** Two mirrors that face each other: a floor [y = 0] and a ball above
    it, neither with a diffuse weight. *)
Definition mirror_floor : Plane.t :=
  Plane.new 0 0 0 (Some (Vector3.new 0 1 0))
    (Some (Material.new 0 0.5 0.5 (Some (Vector3.new 10 20 30)))) "floor".

Definition mirror_ball : Sphere.t :=
  Sphere.new 0 3 0 1
    (Some (Material.new 0 0.5 0.5 (Some (Vector3.new 200 100 50)))) "ball".

Definition mirror_scene : Scene := {|
  lights := [Light.new 4 4 0 1 "lamp"];
  objects := [APlane mirror_floor; ASphere mirror_ball];
  camera := plain_camera (Vector3.new 100 100 100);
  image := plain_image
|}.

(** A wall that only has an ambient weight. *)
Definition flat_wall : Plane.t :=
  Plane.new 0 0 0 (Some (Vector3.new 0 1 0))
    (Some (Material.new 0 0 0.5 (Some (Vector3.new 10 20 30)))) "wall".

Definition flat_scene : Scene := {|
  lights := [Light.new 4 4 0 1 "lamp"];
  objects := [APlane flat_wall];
  camera := plain_camera (Vector3.new 100 100 100);
  image := plain_image
|}.

(** ** The camera and the pixels of [renderScene] *)

Section CameraBasis.
Context {num : Type} `{Number num}.

(** The axes [eye], [camVecX] and [camVecY] that [renderScene] builds from
    the camera. *)
Definition cameraBasis (pos direction up : Vector3.t num)
  : Vector3.t num * Vector3.t num * Vector3.t num :=
  let eye := Vector3.normalize (Vector3.subtract direction pos) in
  let camVecX := Vector3.normalize (Vector3.cross eye up) in
  let camVecY := Vector3.normalize (Vector3.cross camVecX eye) in
  (eye, camVecX, camVecY).

End CameraBasis.

(** A whole number of the scene as a double (exact below [2^53]). *)
Definition number_of_Z (n : Z) : float :=
  if (n <? 0)%Z then - of_uint63 (Uint63.of_Z (- n))
  else of_uint63 (Uint63.of_Z n).

(** [Math.pow(-1, i)] for a loop counter [i]. *)
Definition Math_pow_minus_one (i : nat) : float :=
  if Nat.even i then 1 else -1.

Section RenderScene.

(** [Math.tan] and [Math.PI] of the host. *)
Variable Math_tan : float -> float.
Variable Math_PI : float.
Variable scene : Scene.

(** The sample loop of a pixel: [i] is the loop counter, [samples] what is
    left of [sampleCount]. *)
Fixpoint renderScene_samples (topLeft camVecX camVecY : Vec)
  (pixelWidth pixelHeight : float) (rayTraceDepth : Z)
  (samples i : nat) (incX incY : float) (color : Vec) : M Vec :=
  match samples with
  | O => ret color
  | S samples' =>
      let direction :=
        Vector3.subtract (Vector3.add topLeft (Vector3.times camVecX incX))
                         (Vector3.times camVecY incY) in
      let ray := Ray.new (pos (camera scene)) direction in
      traced <- traceRay scene ray rayTraceDepth ;;
      let color := Vector3.add color traced in
      let sign := Math_pow_minus_one i in
      r <- Math_random ;;
      let incY := incY + sign * r * pixelHeight in
      r <- Math_random ;;
      let incX := incX + sign * r * pixelWidth in
      renderScene_samples topLeft camVecX camVecY pixelWidth pixelHeight
        rayTraceDepth samples' (S i) incX incY color
  end.

(** The colour [renderScene(rayTraceDepth)] gives to [setRGB] for the pixel
    [(x, y)]. *)
Definition renderScene_pixel (rayTraceDepth : Z) (x y : float) : M Vec :=
  let camera := camera scene in
  let width := number_of_Z (width (image scene)) * scale (image scene) in
  let height := number_of_Z (height (image scene)) * scale (image scene) in
  let aspectRatio := width / height in
  let viewportWidth := 2 * Math_tan (fov camera * Math_PI / 360) in
  let viewportHeight := viewportWidth / aspectRatio in
  let '(eye, camVecX, camVecY) :=
    cameraBasis (pos camera) (direction camera) (up camera) in
  let topLeft :=
    Vector3.add (Vector3.subtract eye (Vector3.times camVecX (viewportWidth / 2)))
                (Vector3.times camVecY (viewportHeight / 2)) in
  let pixelHeight := viewportHeight / (height - 1) in
  let pixelWidth := viewportWidth / (width - 1) in
  let sampleCount := antialiasing_samples_per_pixel camera in
  let incY := y * pixelHeight in
  let incX := x * pixelWidth in
  let color := Vector3.new 0 0 0 in
  color <- renderScene_samples topLeft camVecX camVecY pixelWidth pixelHeight
             rayTraceDepth (Z.to_nat sampleCount) 0 incX incY color ;;
  ret (Vector3.divide color (number_of_Z sampleCount)).

End RenderScene.

(** A stand-in for the host's tangent: the first terms of its series. *)
Definition tan_series (a : float) : float := a + a * a * a / 3.

Definition pi_double : float := 0x1.921fb54442d18p+1.

(** Two runs of random numbers for a pixel of the program's scene. *)
Definition tape_calm : list float := repeat 0.5 20.
Definition tape_mixed : list float :=
  [0.9; 0.9; 0.9; 0.2; 0.5; 0.5; 0.3; 0.4; 0.6; 0.1; 0.2; 0.3; 0.4; 0.5;
   0.5; 0.5; 0.5; 0.5; 0.5; 0.5; 0.5].

Section ReflectOver.
Context {num : Type} `{Number num}.
Local Open Scope num_scope.

(** [Material.reflect] over any numbers, with [2] written [1 + 1]. *)
Definition reflect_over (v normal : Vector3.t num) : Vector3.t num :=
  Vector3.subtract v
    (Vector3.times normal ((num_one + num_one) * Vector3.inner normal v)).

End ReflectOver.

(** ** The scene builder *)

(** [a[i]] for an index that may be negative or beyond the end. *)
Definition at_index {A} (a : list A) (i : Z) : option A :=
  if (i <? 0)%Z then None else nth_error a (Z.to_nat i).

(** [a.splice(start, 1)]: the array it leaves.  A negative [start] counts
    from the end, one beyond the end removes nothing. *)
Definition splice1 {A} (a : list A) (start : Z) : list A :=
  let len := Z.of_nat (length a) in
  let actualStart :=
    if (start <? 0)%Z then Z.max (len + start) 0 else Z.min start len in
  firstn (Z.to_nat actualStart) a ++ skipn (S (Z.to_nat actualStart)) a.

(** The options of [objectSelector]: [scene.lights.concat(scene.objects)]. *)
Definition selectable (scene : Scene) : list (Light.t + Primitive) :=
  map inl (lights scene) ++ map inr (objects scene).

(** The two arrays [objectOfIndex] chooses from. *)
Inductive SceneList : Type := TheLights | TheObjects.

(** [objectOfIndex(i)]; [selected] is
    [getProperty("objectSelector", "index")], and [i] is [None] when the
    function is called without an argument. *)
Definition objectOfIndex (scene : Scene) (selected : Z) (i : option Z)
  : SceneList * Z :=
  let i := match i with
           | Some i => if (i =? 0)%Z then selected else i
           | None => selected
           end in
  let nlights := Z.of_nat (length (lights scene)) in
  (if (i >? nlights - 1)%Z then TheObjects else TheLights,
   if (i >? nlights - 1)%Z then (i - nlights)%Z else i).

(** [object.list[object.index]] for what [objectOfIndex] returns. *)
Definition chosen (scene : Scene) (object : SceneList * Z)
  : option (Light.t + Primitive) :=
  match fst object with
  | TheLights => option_map inl (at_index (lights scene) (snd object))
  | TheObjects => option_map inr (at_index (objects scene) (snd object))
  end.

(** The click on [removeBtn]: the scene it leaves. *)
Definition removeBtn_click (scene : Scene) (selected : Z) : Scene :=
  let object := objectOfIndex scene selected None in
  match fst object with
  | TheLights =>
      {| lights := splice1 (lights scene) (snd object);
         objects := objects scene;
         camera := camera scene;
         image := image scene |}
  | TheObjects =>
      {| lights := lights scene;
         objects := splice1 (objects scene) (snd object);
         camera := camera scene;
         image := image scene |}
  end.

(** [keys.indexOf(key)]. *)
Fixpoint indexOf (key : String.string) (keys : list String.string) : Z :=
  match keys with
  | [] => -1
  | k :: keys' =>
      if String.eqb k key then 0
      else let i := indexOf key keys' in
           if (i <? 0)%Z then -1 else (i + 1)%Z
  end.

(** The keys [loadObjectProperties] puts in [propsDropdown], from
    [Object.keys(object)]: [for (var i in ignoreIndices)] runs [i] over the
    indices of [ignoreIndices], not over the indices it holds. *)
Definition loadObjectProperties_keys (keys : list String.string)
  : list String.string :=
  let ignoreIndices := [indexOf "position" keys; indexOf "material" keys] in
  fold_left (fun keys i => if (i >? -1)%Z then splice1 keys i else keys)
            (map Z.of_nat (seq 0 (length ignoreIndices))) keys.

(** [Object.keys] of what [function Light], [function Sphere] and
    [function Plane] make, in the order the fields are assigned. *)
Definition Light_keys : list String.string := ["position"; "intensity"; "id"].
Definition Sphere_keys : list String.string :=
  ["position"; "radius"; "material"; "id"].
Definition Plane_keys : list String.string :=
  ["position"; "normalVec"; "material"; "id"].

(** Whatever [m] returns is a vector as the constructor leaves it. *)
Definition returns_constructed (m : M Vec) : Prop :=
  forall tape c rest, m tape = Done c rest -> constructed c.

Section PlaneSolution.
Context {num : Type} `{Number num}.
Local Open Scope num_scope.

(** The distance [t] that [Plane.checkIntersection] computes. *)
Definition Plane_solution (position normal : Vector3.t num) (ray : Ray.t num)
  : num :=
  Vector3.inner (Vector3.subtract position (Ray.origin ray)) normal
  / Vector3.inner normal (Ray.direction ray).

End PlaneSolution.

(** ** The values of the doubles *)

(** Normalisation is read on the doubles through the real numbers that the
    doubles denote: [value a] is the number of the finite double [a], by
    its sign, mantissa and exponent.  It is [0] for a NaN and for the
    infinities, which [is_finite] tells apart. *)
Module Double.
Import Reals.
Local Open Scope R_scope.

Definition SF2R (f : spec_float) : R :=
  match f with
  | S754_finite s m e => (if s then - IZR (Zpos m) else IZR (Zpos m)) * powerRZ 2 e
  | _ => 0
  end.

Definition value (a : float) : R := SF2R (Prim2SF a).

Definition SF_finite (f : spec_float) : bool :=
  match f with
  | S754_zero _ | S754_finite _ _ _ => true
  | _ => false
  end.

(** [V] is [x] rounded to a double: of the sign of [x], and off by at most
    one unit in the last place. *)
Definition near (x V : R) : Prop :=
  (0 <= x -> 0 <= V) /\ (x <= 0 -> V <= 0)
  /\ Rabs (V - x) <= Rabs x * powerRZ 2 (-52) + powerRZ 2 (-1074).

(** The result of [binary_round_aux], as a mantissa and an exponent. *)
Definition rounded (s : bool) (m e : Z) : spec_float :=
  match m with
  | Z0 => S754_zero s
  | Zpos p => if (e <=? 971)%Z then S754_finite s p e else S754_infinity s
  | Zneg _ => S754_nan
  end.

(** The exact sum of the squares of the components. *)
Definition sumsq (v : Vec) : R :=
  value (Vector3.x v) * value (Vector3.x v)
  + value (Vector3.y v) * value (Vector3.y v)
  + value (Vector3.z v) * value (Vector3.z v).

(** Components that are finite and of magnitude at most [2 ^ 510]. *)
Definition component_ok (a : float) : Prop :=
  is_finite a = true /\ Rabs (value a) <= powerRZ 2 510.

Definition components_ok (v : Vec) : Prop :=
  component_ok (Vector3.x v) /\ component_ok (Vector3.y v) /\ component_ok (Vector3.z v).

(** A component of [times v s], against the exact product. *)
Definition scaled (s : R) (a a' : float) : Prop :=
  is_finite a' = true /\ near (s * value a) (value a').

(** A component of magnitude at most [2 ^ 510], *)
Definition in_range (a : float) : bool := (abs a <=? 0x1p510)%float.

(** and one of magnitude at least [2 ^ -510]. *)
Definition sizeable (a : float) : bool := (0x1p-510 <=? abs a)%float.

(** The vectors whose squared norm neither overflows nor underflows: no
    component above [2 ^ 510] in magnitude, and one of at least
    [2 ^ -510]. *)
Definition normalizable (v : Vec) : bool :=
  in_range (Vector3.x v) && in_range (Vector3.y v) && in_range (Vector3.z v)
  && (sizeable (Vector3.x v) || sizeable (Vector3.y v) || sizeable (Vector3.z v)).

(** The floating tolerance: [2 ^ -45], about [2.8e-14]. *)
Definition tolerance : R := powerRZ 2 (-45).

(** The double [a] is finite, and its value is within the tolerance of [r]. *)
Definition within_tolerance (a : float) (r : R) : Prop :=
  is_finite a = true /\ Rabs (value a - r) <= tolerance.

(** The doubles [a] and [b] are finite, and within the tolerance of each
    other. *)
Definition close (a b : float) : Prop :=
  is_finite a = true /\ is_finite b = true
  /\ Rabs (value a - value b) <= tolerance.

End Double.

(** Vectors outside that range, and one inside. *)
Definition overflowing_vector : Vec := Vector3.new 0x1p512 0 0.
Definition underflowing_vector : Vec := Vector3.new 0x1p-538 0 0.
Definition lossy_vector : Vec := Vector3.new 0x1.00000000001p-516 0 0.
Definition pythagorean_vector : Vec := Vector3.new 0 3 4.

(** * Properties *)

(** ** The order of the doubles

    [<?] and [<=?] on the kernel's floats, through their specification on
    [spec_float]. *)

Ltac sf_cases :=
  repeat match goal with
  | |- context [PosDef.Pos.compare_cont Eq ?a ?b] =>
      change (PosDef.Pos.compare_cont Eq a b) with (Pos.compare a b);
      destruct (Pos.compare_spec a b)
  | H : context [PosDef.Pos.compare_cont Eq ?a ?b] |- _ =>
      change (PosDef.Pos.compare_cont Eq a b) with (Pos.compare a b) in H;
      destruct (Pos.compare_spec a b)
  | |- context [(?a ?= ?b)%Z] => destruct (Z.compare_spec a b)
  | H : context [(?a ?= ?b)%Z] |- _ => destruct (Z.compare_spec a b)
  end.

Ltac sf_order :=
  unfold SFltb, SFleb, SFcompare;
  repeat match goal with
  | a : spec_float |- _ => destruct a as [[]|[]| |[] ? ?]
  end;
  try discriminate; try reflexivity; intros; sf_cases; subst; simpl in *;
  try discriminate; try reflexivity; try lia.

Lemma SFltb_trans a b c :
  SFltb a b = true -> SFltb b c = true -> SFltb a c = true.
Proof. sf_order. Qed.

Lemma SFltb_below a b c :
  SFltb c a = true -> SFltb b a = false ->
  SFltb b (S754_infinity false) = true -> SFltb c b = true.
Proof. sf_order. Qed.

Lemma SFleb_of_not_ltb a b :
  SFltb b a = false -> SFltb a (S754_infinity false) = true ->
  SFltb b (S754_infinity false) = true -> SFleb a b = true.
Proof. sf_order. Qed.

Lemma SFleb_of_ltb a b : SFltb a b = true -> SFleb a b = true.
Proof. sf_order. Qed.

Lemma Prim2SF_Infinity : Prim2SF Infinity = S754_infinity false.
Proof. reflexivity. Qed.

Lemma ltb_trans (a b c : float) :
  (a <? b) = true -> (b <? c) = true -> (a <? c) = true.
Proof. rewrite !ltb_spec. apply SFltb_trans. Qed.

(** [c < a], not [b < a] and [b] a number below [Infinity]: [c < b]. *)
Lemma ltb_below (a b c : float) :
  (c <? a) = true -> (b <? a) = false -> (b <? Infinity) = true ->
  (c <? b) = true.
Proof. rewrite !ltb_spec, Prim2SF_Infinity. apply SFltb_below. Qed.

Lemma leb_of_not_ltb (a b : float) :
  (b <? a) = false -> (a <? Infinity) = true -> (b <? Infinity) = true ->
  (a <=? b) = true.
Proof. rewrite !ltb_spec, leb_spec, Prim2SF_Infinity. apply SFleb_of_not_ltb. Qed.

Lemma leb_of_ltb (a b : float) : (a <? b) = true -> (a <=? b) = true.
Proof. rewrite ltb_spec, leb_spec. apply SFleb_of_ltb. Qed.

Lemma ltb_irrefl (a : float) : (a <? a) = false.
Proof.
  rewrite ltb_spec. destruct (Prim2SF a) as [[]|[]| |[] m e]; try reflexivity;
    unfold SFltb, SFcompare; rewrite Z.compare_refl;
    change (PosDef.Pos.compare_cont Eq m m) with (Pos.compare m m);
    rewrite Pos.compare_refl; reflexivity.
Qed.

Lemma leb_refl_finite (a : float) :
  (a <? Infinity) = true -> (a <=? a) = true.
Proof. intros Ha. apply leb_of_not_ltb; auto using ltb_irrefl. Qed.

(** ** The closest intersection *)

Lemma closestIntersection_loop_spec (scene : Scene) (ray : Ray.t float)
  (objs : list Primitive) :
  forall i acc,
    nothing_nearer scene ray objs acc
      (closestIntersection_loop scene objs i acc ray)
    \/ first_nearest scene ray objs i acc
         (closestIntersection_loop scene objs i acc ray).
Proof.
  induction objs as [|o objs IH]; intros i acc; simpl.
  - left. split; [reflexivity | intros o []].
  - destruct ((checkIntersection scene o ray <? Infinity)
              && (checkIntersection scene o ray <? Intersection.t acc)) eqn:Hupd.
    + (* [o] is taken *)
      apply andb_true_iff in Hupd as [Hfin Hlt]. right.
      destruct (IH (S i) (Intersection.raw (Some i) (checkIntersection scene o ray)))
        as [[Hr Hnone] | (k & ok & Hk & Hr & Hkfin & Hklt & Hmin)].
      * exists 0%nat, o. rewrite Hr, Nat.add_0_r.
        split; [reflexivity|]. split; [reflexivity|].
        split; [assumption|]. split; [assumption|].
        intros j o' Hj Hfin'. split.
        -- destruct j as [|j]; simpl in Hj.
           ++ injection Hj as <-. now apply leb_refl_finite.
           ++ apply nth_error_In in Hj. specialize (Hnone _ Hj). simpl in Hnone.
              rewrite Hfin' in Hnone. simpl in Hnone. now apply leb_of_not_ltb.
        -- intros Hlt0. inversion Hlt0.
      * simpl in Hklt. exists (S k), ok. rewrite Hr, Nat.add_succ_r.
        split; [assumption|]. split; [reflexivity|].
        split; [assumption|]. split; [eapply ltb_trans; eassumption|].
        intros j o' Hj Hfin'. destruct j as [|j]; simpl in Hj.
        -- injection Hj as <-. split; [now apply leb_of_ltb | intros _; assumption].
        -- destruct (Hmin j o' Hj Hfin') as [Hle Hfirst].
           split; [assumption | intros Hlt'; apply Hfirst; lia].
    + (* [o] is passed over *)
      destruct (IH (S i) acc)
        as [[Hr Hnone] | (k & ok & Hk & Hr & Hkfin & Hklt & Hmin)].
      * left. split; [assumption|]. intros o' [<- | Hin]; auto.
      * right. exists (S k), ok. rewrite Hr, Nat.add_succ_r.
        split; [assumption|]. split; [reflexivity|].
        split; [assumption|]. split; [assumption|].
        intros j o' Hj Hfin'. destruct j as [|j]; simpl in Hj.
        -- injection Hj as <-. rewrite Hfin' in Hupd. simpl in Hupd.
           assert (Hbelow : (checkIntersection scene ok ray
                             <? checkIntersection scene o ray) = true)
             by (eapply ltb_below; eassumption).
           split; [now apply leb_of_ltb | intros _; assumption].
        -- destruct (Hmin j o' Hj Hfin') as [Hle Hfirst].
           split; [assumption | intros Hlt'; apply Hfirst; lia].
Qed.

(** C4.  [closestIntersection] scans the primitives in order from
    [{object: null, t: Infinity}].  When no primitive has a distance below
    [Infinity] it returns exactly that record; otherwise it returns a
    primitive of the scene with its distance, which is below [Infinity], at
    most the distance of every primitive that has one, and strictly below
    the distance of every such primitive placed before it: of several
    primitives at the least distance the first one is returned. *)
Theorem closestIntersection_first_minimum (scene : Scene) (ray : Ray.t float) :
  let r := closestIntersection scene ray in
  (Intersection.object r = None ->
     r = Intersection.raw None Infinity /\
     forall o, In o (objects scene) ->
       (checkIntersection scene o ray <? Infinity) = false)
  /\ ((forall o, In o (objects scene) ->
         (checkIntersection scene o ray <? Infinity) = false) ->
      r = Intersection.raw None Infinity)
  /\ (forall i, Intersection.object r = Some i ->
        exists o,
          nth_error (objects scene) i = Some o /\
          Intersection.t r = checkIntersection scene o ray /\
          (Intersection.t r <? Infinity) = true /\
          forall j o', nth_error (objects scene) j = Some o' ->
            (checkIntersection scene o' ray <? Infinity) = true ->
            (Intersection.t r <=? checkIntersection scene o' ray) = true /\
            ((j < i)%nat ->
             (Intersection.t r <? checkIntersection scene o' ray) = true)).
Proof.
  unfold closestIntersection.
  destruct (closestIntersection_loop_spec scene ray (objects scene) 0
              (Intersection.raw None Infinity))
    as [[Hr Hnone] | (k & ok & Hk & Hr & Hkfin & Hklt & Hmin)];
    cbv zeta; rewrite Hr; simpl.
  - assert (Hall : forall o, In o (objects scene) ->
                     (checkIntersection scene o ray <? Infinity) = false).
    { intros o Hin. specialize (Hnone o Hin). simpl in Hnone.
      now rewrite andb_diag in Hnone. }
    split; [intros _; split; [reflexivity | exact Hall]|].
    split; [reflexivity | discriminate].
  - split; [discriminate|]. split.
    + intros Hall. apply nth_error_In in Hk. rewrite (Hall ok Hk) in Hkfin.
      discriminate.
    + intros i Hi. injection Hi as <-. exists ok.
      split; [assumption|]. split; [reflexivity|]. split; [assumption|].
      exact Hmin.
Qed.

Lemma closestIntersection_first_minimum_witness :
  closestIntersection twin_scene down_ray = Intersection.raw (Some 0%nat) 1
  /\ exists o,
       nth_error (objects twin_scene) 0 = Some o /\
       Intersection.t (closestIntersection twin_scene down_ray)
       = checkIntersection twin_scene o down_ray.
Proof.
  split; [vm_compute; reflexivity|].
  destruct (proj2 (proj2 (closestIntersection_first_minimum twin_scene down_ray))
              0%nat) as (o & Ho & Ht & _).
  - vm_compute. reflexivity.
  - exists o. split; assumption.
Defined.

(** C3.  [Light.visible(point, object)] is true exactly when the closest
    intersection of the ray from the light towards the point is [object]
    itself and its distance is above [-zero_tol]; when the closest
    intersection is another primitive, or there is none, it is false. *)
Theorem Light_visible_iff (scene : Scene) (this : Light.t) (pos : Vec)
  (object : ref) :
  let r := closestIntersection scene
             (Ray.new (Light.position this)
                      (Vector3.subtract pos (Light.position this))) in
  (Light_visible scene this pos object = true <->
     Intersection.object r = Some object /\
     (- zero_tol (image scene) <? Intersection.t r) = true)
  /\ (forall other, Intersection.object r = Some other -> other <> object ->
        Light_visible scene this pos object = false)
  /\ (Intersection.object r = None ->
        Light_visible scene this pos object = false).
Proof.
  cbv zeta. unfold Light_visible.
  destruct (Intersection.object _) as [hit|]; simpl.
  - split; [|split].
    + rewrite andb_true_iff, Nat.eqb_eq. split.
      * intros [-> Ht]. split; [reflexivity | assumption].
      * intros [Hhit Ht]. injection Hhit as ->. split; [reflexivity | assumption].
    + intros other Hother Hneq. injection Hother as ->.
      apply Nat.eqb_neq in Hneq. now rewrite Hneq.
    + discriminate.
  - split; [|split].
    + split; [discriminate | intros [Hhit _]; discriminate].
    + reflexivity.
    + reflexivity.
Qed.

Lemma Light_visible_iff_witness :
  Light_visible twin_scene (Light.new 0 4 0 1 "lamp") (Vector3.new 0 0 0) 1
  = false.
Proof.
  apply (proj1 (proj2 (Light_visible_iff twin_scene (Light.new 0 4 0 1 "lamp")
                         (Vector3.new 0 0 0) 1%nat)) 0%nat).
  - vm_compute. reflexivity.
  - discriminate.
Defined.

(** C6.  [traceRay] returns exactly the camera's background colour, and
    reads no random number, when the closest intersection has no object, in
    particular in a scene without primitives; when there is one it is the
    result of [computeColor] on that intersection. *)
Theorem traceRay_background (scene : Scene) (ray : Ray.t float) (depth : Z)
  (tape : list float) :
  (Intersection.object (closestIntersection scene ray) = None ->
     traceRay scene ray depth tape = Done (background (camera scene)) tape)
  /\ (objects scene = [] ->
        traceRay scene ray depth tape = Done (background (camera scene)) tape)
  /\ (forall i, Intersection.object (closestIntersection scene ray) = Some i ->
        traceRay scene ray depth tape
        = computeColor scene ray (closestIntersection scene ray) depth tape).
Proof.
  unfold traceRay, traceRay_with. split; [|split].
  - intros ->. reflexivity.
  - intros Hempty. unfold closestIntersection. rewrite Hempty. reflexivity.
  - intros i ->. reflexivity.
Qed.

Lemma traceRay_background_witness :
  traceRay empty_scene forward_ray 3 [] = Done (Vector3.new 7 8 9) [].
Proof.
  apply (proj1 (proj2 (traceRay_background empty_scene forward_ray 3 []))).
  reflexivity.
Defined.

(** C7.  [Plane.checkIntersection] takes [denom], the inner product of the
    plane's normal and the ray's direction, and returns [Infinity] when
    [|denom| < zero_tol]; otherwise it takes [t], the inner product of
    [position - origin] and the normal divided by [denom], and returns [t]
    when [t > zero_tol] and [Infinity] when not. *)
Theorem Plane_checkIntersection_cases (scene : Scene) (this : Plane.t)
  (ray : Ray.t float) :
  let epsilon := zero_tol (image scene) in
  let denom := Vector3.inner (Plane.normalVec this) (Ray.direction ray) in
  let t := Vector3.inner
             (Vector3.subtract (Plane.position this) (Ray.origin ray))
             (Plane.normalVec this) / denom in
  ((abs denom <? epsilon) = true ->
     Plane_checkIntersection scene this ray = Infinity)
  /\ ((abs denom <? epsilon) = false -> (epsilon <? t) = true ->
        Plane_checkIntersection scene this ray = t)
  /\ ((abs denom <? epsilon) = false -> (epsilon <? t) = false ->
        Plane_checkIntersection scene this ray = Infinity).
Proof.
  cbv zeta. unfold Plane_checkIntersection, Plane.normal, Math_abs.
  split; [|split].
  - intros Hpar. now rewrite Hpar.
  - intros Hpar Hfar. now rewrite Hpar, Hfar.
  - intros Hpar Hnear. now rewrite Hpar, Hnear.
Qed.

Lemma Plane_checkIntersection_cases_witness :
  Plane_checkIntersection matt_scene matt_floor down_ray = 1.
Proof.
  apply (proj1 (proj2 (Plane_checkIntersection_cases matt_scene matt_floor
                         down_ray))); vm_compute; reflexivity.
Defined.

(** ** Computations on the tape *)

Lemma never_out_of_fuel_ret {A} (a : A) : never_out_of_fuel (ret a).
Proof. intros tape. discriminate. Qed.

Lemma never_out_of_fuel_throw {A} : never_out_of_fuel (@throw A).
Proof. intros tape. discriminate. Qed.

Lemma never_out_of_fuel_bind {A B} (m : M A) (f : A -> M B) :
  never_out_of_fuel m -> (forall a, never_out_of_fuel (f a)) ->
  never_out_of_fuel (bind m f).
Proof.
  intros Hm Hf tape. unfold bind. specialize (Hm tape).
  destruct (m tape) as [a rest| | |]; try discriminate.
  - apply Hf.
  - congruence.
Qed.

Lemma never_out_of_fuel_random_loop (rounds : nat) (min max : float) :
  never_out_of_fuel (Vector3_random_loop rounds min max).
Proof.
  induction rounds as [|rounds IH]; simpl.
  - intros tape. discriminate.
  - unfold randBetween.
    repeat (apply never_out_of_fuel_bind;
            [ try apply never_out_of_fuel_bind;
              [intros [|r rest]; discriminate
              | intros r; apply never_out_of_fuel_ret]
            | intros ? ]).
    destruct (1 <=? _); [exact IH | apply never_out_of_fuel_ret].
Qed.

Lemma never_out_of_fuel_random (min max : float) :
  never_out_of_fuel (Vector3_random min max).
Proof. intros tape. apply never_out_of_fuel_random_loop. Qed.

(** The rounds [Vector3.random] is given are never what stops it: once they
    cover the tape, more of them change nothing. *)
Lemma Vector3_random_loop_enough (rounds : nat) (min max : float) :
  forall rounds' tape,
    (length tape <= rounds)%nat -> (length tape <= rounds')%nat ->
    Vector3_random_loop rounds min max tape
    = Vector3_random_loop rounds' min max tape.
Proof.
  induction rounds as [|rounds IH]; intros rounds' tape H H'.
  - destruct tape; [|simpl in H; lia]. destruct rounds'; reflexivity.
  - destruct rounds' as [|rounds'].
    + destruct tape; [reflexivity | simpl in H'; lia].
    + destruct tape as [|a [|b [|c rest]]]; try reflexivity.
      simpl in H, H'. cbn -[Vector3.norm Vector3.new PrimFloat.leb].
      unfold bind, randBetween, Math_random, ret, bind. simpl.
      destruct (1 <=? _); [apply IH; lia | reflexivity].
Qed.

Lemma ignores_tape_ret {A} (a : A) : ignores_tape (ret a).
Proof. intros t1 t2 a1 a2 r1 r2 H1 H2. unfold ret in *. congruence. Qed.

Lemma ignores_tape_throw {A} : ignores_tape (@throw A).
Proof. intros t1 t2 a1 a2 r1 r2 H1. discriminate. Qed.

Lemma ignores_tape_bind {A B} (m : M A) (f : A -> M B) :
  ignores_tape m -> (forall a, ignores_tape (f a)) -> ignores_tape (bind m f).
Proof.
  intros Hm Hf t1 t2 b1 b2 r1 r2. unfold bind.
  destruct (m t1) as [a1 s1| | |] eqn:E1; try discriminate.
  destruct (m t2) as [a2 s2| | |] eqn:E2; try discriminate.
  rewrite (Hm _ _ _ _ _ _ E1 E2). apply Hf.
Qed.

(** A value that is read and dropped leaves no trace in the result. *)
Lemma ignores_tape_bind_dropped {A B} (m : M A) (k : M B) :
  ignores_tape k -> ignores_tape (bind m (fun _ => k)).
Proof.
  intros Hk t1 t2 b1 b2 r1 r2. unfold bind.
  destruct (m t1) as [a1 s1| | |]; try discriminate.
  destruct (m t2) as [a2 s2| | |]; try discriminate.
  apply Hk.
Qed.

(** ** The recursion of [computeColor] *)

Section Recursion.

Variable scene : Scene.

Lemma never_out_of_fuel_traceRay_with
  (cc : Ray.t float -> Intersection.result -> Z -> M Vec)
  (ray : Ray.t float) (depth : Z) :
  (forall i, never_out_of_fuel (cc ray i depth)) ->
  never_out_of_fuel (traceRay_with scene cc ray depth).
Proof.
  intros Hcc. unfold traceRay_with.
  destruct (Intersection.object _); [apply Hcc | apply never_out_of_fuel_ret].
Qed.

Lemma never_out_of_fuel_scatter (f : Ray.t float -> Z -> M Vec)
  (ray : Ray.t float) (i : Intersection.result) (depth : Z) :
  (forall r, never_out_of_fuel (f r depth)) ->
  never_out_of_fuel (Material_scatter scene f ray i depth).
Proof.
  intros Hf. unfold Material_scatter.
  destruct (deref scene _); [|apply never_out_of_fuel_throw].
  apply never_out_of_fuel_bind; [apply never_out_of_fuel_random|].
  intros rnd. apply Hf.
Qed.

Lemma never_out_of_fuel_body (f : Ray.t float -> Z -> M Vec)
  (ray : Ray.t float) (i : Intersection.result) (depth : Z) :
  ((1 <= depth - 1)%Z -> forall r, never_out_of_fuel (f r (depth - 1)%Z)) ->
  never_out_of_fuel (computeColor_body scene f ray i depth).
Proof.
  intros Hf. unfold computeColor_body.
  destruct (Intersection.object i) as [objref|]; [|apply never_out_of_fuel_throw].
  destruct (deref scene (Some objref)) as [object|];
    [|apply never_out_of_fuel_throw].
  cbv zeta. destruct (depth - 1 <? 1)%Z eqn:Hbase;
    [apply never_out_of_fuel_ret|].
  apply Z.ltb_ge in Hbase. specialize (Hf Hbase).
  apply never_out_of_fuel_bind.
  - destruct (0 <? Material.diffuse _); [|apply never_out_of_fuel_ret].
    apply never_out_of_fuel_bind; [now apply never_out_of_fuel_scatter|].
    intros scattered. apply never_out_of_fuel_ret.
  - intros lambertianAmount. apply never_out_of_fuel_bind.
    + destruct (0 <? Material.specular _); [|apply never_out_of_fuel_ret].
      apply never_out_of_fuel_bind; [apply Hf|].
      intros traced. apply never_out_of_fuel_ret.
    + intros reflection. apply never_out_of_fuel_ret.
Qed.

Lemma never_out_of_fuel_rec (calls : nat) :
  forall depth ray i,
    (Z.to_nat (Z.max 1 depth) <= calls)%nat ->
    never_out_of_fuel (computeColor_rec scene calls ray i depth).
Proof.
  induction calls as [|calls IH]; intros depth ray i Hcalls.
  - lia.
  - simpl. apply never_out_of_fuel_body. intros Hdeep r.
    apply never_out_of_fuel_traceRay_with. intros i'. apply IH. lia.
Qed.

Lemma ignores_tape_traceRay_with
  (cc : Ray.t float -> Intersection.result -> Z -> M Vec)
  (ray : Ray.t float) (depth : Z) :
  (forall i, ignores_tape (cc ray i depth)) ->
  ignores_tape (traceRay_with scene cc ray depth).
Proof.
  intros Hcc. unfold traceRay_with.
  destruct (Intersection.object _); [apply Hcc | apply ignores_tape_ret].
Qed.

(** Whatever [Material.scatter] returns, and whatever it read to get
    there, [computeColor] returns the same colour. *)
Lemma ignores_tape_body (f : Ray.t float -> Z -> M Vec)
  (ray : Ray.t float) (i : Intersection.result) (depth : Z) :
  (forall r, ignores_tape (f r (depth - 1)%Z)) ->
  ignores_tape (computeColor_body scene f ray i depth).
Proof.
  intros Hf. unfold computeColor_body.
  destruct (Intersection.object i) as [objref|]; [|apply ignores_tape_throw].
  destruct (deref scene (Some objref)) as [object|]; [|apply ignores_tape_throw].
  cbv zeta. destruct (depth - 1 <? 1)%Z; [apply ignores_tape_ret|].
  apply ignores_tape_bind.
  - destruct (0 <? Material.diffuse _); [|apply ignores_tape_ret].
    apply ignores_tape_bind_dropped. apply ignores_tape_ret.
  - intros lambertianAmount. apply ignores_tape_bind.
    + destruct (0 <? Material.specular _); [|apply ignores_tape_ret].
      apply ignores_tape_bind; [apply Hf|].
      intros traced. apply ignores_tape_ret.
    + intros reflection. apply ignores_tape_ret.
Qed.

Lemma ignores_tape_rec (calls : nat) :
  forall depth ray i, ignores_tape (computeColor_rec scene calls ray i depth).
Proof.
  induction calls as [|calls IH]; intros depth ray i.
  - intros t1 t2 a1 a2 r1 r2 H1. discriminate.
  - simpl. apply ignores_tape_body. intros r.
    apply ignores_tape_traceRay_with. intros i'. apply IH.
Qed.

End Recursion.

(** ** Enough random numbers *)

Lemma returns_within_ret {A} (a : A) : returns_within (ret a) 0.
Proof. intros n Hn. exists a, n. split; [reflexivity | lia]. Qed.

Lemma returns_within_weaken {A} (m : M A) (k k' : nat) :
  returns_within m k -> (k <= k')%nat -> returns_within m k'.
Proof.
  intros Hm Hk n Hn. destruct (Hm n) as (a & n' & Hrun & Hleft); [lia|].
  exists a, n'. split; [assumption | lia].
Qed.

Lemma returns_within_bind {A B} (m : M A) (f : A -> M B) (k1 k2 : nat) :
  returns_within m k1 -> (forall a, returns_within (f a) k2) ->
  returns_within (bind m f) (k1 + k2).
Proof.
  intros Hm Hf n Hn. destruct (Hm n) as (a & n1 & Hrun1 & Hleft1); [lia|].
  destruct (Hf a n1) as (b & n2 & Hrun2 & Hleft2); [lia|].
  exists b, n2. unfold bind. rewrite Hrun1. split; [assumption | lia].
Qed.

Lemma Vector3_random_first_round (rest : list float) :
  Vector3_random (-1) 1 (0.5 :: 0.5 :: 0.5 :: rest)
  = Done (Vector3.new 0 0 0) rest.
Proof. reflexivity. Qed.

Lemma returns_within_random : returns_within (Vector3_random (-1) 1) 3.
Proof.
  intros n Hn. destruct n as [|[|[|n]]]; try lia.
  exists (Vector3.new 0 0 0), n. split; [|lia].
  change (repeat 0.5 (S (S (S n)))) with (0.5 :: 0.5 :: 0.5 :: repeat 0.5 n).
  apply Vector3_random_first_round.
Qed.

Section Production.

Variable scene : Scene.

(** The object of a closest intersection is an object of the scene. *)
Lemma closestIntersection_deref (ray : Ray.t float) (i : ref) :
  Intersection.object (closestIntersection scene ray) = Some i ->
  deref scene (Intersection.object (closestIntersection scene ray)) <> None.
Proof.
  intros Hi. rewrite Hi. unfold closestIntersection in Hi.
  destruct (closestIntersection_loop_spec scene ray (objects scene) 0
              (Intersection.raw None Infinity))
    as [[Hr Hnone] | (k & ok & Hk & Hr & _)]; rewrite Hr in Hi; simpl in Hi.
  - discriminate.
  - injection Hi as <-. simpl. congruence.
Qed.

Lemma returns_within_traceRay_with
  (cc : Ray.t float -> Intersection.result -> Z -> M Vec)
  (ray : Ray.t float) (depth : Z) (k : nat) :
  (forall i, deref scene (Intersection.object i) <> None ->
             returns_within (cc ray i depth) k) ->
  returns_within (traceRay_with scene cc ray depth) k.
Proof.
  intros Hcc. unfold traceRay_with.
  destruct (Intersection.object (closestIntersection scene ray)) as [i|] eqn:Hi.
  - apply Hcc. eapply closestIntersection_deref; eassumption.
  - apply returns_within_weaken with (k := 0%nat);
      [apply returns_within_ret | lia].
Qed.

Lemma returns_within_scatter (f : Ray.t float -> Z -> M Vec)
  (ray : Ray.t float) (i : Intersection.result) (depth : Z) (k : nat) :
  deref scene (Intersection.object i) <> None ->
  (forall r, returns_within (f r depth) k) ->
  returns_within (Material_scatter scene f ray i depth) (3 + k).
Proof.
  intros Hobj Hf. unfold Material_scatter.
  destruct (deref scene _); [|congruence].
  apply returns_within_bind; [apply returns_within_random|].
  intros rnd. apply Hf.
Qed.

Lemma returns_within_body (f : Ray.t float -> Z -> M Vec)
  (ray : Ray.t float) (i : Intersection.result) (depth : Z) (k : nat) :
  deref scene (Intersection.object i) <> None ->
  ((1 <= depth - 1)%Z -> forall r, returns_within (f r (depth - 1)%Z) k) ->
  returns_within (computeColor_body scene f ray i depth) (3 + (k + k)).
Proof.
  intros Hobj Hf.
  assert (Hscatter := fun H =>
            @returns_within_scatter f ray i (depth - 1)%Z k Hobj (Hf H)).
  unfold computeColor_body.
  destruct (Intersection.object i) as [objref|]; [|simpl in Hobj; congruence].
  destruct (deref scene (Some objref)) as [object|]; [|congruence].
  cbv zeta. destruct (depth - 1 <? 1)%Z eqn:Hbase.
  - apply returns_within_weaken with (k := 0%nat);
      [apply returns_within_ret | lia].
  - apply Z.ltb_ge in Hbase. specialize (Hf Hbase). specialize (Hscatter Hbase).
    apply returns_within_weaken with (k := ((3 + k + 0) + (k + 0 + 0))%nat);
      [|lia].
    apply returns_within_bind.
    + destruct (0 <? Material.diffuse _).
      * apply returns_within_bind; [exact Hscatter|].
        intros scattered. apply returns_within_ret.
      * apply returns_within_weaken with (k := 0%nat);
          [apply returns_within_ret | lia].
    + intros lambertianAmount. apply returns_within_bind.
      * destruct (0 <? Material.specular _).
        -- apply returns_within_bind; [apply Hf|].
           intros traced. apply returns_within_ret.
        -- apply returns_within_weaken with (k := 0%nat);
             [apply returns_within_ret | lia].
      * intros reflection. apply returns_within_ret.
Qed.

Lemma returns_within_rec (calls : nat) :
  forall depth ray i,
    (Z.to_nat (Z.max 1 depth) <= calls)%nat ->
    deref scene (Intersection.object i) <> None ->
    returns_within (computeColor_rec scene calls ray i depth) (draws calls).
Proof.
  induction calls as [|calls IH]; intros depth ray i Hcalls Hobj.
  - lia.
  - simpl. apply returns_within_body; [assumption|]. intros Hdeep r.
    apply returns_within_traceRay_with. intros i' Hobj'. apply IH; [lia | assumption].
Qed.

End Production.

(** ** The recursive equation of [computeColor] *)

Lemma bind_ext {A B} (m m' : M A) (f f' : A -> M B) :
  (forall tape, m tape = m' tape) ->
  (forall a tape, f a tape = f' a tape) ->
  forall tape, bind m f tape = bind m' f' tape.
Proof.
  intros Hm Hf tape. unfold bind. rewrite Hm.
  destruct (m' tape); auto.
Qed.

Section Unfolding.

Variable scene : Scene.

Lemma Material_scatter_ext (f g : Ray.t float -> Z -> M Vec)
  (ray : Ray.t float) (i : Intersection.result) (depth : Z) :
  (forall r tape, f r depth tape = g r depth tape) ->
  forall tape,
    Material_scatter scene f ray i depth tape
    = Material_scatter scene g ray i depth tape.
Proof.
  intros Hfg. unfold Material_scatter.
  destruct (deref scene _); [|reflexivity].
  apply bind_ext; [reflexivity|]. intros rnd. apply Hfg.
Qed.

Lemma computeColor_body_ext (f g : Ray.t float -> Z -> M Vec)
  (ray : Ray.t float) (i : Intersection.result) (depth : Z) :
  ((1 <= depth - 1)%Z ->
   forall r tape, f r (depth - 1)%Z tape = g r (depth - 1)%Z tape) ->
  forall tape,
    computeColor_body scene f ray i depth tape
    = computeColor_body scene g ray i depth tape.
Proof.
  intros Hfg. unfold computeColor_body.
  destruct (Intersection.object i) as [objref|]; [|reflexivity].
  destruct (deref scene (Some objref)) as [object|]; [|reflexivity].
  cbv zeta. destruct (depth - 1 <? 1)%Z eqn:Hbase; [reflexivity|].
  apply Z.ltb_ge in Hbase. specialize (Hfg Hbase).
  apply bind_ext.
  - destruct (0 <? Material.diffuse _); [|reflexivity].
    apply bind_ext; [now apply Material_scatter_ext | reflexivity].
  - intros lambertianAmount. apply bind_ext; [|reflexivity].
    destruct (0 <? Material.specular _); [|reflexivity].
    apply bind_ext; [apply Hfg | reflexivity].
Qed.

(** More nested calls than [max 1 depth] are never used. *)
Lemma computeColor_rec_enough (calls : nat) :
  forall calls' depth ray i tape,
    (Z.to_nat (Z.max 1 depth) <= calls)%nat ->
    (Z.to_nat (Z.max 1 depth) <= calls')%nat ->
    computeColor_rec scene calls ray i depth tape
    = computeColor_rec scene calls' ray i depth tape.
Proof.
  induction calls as [|calls IH]; intros [|calls'] depth ray i tape H H';
    try lia.
  simpl. apply computeColor_body_ext. intros Hdeep r tape'.
  unfold traceRay_with. destruct (Intersection.object _); [|reflexivity].
  apply IH; lia.
Qed.

(** [computeColor] is [computeColor]'s body over [traceRay]. *)
Lemma computeColor_unfold (ray : Ray.t float) (i : Intersection.result)
  (depth : Z) (tape : list float) :
  computeColor scene ray i depth tape
  = computeColor_body scene (traceRay scene) ray i depth tape.
Proof.
  unfold computeColor.
  destruct (Z.to_nat (Z.max 1 depth)) as [|calls] eqn:Hcalls; [lia|].
  simpl. apply computeColor_body_ext. intros Hdeep r tape'.
  unfold traceRay, traceRay_with.
  destruct (Intersection.object _); [|reflexivity].
  unfold computeColor. apply computeColor_rec_enough; lia.
Qed.

End Unfolding.

(** ** The claims on [computeColor] and the sphere *)

(** C5.  On an intersection with an object, [computeColor] called with
    [depth = 1] returns [(0,0,0)] and reads no random number: the depth
    test comes before every lighting term.  For every depth the calls of
    [computeColor] nest at most [max 1 depth] deep, and with enough random
    numbers that [Vector3.random] accepts, the call returns a colour. *)
Theorem computeColor_depth_bound (scene : Scene) (ray : Ray.t float)
  (i : Intersection.result) :
  deref scene (Intersection.object i) <> None ->
  (forall tape,
     computeColor scene ray i 1 tape = Done (Vector3.new 0 0 0) tape)
  /\ (forall depth, never_out_of_fuel (computeColor scene ray i depth))
  /\ (forall depth,
        returns_within (computeColor scene ray i depth)
                       (draws (Z.to_nat (Z.max 1 depth)))).
Proof.
  intros Hobj. split; [|split].
  - intros tape. rewrite computeColor_unfold. unfold computeColor_body.
    destruct (Intersection.object i) as [objref|]; [|simpl in Hobj; congruence].
    destruct (deref scene (Some objref)) as [object|]; [|congruence].
    reflexivity.
  - intros depth. apply never_out_of_fuel_rec. lia.
  - intros depth. apply returns_within_rec; [lia | assumption].
Qed.

Lemma computeColor_depth_bound_witness :
  computeColor matt_scene down_ray floor_hit 1 [0.5; 0.5; 0.5]
  = Done (Vector3.new 0 0 0) [0.5; 0.5; 0.5].
Proof.
  apply (proj1 (computeColor_depth_bound matt_scene down_ray floor_hit
                  ltac:(vm_compute; discriminate))).
Defined.

(** C10.  The colour [computeColor] returns does not depend on the random
    numbers [Vector3.random] reads in [Material.scatter]: two calls that
    differ only in the tape return the same colour. *)
Theorem computeColor_ignores_random (scene : Scene) (ray : Ray.t float)
  (i : Intersection.result) (depth : Z) (tape1 tape2 rest1 rest2 : list float)
  (c1 c2 : Vec) :
  computeColor scene ray i depth tape1 = Done c1 rest1 ->
  computeColor scene ray i depth tape2 = Done c2 rest2 ->
  c1 = c2.
Proof. apply ignores_tape_rec. Qed.

Lemma computeColor_ignores_random_witness :
  exists c rest1 rest2,
    computeColor matt_scene down_ray floor_hit 3 tape_down = Done c rest1
    /\ computeColor matt_scene down_ray floor_hit 3 tape_aside = Done c rest2.
Proof.
  destruct (computeColor matt_scene down_ray floor_hit 3 tape_down)
    as [c1 rest1| | |] eqn:Hdown; try (vm_compute in Hdown; discriminate).
  destruct (computeColor matt_scene down_ray floor_hit 3 tape_aside)
    as [c2 rest2| | |] eqn:Haside; try (vm_compute in Haside; discriminate).
  exists c1, rest1, rest2. split; [reflexivity|].
  rewrite (computeColor_ignores_random _ _ _ _ _ _ Hdown Haside). reflexivity.
Defined.

Example floor_hit_closest : closestIntersection matt_scene down_ray = floor_hit.
Proof. vm_compute. reflexivity. Qed.

(** The two tapes of the witness do scatter to different colours. *)
Example scatter_depends_on_tape :
  Material_scatter matt_scene (traceRay matt_scene) down_ray floor_hit 2
    tape_down = Done (Vector3.new 1 2 3) []
  /\ Material_scatter matt_scene (traceRay matt_scene) down_ray floor_hit 2
       tape_aside = Done (Vector3.new 100 100 100) [].
Proof. split; vm_compute; reflexivity. Qed.

(** C1.  On the unlit floor with [diffuse = 1] and [ambient = 1] the
    scatter sample is traced (it reads the tape and comes back with the
    background colour), but the colour [computeColor] returns is the
    material's colour alone, not the blend of the two. *)
Theorem computeColor_drops_scatter :
  Material_scatter matt_scene (traceRay matt_scene) down_ray floor_hit 2
    tape_aside = Done (Vector3.new 100 100 100) []
  /\ computeColor matt_scene down_ray floor_hit 3 tape_aside
     = Done (Material.color (Plane.material matt_floor)) []
  /\ Material.color (Plane.material matt_floor) = Vector3.new 10 20 30
  /\ Vector3.add (Material.color (Plane.material matt_floor))
                 (Vector3.new 100 100 100) = Vector3.new 110 120 130.
Proof. repeat split; vm_compute; reflexivity. Qed.

(** After [t_0 = Math.min(t_0, t_1)], [Math.max(t_0, t_1)] is the old
    [t_1] again. *)
Lemma Math_max_min_right (a b : float) :
  Math_max (Math_min a b) b = if is_nan a || is_nan b then nan else b.
Proof.
  unfold Math_min.
  destruct (is_nan a || is_nan b) eqn:Hnan; [reflexivity|].
  apply orb_false_iff in Hnan as [Ha Hb].
  destruct (a <? b) eqn:Hab.
  - unfold Math_max. now rewrite Ha, Hb, Hab.
  - destruct (b <? a) eqn:Hba; [|destruct (get_sign a) eqn:Hsign].
    + unfold Math_max. rewrite Hb, ltb_irrefl. simpl. now destruct (get_sign b).
    + unfold Math_max. now rewrite Ha, Hb, Hab, Hba, Hsign.
    + unfold Math_max. rewrite Hb, ltb_irrefl. simpl. now destruct (get_sign b).
Qed.

(** C2.  A ray that starts at the centre of the unit sphere leaves it at
    distance 1, which is what the ordered roots of the specification give;
    [Sphere.checkIntersection] returns [Infinity]: after
    [t_0 = Math.min(t_0, t_1)] the maximum is taken of the new [t_0] and
    [t_1], which is the old [t_1] whatever the roots are, so the larger root
    is lost when [t_1] is the smaller one. *)
Theorem Sphere_checkIntersection_from_inside :
  Sphere_checkIntersection dome_scene dome forward_ray = Infinity
  /\ Sphere_intersect_spec (zero_tol (image dome_scene)) dome forward_ray = 1
  /\ (forall t_0 t_1 : float,
        Math_max (Math_min t_0 t_1) t_1
        = if is_nan t_0 || is_nan t_1 then nan else t_1).
Proof.
  split; [vm_compute; reflexivity|]. split; [vm_compute; reflexivity|].
  exact Math_max_min_right.
Qed.

(** ** Normalisation, in exact arithmetic and on the doubles *)

Module Exact.
Import Reals Lra.
Local Open Scope R_scope.

Lemma js_or_exact (a : R) : js_or a 0 = a.
Proof.
  unfold js_or. simpl. destruct (Req_dec_T a 0) as [-> | _]; reflexivity.
Qed.

(** Over the reals the constructor changes nothing. *)
Lemma new_exact (a b c : R) : Vector3.new a b c = Vector3.raw a b c.
Proof.
  unfold Vector3.new. simpl num_zero. now rewrite !js_or_exact.
Qed.

Lemma inner_self_pos (v : Vector3.t R) :
  v <> Vector3.raw 0 0 0 -> 0 < Vector3.inner v v.
Proof.
  destruct v as [a b c]. intros Hv. unfold Vector3.inner. simpl.
  destruct (Req_dec_T a 0) as [-> | Ha]; [|nra].
  destruct (Req_dec_T b 0) as [-> | Hb]; [|nra].
  destruct (Req_dec_T c 0) as [-> | Hc]; [|nra].
  now contradiction Hv.
Qed.

Lemma norm_pos (v : Vector3.t R) :
  v <> Vector3.raw 0 0 0 -> 0 < Vector3.norm v.
Proof. intros Hv. apply sqrt_lt_R0. now apply inner_self_pos. Qed.

Lemma normalize_nonzero (v : Vector3.t R) :
  v <> Vector3.raw 0 0 0 ->
  Vector3.normalize v
  = Vector3.raw (1 / Vector3.norm v * Vector3.x v)
                (1 / Vector3.norm v * Vector3.y v)
                (1 / Vector3.norm v * Vector3.z v).
Proof.
  intros Hv. pose proof (norm_pos Hv) as Hn.
  assert (Hne : num_neq (Vector3.norm v) num_zero = true).
  { change (num_neq (Vector3.norm v) num_zero)
      with (if Req_dec_T (Vector3.norm v) 0 then false else true).
    destruct (Req_dec_T (Vector3.norm v) 0) as [H0 | _]; [lra | reflexivity]. }
  unfold Vector3.normalize. cbv zeta. rewrite Hne.
  exact (new_exact _ _ _).
Qed.

Lemma normalize_unit (v : Vector3.t R) :
  v <> Vector3.raw 0 0 0 -> Vector3.norm (Vector3.normalize v) = 1.
Proof.
  intros Hv. rewrite (normalize_nonzero Hv).
  pose proof (norm_pos Hv) as Hn.
  assert (Hsq : Vector3.norm v * Vector3.norm v
                = Vector3.x v * Vector3.x v + Vector3.y v * Vector3.y v
                  + Vector3.z v * Vector3.z v).
  { apply sqrt_def. left. now apply inner_self_pos. }
  set (n := Vector3.norm v) in *. clearbody n.
  destruct v as [a b c]. simpl in *.
  unfold Vector3.norm, Vector3.inner. simpl.
  replace (1 / n * a * (1 / n * a) + 1 / n * b * (1 / n * b)
           + 1 / n * c * (1 / n * c))
    with 1; [apply sqrt_1|].
  transitivity ((a * a + b * b + c * c) / (n * n)).
  - rewrite <- Hsq. field. lra.
  - field. lra.
Qed.

Lemma normalize_zero : Vector3.normalize (Vector3.raw 0 0 0) = Vector3.raw 0 0 0.
Proof.
  unfold Vector3.normalize.
  replace (Vector3.norm (Vector3.raw 0 0 0)) with 0.
  - simpl. destruct (Req_dec_T 0 0); [reflexivity | contradiction].
  - unfold Vector3.norm, Vector3.inner. simpl.
    replace (0 * 0 + 0 * 0 + 0 * 0) with 0 by ring. symmetry. apply sqrt_0.
Qed.

Lemma normalize_idempotent (v : Vector3.t R) :
  Vector3.normalize (Vector3.normalize v) = Vector3.normalize v.
Proof.
  destruct (Classical_Prop.classic (v = Vector3.raw 0 0 0)) as [-> | Hv].
  - now rewrite !normalize_zero.
  - assert (Hu : Vector3.normalize v <> Vector3.raw 0 0 0).
    { intros H0. pose proof (normalize_unit Hv) as H1. rewrite H0 in H1.
      unfold Vector3.norm, Vector3.inner in H1. simpl in H1.
      replace (0 * 0 + 0 * 0 + 0 * 0) with 0 in H1 by ring.
      rewrite sqrt_0 in H1. lra. }
    rewrite (normalize_nonzero Hu), (normalize_unit Hv).
    destruct (Vector3.normalize v) as [a b c]. simpl. f_equal; field.
Qed.

(** Normalisation in exact arithmetic, beside the doubles.  [normalize]
    returns the zero vector, and every vector of the doubles whose computed
    norm is [0], unchanged.  In exact arithmetic it also returns the zero
    vector unchanged, and for every other vector [v] the norm of
    [normalize v] is [1] and normalising twice is normalising once. *)
Theorem normalize_unit_idempotent :
  Vector3.normalize (Vector3.new 0 0 0 : Vec)%float
  = (Vector3.new 0 0 0)%float
  /\ (forall v : Vec, PrimFloat.eqb (Vector3.norm v) 0%float = true ->
        Vector3.normalize v = v)
  /\ Vector3.normalize (Vector3.raw 0 0 0 : Vector3.t R) = Vector3.raw 0 0 0
  /\ (forall v : Vector3.t R, v <> Vector3.raw 0 0 0 ->
        Vector3.norm (Vector3.normalize v) = 1
        /\ Vector3.normalize (Vector3.normalize v) = Vector3.normalize v).
Proof.
  split; [reflexivity|]. split; [|split].
  - intros v Hzero. unfold Vector3.normalize. cbv zeta.
    change (num_neq (Vector3.norm v) num_zero)
      with (negb (PrimFloat.eqb (Vector3.norm v) 0%float)).
    now rewrite Hzero.
  - exact normalize_zero.
  - intros v Hv. split; [now apply normalize_unit | apply normalize_idempotent].
Qed.

Lemma normalize_unit_idempotent_witness :
  Vector3.norm (Vector3.normalize (Vector3.raw 0 3 4)) = 1
  /\ Vector3.normalize (Vector3.normalize (Vector3.raw 0 3 4))
     = Vector3.normalize (Vector3.raw 0 3 4).
Proof.
  apply (proj2 (proj2 (proj2 normalize_unit_idempotent))).
  intros H. injection H as H3 H4. lra.
Defined.

(** The ray constructor in exact arithmetic.  The constructor stores the
    normalised direction.  In exact arithmetic that is a unit vector for
    every direction but the zero vector, which is stored as it is. *)
Theorem Ray_direction_unit :
  (forall origin direction : Vec,
     Ray.direction (Ray.new origin direction) = Vector3.normalize direction)
  /\ (forall origin direction : Vector3.t R,
        direction <> Vector3.raw 0 0 0 ->
        Vector3.norm (Ray.direction (Ray.new origin direction)) = 1)
  /\ (forall origin : Vector3.t R,
        Ray.direction (Ray.new origin (Vector3.raw 0 0 0)) = Vector3.raw 0 0 0).
Proof.
  split; [reflexivity|]. split.
  - intros origin direction Hd. now apply normalize_unit.
  - intros origin. exact normalize_zero.
Qed.

Lemma Ray_direction_unit_witness :
  Vector3.norm
    (Ray.direction (Ray.new (Vector3.raw 0 0 0) (Vector3.raw 0 3 4))) = 1.
Proof.
  apply (proj1 (proj2 Ray_direction_unit)).
  intros H. injection H as H3 H4. lra.
Defined.

End Exact.

(** ** Normalisation on the doubles *)

(** On the doubles the squared norm of [(2^600, 0, 0)] is [Infinity], and
    its normalisation is the zero vector: not of norm [1]. *)
Lemma normalize_overflow :
  huge_vector <> Vector3.new 0 0 0
  /\ Vector3.norm (Vector3.normalize huge_vector) <> 1.
Proof.
  split; intros H.
  - apply (f_equal (fun v => PrimFloat.eqb (Vector3.x v) 0)) in H.
    vm_compute in H. discriminate.
  - apply (f_equal (fun a => PrimFloat.eqb a 1)) in H.
    vm_compute in H. discriminate.
Qed.

(** Rounding alone: the normalised diagonal has norm [1 - 2^-53], and
    normalising it again moves it. *)
Example normalize_rounding :
  Vector3.norm (Vector3.normalize diagonal_vector) = 0x1.fffffffffffffp-1
  /\ Vector3.normalize (Vector3.normalize diagonal_vector)
     <> Vector3.normalize diagonal_vector.
Proof.
  split; [vm_compute; reflexivity|]. intros H.
  apply (f_equal (fun v => PrimFloat.eqb (Vector3.x v)
                             (Vector3.x (Vector3.normalize diagonal_vector))))
    in H.
  vm_compute in H. discriminate.
Qed.

(** On the doubles a ray built with the zero direction has a direction of
    norm [0]. *)
Lemma Ray_zero_direction :
  Vector3.norm
    (Ray.direction (Ray.new (Vector3.new 0 0 0) (Vector3.new 0 0 0)))
  <> 1.
Proof.
  intros H. apply (f_equal (fun a => PrimFloat.eqb a 1)) in H.
  vm_compute in H. discriminate.
Qed.

(** ** The program's scene and the specification's examples *)

Example reflect_example :
  Material.reflect (Vector3.new 1 (-1) 0) (Vector3.new 0 1 0)
  = Vector3.new 1 1 0.
Proof. vm_compute. reflexivity. Qed.

(** From outside, aimed at the centre: the distance to the centre less the
    radius. *)
Example dome_from_outside :
  Sphere_checkIntersection dome_scene dome
    (Ray.new (Vector3.new 0 0 (-3)) (Vector3.new 0 0 1)) = 2.
Proof. vm_compute. reflexivity. Qed.

(** The camera of the program looks at the mirror sphere. *)
Example default_scene_forward :
  Intersection.object (closestIntersection default_scene forward_ray)
  = Some 7%nat.
Proof. vm_compute. reflexivity. Qed.

(** The floor under the balls is in their shadow; in front of them it is
    lit. *)
Example default_scene_shadow :
  Light_visible default_scene (Light.new 0 4 (-2) 1 "top light")
    (Vector3.new 0 (-0.2) 1.3) 0 = false
  /\ Light_visible default_scene (Light.new 0 4 (-2) 1 "top light")
       (Vector3.new 0 (-0.2) 0.5) 0 = true.
Proof. split; vm_compute; reflexivity. Qed.

(** A ray that leaves the scene upwards gets the background colour. *)
Example default_scene_miss :
  traceRay default_scene (Ray.new (Vector3.new 0 0 0) (Vector3.new 0 1 0)) 3 []
  = Done (background (camera default_scene)) [].
Proof. vm_compute. reflexivity. Qed.

(** * Further properties of the program *)

(** ** The constructor of [Vector3] *)

Lemma js_or_stored (a : float) : stored (js_or a 0).
Proof.
  unfold js_or. simpl.
  destruct (is_zero a) eqn:Hzero, (is_nan a) eqn:Hnan; simpl;
    split; try reflexivity; try assumption; congruence.
Qed.

Lemma js_or_of_stored (a : float) : stored a -> js_or a 0 = a.
Proof.
  intros [Hnan Hzero]. unfold js_or. simpl. rewrite Hnan.
  destruct (is_zero a); simpl; [symmetry; now apply Hzero | reflexivity].
Qed.

Lemma constructed_new (a b c : float) : constructed (Vector3.new a b c).
Proof. repeat split; apply js_or_stored. Qed.

(** X1.  Every vector that [new Vector3], [add], [times], [subtract],
    [divide] or [cross] returns has components that are neither NaN nor
    [-0] (the constructor's [x || 0] turns both into [0]); [normalize]
    keeps that, and constructing such a vector again changes nothing. *)
Theorem Vector3_constructed :
  (forall a b c, constructed (Vector3.new a b c))
  /\ (forall u v : Vec, constructed (Vector3.add u v))
  /\ (forall (u : Vec) s, constructed (Vector3.times u s))
  /\ (forall u v : Vec, constructed (Vector3.subtract u v))
  /\ (forall (u : Vec) s, constructed (Vector3.divide u s))
  /\ (forall u v : Vec, constructed (Vector3.cross u v))
  /\ (forall v : Vec, constructed v -> constructed (Vector3.normalize v))
  /\ (forall v : Vec, constructed v ->
        Vector3.new (Vector3.x v) (Vector3.y v) (Vector3.z v) = v).
Proof.
  split; [exact constructed_new|].
  split; [intros; apply constructed_new|].
  split; [intros; apply constructed_new|].
  split; [intros; apply constructed_new|].
  split; [intros; apply constructed_new|].
  split; [intros; apply constructed_new|].
  split.
  - intros v Hv. unfold Vector3.normalize. cbv zeta.
    destruct (num_neq _ _); [apply constructed_new | exact Hv].
  - intros [a b c] (Ha & Hb & Hc). simpl in *.
    unfold Vector3.new. now rewrite !js_or_of_stored.
Qed.

Lemma Vector3_constructed_witness :
  constructed (Vector3.normalize (Vector3.new nan (-0) 3)).
Proof.
  apply (proj1 (proj2 (proj2 (proj2 (proj2 (proj2 (proj2 Vector3_constructed))))))).
  apply constructed_new.
Defined.

(** ** More on the doubles *)

Lemma SFltb_leb_trans a b c :
  SFltb a b = true -> SFleb b c = true -> SFltb a c = true.
Proof. sf_order. Qed.

Lemma SFleb_ltb_trans a b c :
  SFleb a b = true -> SFltb b c = true -> SFltb a c = true.
Proof. sf_order. Qed.

Lemma SFleb_total a b :
  SFltb b a = false ->
  match a with S754_nan => false | _ => true end = true ->
  match b with S754_nan => false | _ => true end = true ->
  SFleb a b = true.
Proof. sf_order. Qed.

Lemma SFltb_opp_pos a :
  SFltb (S754_zero false) a = true -> SFltb (SFopp a) (S754_zero false) = true.
Proof. unfold SFopp. sf_order. Qed.

Lemma is_nan_spec (a : float) :
  is_nan a = match Prim2SF a with S754_nan => true | _ => false end.
Proof.
  unfold is_nan. rewrite FloatAxioms.eqb_spec. unfold SFeqb, SFcompare.
  destruct (Prim2SF a) as [[]|[]| |[] m e]; try reflexivity;
    rewrite Z.compare_refl;
    change (PosDef.Pos.compare_cont Eq m m) with (Pos.compare m m);
    rewrite Pos.compare_refl; reflexivity.
Qed.

Lemma is_zero_spec (a : float) :
  is_zero a = match Prim2SF a with S754_zero _ => true | _ => false end.
Proof.
  unfold is_zero. rewrite FloatAxioms.eqb_spec.
  change (Prim2SF zero) with (S754_zero false).
  destruct (Prim2SF a) as [[]|[]| |[] m e]; reflexivity.
Qed.

Lemma not_nan_SF (a : float) :
  is_nan a = false -> match Prim2SF a with S754_nan => false | _ => true end = true.
Proof. rewrite is_nan_spec. now destruct (Prim2SF a). Qed.

Lemma ltb_not_nan (a b : float) :
  (a <? b) = true -> is_nan a = false /\ is_nan b = false.
Proof.
  rewrite ltb_spec, !is_nan_spec. unfold SFltb, SFcompare.
  destruct (Prim2SF a), (Prim2SF b); try discriminate; now split.
Qed.

Lemma leb_not_nan (a b : float) :
  (a <=? b) = true -> is_nan a = false /\ is_nan b = false.
Proof.
  rewrite leb_spec, !is_nan_spec. unfold SFleb, SFcompare.
  destruct (Prim2SF a), (Prim2SF b); try discriminate; now split.
Qed.

Lemma ltb_leb_trans (a b c : float) :
  (a <? b) = true -> (b <=? c) = true -> (a <? c) = true.
Proof. rewrite !ltb_spec, leb_spec. apply SFltb_leb_trans. Qed.

Lemma leb_ltb_trans (a b c : float) :
  (a <=? b) = true -> (b <? c) = true -> (a <? c) = true.
Proof. rewrite !ltb_spec, leb_spec. apply SFleb_ltb_trans. Qed.

(** Two numbers are comparable. *)
Lemma leb_total (a b : float) :
  (b <? a) = false -> is_nan a = false -> is_nan b = false -> (a <=? b) = true.
Proof.
  rewrite ltb_spec, leb_spec. intros Hlt Ha Hb.
  apply SFleb_total; auto using not_nan_SF.
Qed.

Lemma ltb_opp_pos (a : float) : (0 <? a) = true -> (- a <? 0) = true.
Proof.
  rewrite !ltb_spec, opp_spec. change (Prim2SF 0) with (S754_zero false).
  apply SFltb_opp_pos.
Qed.

Lemma Math_max_not_nan (a b : float) :
  is_nan (Math_max a b) = false -> is_nan a = false /\ is_nan b = false.
Proof.
  unfold Math_max. destruct (is_nan a), (is_nan b); simpl; try discriminate.
  now split.
Qed.

Lemma Math_min_not_nan (a b : float) :
  is_nan a = false -> is_nan b = false -> is_nan (Math_min a b) = false.
Proof.
  intros Ha Hb. unfold Math_min. rewrite Ha, Hb. simpl.
  destruct (a <? b); [assumption|]. destruct (b <? a); [assumption|].
  now destruct (get_sign a).
Qed.

Lemma SFleb_trans a b c :
  SFleb a b = true -> SFleb b c = true -> SFleb a c = true.
Proof. sf_order. Qed.

Lemma leb_trans (a b c : float) :
  (a <=? b) = true -> (b <=? c) = true -> (a <=? c) = true.
Proof. rewrite !leb_spec. apply SFleb_trans. Qed.

(** ** Distances *)

(** The end of [Sphere.checkIntersection], from the two roots on. *)
Lemma Sphere_roots_distance (epsilon t_0 t_1 : float) :
  let t_0' := Math_min t_0 t_1 in
  let t_1' := Math_max t_0' t_1 in
  let d := if epsilon <=? t_1' then (if t_0' <? 0 then t_1' else t_0')
           else Infinity in
  is_nan d = false /\ ((0 <=? epsilon) = true -> (0 <=? d) = true).
Proof.
  cbv zeta. destruct (epsilon <=? _) eqn:Hfar; [|split; reflexivity].
  destruct (leb_not_nan Hfar) as [_ Hnan1].
  destruct (Math_max_not_nan _ _ Hnan1) as [Hnan0 _].
  destruct (_ <? 0) eqn:Hneg.
  - split; [assumption|]. intros Heps. eapply leb_trans; eassumption.
  - split; [assumption|]. intros _. now apply leb_total.
Qed.

Lemma checkIntersection_not_negative (scene : Scene) (object : Primitive)
  (ray : Ray.t float) :
  is_nan (checkIntersection scene object ray) = false
  /\ ((0 <=? zero_tol (image scene)) = true ->
      (0 <=? checkIntersection scene object ray) = true).
Proof.
  destruct object as [s | p]; simpl.
  - unfold Sphere_checkIntersection. cbv zeta.
    destruct (0 <=? _); [apply Sphere_roots_distance | split; reflexivity].
  - unfold Plane_checkIntersection. cbv zeta.
    destruct (Math_abs _ <? _); [split; reflexivity|].
    destruct (zero_tol (image scene) <? _) eqn:Hfar; [|split; reflexivity].
    split; [apply (ltb_not_nan Hfar)|].
    intros Heps. apply leb_of_ltb. eapply leb_ltb_trans; eassumption.
Qed.

(** X2.  [checkIntersection], of a sphere or of a plane, never returns NaN,
    and when [zero_tol] is not negative it never returns a negative
    distance: what it returns is [Infinity] or a number from [0] on. *)
Theorem checkIntersection_distance (scene : Scene) (object : Primitive)
  (ray : Ray.t float) :
  is_nan (checkIntersection scene object ray) = false
  /\ ((0 <=? zero_tol (image scene)) = true ->
      (0 <=? checkIntersection scene object ray) = true).
Proof. apply checkIntersection_not_negative. Qed.

Lemma checkIntersection_distance_witness :
  (0 <=? checkIntersection default_scene (APlane matt_floor) down_ray) = true.
Proof.
  apply (proj2 (checkIntersection_distance default_scene (APlane matt_floor)
                  down_ray)).
  reflexivity.
Defined.

Lemma closestIntersection_not_negative (scene : Scene) (ray : Ray.t float) :
  is_nan (Intersection.t (closestIntersection scene ray)) = false
  /\ ((0 <=? zero_tol (image scene)) = true ->
      (0 <=? Intersection.t (closestIntersection scene ray)) = true).
Proof.
  unfold closestIntersection.
  destruct (closestIntersection_loop_spec scene ray (objects scene) 0
              (Intersection.raw None Infinity))
    as [[Hr Hnone] | (k & ok & Hk & Hr & _)]; rewrite Hr; simpl.
  - split; reflexivity.
  - apply checkIntersection_not_negative.
Qed.

(** X3.  [closestIntersection] returns [t = Infinity] exactly when it
    returns no object; an object it returns is an object of the scene, and
    its [t] is a number (not NaN) that is not negative when [zero_tol] is
    not. *)
Theorem closestIntersection_distance (scene : Scene) (ray : Ray.t float) :
  let r := closestIntersection scene ray in
  (Intersection.object r = None <-> Intersection.t r = Infinity)
  /\ (forall i, Intersection.object r = Some i ->
        (i < length (objects scene))%nat)
  /\ is_nan (Intersection.t r) = false
  /\ ((0 <=? zero_tol (image scene)) = true ->
      (0 <=? Intersection.t r) = true).
Proof.
  unfold closestIntersection.
  destruct (closestIntersection_loop_spec scene ray (objects scene) 0
              (Intersection.raw None Infinity))
    as [[Hr Hnone] | (k & ok & Hk & Hr & Hkfin & Hklt & Hmin)];
    cbv zeta; rewrite Hr; simpl.
  - split; [split; reflexivity|]. split; [discriminate|]. split; reflexivity.
  - split; [|split; [|apply checkIntersection_not_negative]].
    + split; [discriminate|]. intros Hinf. rewrite Hinf, ltb_irrefl in Hkfin.
      discriminate.
    + intros i Hi. injection Hi as <-. apply nth_error_Some. congruence.
Qed.

Lemma closestIntersection_distance_witness :
  (0 <=? Intersection.t (closestIntersection default_scene forward_ray)) = true.
Proof.
  apply (proj2 (proj2 (proj2 (closestIntersection_distance default_scene
                                forward_ray)))).
  reflexivity.
Defined.

(** X4.  With a positive [zero_tol] the distance test of [Light.visible]
    never decides: the light is visible exactly when the closest
    intersection of its ray is the object asked about. *)
Theorem Light_visible_by_object (scene : Scene) (this : Light.t) (pos : Vec)
  (object : ref) :
  (0 <? zero_tol (image scene)) = true ->
  Light_visible scene this pos object
  = same_object
      (Intersection.object
         (closestIntersection scene
            (Ray.new (Light.position this)
                     (Vector3.subtract pos (Light.position this)))))
      object.
Proof.
  intros Heps. unfold Light_visible. cbv zeta.
  destruct (same_object _ object) eqn:Hsame; [|reflexivity].
  simpl. eapply ltb_leb_trans; [now apply ltb_opp_pos|].
  apply closestIntersection_not_negative. now apply leb_of_ltb.
Qed.

Lemma Light_visible_by_object_witness :
  Light_visible twin_scene (Light.new 0 4 0 1 "lamp") (Vector3.new 0 0 0) 0
  = true.
Proof.
  rewrite Light_visible_by_object; vm_compute; reflexivity.
Defined.

(** ** Zero in [Vector3] arithmetic *)

Lemma js_or_falsy (a : float) :
  match Prim2SF a with S754_zero _ | S754_nan => true | _ => false end = true ->
  js_or a 0 = 0.
Proof.
  intros H. unfold js_or. simpl. rewrite is_zero_spec, is_nan_spec.
  destruct (Prim2SF a); try discriminate; reflexivity.
Qed.

(** A product with a factor that is a zero or NaN is a zero or NaN. *)
Lemma js_or_mul_falsy_l (s a : float) :
  match Prim2SF s with S754_zero _ | S754_nan => true | _ => false end = true ->
  js_or (s * a) 0 = 0.
Proof.
  intros Hs. apply js_or_falsy. rewrite mul_spec.
  destruct (Prim2SF s) as [[]|[]| |[] ms es]; try discriminate;
    destruct (Prim2SF a) as [[]|[]| |[] m e]; reflexivity.
Qed.

Lemma js_or_add_zero_r (a : float) : js_or (a + 0) 0 = js_or a 0.
Proof.
  destruct (Prim2SF a) as [s|s| |s m e] eqn:Ha.
  - rewrite (js_or_falsy a); [|now rewrite Ha]. apply js_or_falsy.
    rewrite add_spec, Ha. now destruct s.
  - f_equal. apply Prim2SF_inj. rewrite add_spec, Ha. reflexivity.
  - rewrite (js_or_falsy a); [|now rewrite Ha]. apply js_or_falsy.
    rewrite add_spec, Ha. reflexivity.
  - f_equal. apply Prim2SF_inj. rewrite add_spec, Ha. reflexivity.
Qed.

Lemma js_or_add_zero_l (a : float) : js_or (0 + a) 0 = js_or a 0.
Proof.
  destruct (Prim2SF a) as [s|s| |s m e] eqn:Ha.
  - rewrite (js_or_falsy a); [|now rewrite Ha]. apply js_or_falsy.
    rewrite add_spec, Ha. now destruct s.
  - f_equal. apply Prim2SF_inj. rewrite add_spec, Ha. reflexivity.
  - rewrite (js_or_falsy a); [|now rewrite Ha]. apply js_or_falsy.
    rewrite add_spec, Ha. reflexivity.
  - f_equal. apply Prim2SF_inj. rewrite add_spec, Ha. reflexivity.
Qed.

Lemma times_falsy (u : Vec) (s : float) :
  match Prim2SF s with S754_zero _ | S754_nan => true | _ => false end = true ->
  Vector3.times u s = Vector3.new 0 0 0.
Proof.
  intros Hs. unfold Vector3.times, Vector3.new. simpl.
  now rewrite !js_or_mul_falsy_l.
Qed.

Lemma add_zero_l (v : Vec) :
  constructed v -> Vector3.add (Vector3.new 0 0 0) v = v.
Proof.
  destruct v as [a b c]. intros (Ha & Hb & Hc). simpl in *.
  unfold Vector3.add, Vector3.new. simpl.
  change (js_or 0 0 + a) with (0 + a). change (js_or 0 0 + b) with (0 + b).
  change (js_or 0 0 + c) with (0 + c).
  now rewrite !js_or_add_zero_l, !js_or_of_stored.
Qed.

Lemma add_zero_r (v : Vec) :
  constructed v -> Vector3.add v (Vector3.new 0 0 0) = v.
Proof.
  destruct v as [a b c]. intros (Ha & Hb & Hc). simpl in *.
  unfold Vector3.add, Vector3.new. simpl.
  change (a + js_or 0 0) with (a + 0). change (b + js_or 0 0) with (b + 0).
  change (c + js_or 0 0) with (c + 0).
  now rewrite !js_or_add_zero_r, !js_or_of_stored.
Qed.

(** X5.  On the doubles [(0,0,0)] is neutral for [add] on both sides, for
    every vector the constructor has made, and [times(0)] of every vector,
    also one with infinite or NaN components, is [(0,0,0)]. *)
Theorem Vector3_zero_neutral :
  (forall v : Vec, constructed v ->
     Vector3.add (Vector3.new 0 0 0) v = v
     /\ Vector3.add v (Vector3.new 0 0 0) = v)
  /\ (forall u : Vec, Vector3.times u 0 = Vector3.new 0 0 0).
Proof.
  split.
  - intros v Hv. split; [now apply add_zero_l | now apply add_zero_r].
  - intros u. now apply times_falsy.
Qed.

Lemma Vector3_zero_neutral_witness :
  Vector3.add (Vector3.new 0 0 0) (Vector3.new 1 infinity (-2))
  = Vector3.new 1 infinity (-2).
Proof.
  apply (proj1 Vector3_zero_neutral). apply constructed_new.
Defined.

(** X6.  [ray.at(0)] is the origin of the ray, for every direction (also
    an infinite one), when the origin is a vector the constructor has
    made. *)
Theorem Ray_at_zero (origin direction : Vec) :
  constructed origin -> Ray.at_ (Ray.new origin direction) 0 = origin.
Proof.
  intros Ho. unfold Ray.at_. simpl Ray.origin.
  rewrite times_falsy by reflexivity. now apply add_zero_r.
Qed.

Lemma Ray_at_zero_witness :
  Ray.at_ (Ray.new (Vector3.new 1 2 3) (Vector3.new infinity 0 0)) 0
  = Vector3.new 1 2 3.
Proof. apply Ray_at_zero. apply constructed_new. Defined.

(** X7.  [divide(0)] never makes a NaN: a component that is a zero or NaN
    becomes [0], a negative one [-Infinity] and a positive one
    [Infinity]. *)
Theorem Vector3_divide_zero (v : Vec) :
  let by_zero := fun c : float =>
    if is_zero c || is_nan c then 0
    else if c <? 0 then neg_infinity else infinity in
  Vector3.divide v 0
  = Vector3.raw (by_zero (Vector3.x v)) (by_zero (Vector3.y v))
                (by_zero (Vector3.z v)).
Proof.
  assert (Hmul : forall c : float,
            js_or (infinity * c) 0
            = if is_zero c || is_nan c then 0
              else if c <? 0 then neg_infinity else infinity).
  { intros c. rewrite is_zero_spec, is_nan_spec, ltb_spec.
    change (Prim2SF 0) with (S754_zero false).
    destruct (Prim2SF c) as [s|s| |s m e] eqn:Hc; simpl.
    - apply js_or_falsy. rewrite mul_spec, Hc. reflexivity.
    - assert (Hinf : infinity * c = if s then neg_infinity else infinity).
      { apply Prim2SF_inj. rewrite mul_spec, Hc. now destruct s. }
      rewrite Hinf. now destruct s.
    - apply js_or_falsy. rewrite mul_spec, Hc. reflexivity.
    - assert (Hinf : infinity * c = if s then neg_infinity else infinity).
      { apply Prim2SF_inj. rewrite mul_spec, Hc. now destruct s. }
      rewrite Hinf. now destruct s. }
  cbv zeta. unfold Vector3.divide, Vector3.times, Vector3.new. cbv zeta.
  change (num_one / 0)%num with infinity.
  change (@num_mul float float_Number) with PrimFloat.mul.
  change (@num_zero float float_Number) with 0.
  now rewrite !Hmul.
Qed.

(** ** The rejection loop of [Vector3.random] *)

Lemma Vector3_random_loop_accepts (rounds : nat) (min max : float) :
  forall tape v rest,
    Vector3_random_loop rounds min max tape = Done v rest ->
    (1 <=? Vector3.norm v) = false
    /\ constructed v
    /\ exists k, (1 <= k)%nat /\ rest = skipn (3 * k) tape
                 /\ length tape = (3 * k + length rest)%nat.
Proof.
  induction rounds as [|rounds IH]; intros tape v rest; [discriminate|].
  destruct tape as [|a [|b [|c tape']]]; try discriminate.
  cbn -[Vector3.norm Vector3.new PrimFloat.leb Nat.mul].
  unfold bind, randBetween, Math_random, ret, bind.
  cbn -[Vector3.norm Vector3.new PrimFloat.leb Nat.mul].
  destruct (1 <=? _) eqn:Hout.
  - intros Hrun. destruct (IH _ _ _ Hrun) as (Hin & Hv & k & Hk & Hrest & Hlen).
    split; [assumption|]. split; [assumption|].
    exists (S k). split; [lia|].
    replace (3 * S k)%nat with (S (S (S (3 * k)))) by lia.
    split; [exact Hrest | simpl; lia].
  - intros Hrun. injection Hrun as <- <-.
    split; [assumption|]. split; [apply constructed_new|].
    exists 1%nat. split; [lia|]. split; [reflexivity | simpl; lia].
Qed.

(** X8.  What [Vector3.random] returns has a norm that is not [>= 1] and
    components that are neither NaN nor [-0]; it has read a positive
    multiple of three random numbers, in order.  With fewer than three
    numbers left it cannot return, and it throws nothing. *)
Theorem Vector3_random_accepts (min max : float) (tape : list float) :
  (forall v rest,
     Vector3_random min max tape = Done v rest ->
     (1 <=? Vector3.norm v) = false
     /\ constructed v
     /\ exists k, (1 <= k)%nat /\ rest = skipn (3 * k) tape
                  /\ length tape = (3 * k + length rest)%nat)
  /\ ((length tape < 3)%nat -> Vector3_random min max tape = NoMoreRandom)
  /\ Vector3_random min max tape <> Throw.
Proof.
  split; [|split].
  - intros v rest. apply Vector3_random_loop_accepts.
  - intros Hshort. destruct tape as [|a [|b [|c tape']]];
      [reflexivity .. | simpl in Hshort; lia].
  - unfold Vector3_random. generalize (length tape) at 1. intros rounds.
    revert tape. induction rounds as [|rounds IH]; intros tape; [discriminate|].
    destruct tape as [|a [|b [|c tape']]]; try discriminate.
    cbn -[Vector3.norm Vector3.new PrimFloat.leb].
    unfold bind, randBetween, Math_random, ret, bind.
    cbn -[Vector3.norm Vector3.new PrimFloat.leb].
    destruct (1 <=? _); [apply IH | discriminate].
Qed.

Lemma Vector3_random_accepts_witness :
  (1 <=? Vector3.norm (Vector3.new (-0.6) 0 0)) = false.
Proof.
  apply (proj1 (Vector3_random_accepts (-1) 1 [0.9; 0.9; 0.9; 0.2; 0.5; 0.5])
           (Vector3.new (-0.6) 0 0) []).
  vm_compute. reflexivity.
Defined.


(** ** What [traceRay] never does *)

Lemma never_throws_ret {A} (a : A) : never_throws (ret a).
Proof. intros tape. discriminate. Qed.

Lemma never_throws_bind {A B} (m : M A) (f : A -> M B) :
  never_throws m -> (forall a, never_throws (f a)) -> never_throws (bind m f).
Proof.
  intros Hm Hf tape. unfold bind. specialize (Hm tape).
  destruct (m tape) as [a rest| | |]; try discriminate.
  - apply Hf.
  - congruence.
Qed.

Lemma never_throws_random (min max : float) :
  never_throws (Vector3_random min max).
Proof.
  unfold Vector3_random. intros tape. generalize (length tape). intros rounds.
  revert tape. induction rounds as [|rounds IH]; intros tape; [discriminate|].
  destruct tape as [|a [|b [|c tape']]]; try discriminate.
  cbn -[Vector3.norm Vector3.new PrimFloat.leb].
  unfold bind, randBetween, Math_random, ret, bind.
  cbn -[Vector3.norm Vector3.new PrimFloat.leb].
  destruct (1 <=? _); [apply IH | discriminate].
Qed.

Lemma reads_nothing_ret {A} (a : A) : reads_nothing (ret a).
Proof. now exists a. Qed.

Lemma reads_nothing_bind {A B} (m : M A) (f : A -> M B) :
  reads_nothing m -> (forall a, reads_nothing (f a)) -> reads_nothing (bind m f).
Proof.
  intros [a Hm] Hf. destruct (Hf a) as [b Hb]. exists b. intros tape.
  unfold bind. now rewrite Hm.
Qed.

Section Safety.

Variable scene : Scene.

Lemma never_throws_traceRay_with
  (cc : Ray.t float -> Intersection.result -> Z -> M Vec)
  (ray : Ray.t float) (depth : Z) :
  (forall i, deref scene (Intersection.object i) <> None ->
             never_throws (cc ray i depth)) ->
  never_throws (traceRay_with scene cc ray depth).
Proof.
  intros Hcc. unfold traceRay_with.
  destruct (Intersection.object (closestIntersection scene ray)) as [i|] eqn:Hi.
  - apply Hcc. eapply closestIntersection_deref; eassumption.
  - apply never_throws_ret.
Qed.

Lemma never_throws_body (f : Ray.t float -> Z -> M Vec)
  (ray : Ray.t float) (i : Intersection.result) (depth : Z) :
  deref scene (Intersection.object i) <> None ->
  (forall r, never_throws (f r (depth - 1)%Z)) ->
  never_throws (computeColor_body scene f ray i depth).
Proof.
  intros Hobj Hf. unfold computeColor_body, Material_scatter.
  destruct (Intersection.object i) as [objref|]; [|simpl in Hobj; congruence].
  destruct (deref scene (Some objref)) as [object|]; [|congruence].
  cbv zeta. destruct (depth - 1 <? 1)%Z; [apply never_throws_ret|].
  apply never_throws_bind.
  - destruct (0 <? Material.diffuse _); [|apply never_throws_ret].
    apply never_throws_bind.
    + apply never_throws_bind; [apply never_throws_random | intros rnd; apply Hf].
    + intros scattered. apply never_throws_ret.
  - intros lambertianAmount. apply never_throws_bind.
    + destruct (0 <? Material.specular _); [|apply never_throws_ret].
      apply never_throws_bind; [apply Hf | intros traced; apply never_throws_ret].
    + intros reflection. apply never_throws_ret.
Qed.

Lemma never_throws_rec (calls : nat) :
  forall depth ray i,
    deref scene (Intersection.object i) <> None ->
    never_throws (computeColor_rec scene calls ray i depth).
Proof.
  induction calls as [|calls IH]; intros depth ray i Hobj.
  - intros tape. discriminate.
  - simpl. apply never_throws_body; [assumption|]. intros r.
    apply never_throws_traceRay_with. intros i' Hobj'. now apply IH.
Qed.

(** Where no material has a diffuse weight above [0]. *)
Hypothesis no_diffuse :
  forall object, In object (objects scene) ->
    (0 <? Material.diffuse (material object)) = false.

Lemma reads_nothing_traceRay_with
  (cc : Ray.t float -> Intersection.result -> Z -> M Vec)
  (ray : Ray.t float) (depth : Z) :
  (forall i, deref scene (Intersection.object i) <> None ->
             reads_nothing (cc ray i depth)) ->
  reads_nothing (traceRay_with scene cc ray depth).
Proof.
  intros Hcc. unfold traceRay_with.
  destruct (Intersection.object (closestIntersection scene ray)) as [i|] eqn:Hi.
  - apply Hcc. eapply closestIntersection_deref; eassumption.
  - apply reads_nothing_ret.
Qed.

Lemma reads_nothing_body (f : Ray.t float -> Z -> M Vec)
  (ray : Ray.t float) (i : Intersection.result) (depth : Z) :
  deref scene (Intersection.object i) <> None ->
  ((1 <= depth - 1)%Z -> forall r, reads_nothing (f r (depth - 1)%Z)) ->
  reads_nothing (computeColor_body scene f ray i depth).
Proof.
  intros Hobj Hf. unfold computeColor_body.
  destruct (Intersection.object i) as [objref|]; [|simpl in Hobj; congruence].
  destruct (deref scene (Some objref)) as [object|] eqn:Hderef; [|congruence].
  cbv zeta. destruct (depth - 1 <? 1)%Z eqn:Hbase; [apply reads_nothing_ret|].
  apply Z.ltb_ge in Hbase. specialize (Hf Hbase).
  simpl in Hderef. apply nth_error_In in Hderef.
  rewrite (no_diffuse _ Hderef).
  apply reads_nothing_bind; [apply reads_nothing_ret|].
  intros lambertianAmount. apply reads_nothing_bind.
  - destruct (0 <? Material.specular _); [|apply reads_nothing_ret].
    apply reads_nothing_bind; [apply Hf | intros traced; apply reads_nothing_ret].
  - intros reflection. apply reads_nothing_ret.
Qed.

Lemma reads_nothing_rec (calls : nat) :
  forall depth ray i,
    (Z.to_nat (Z.max 1 depth) <= calls)%nat ->
    deref scene (Intersection.object i) <> None ->
    reads_nothing (computeColor_rec scene calls ray i depth).
Proof.
  induction calls as [|calls IH]; intros depth ray i Hcalls Hobj.
  - lia.
  - simpl. apply reads_nothing_body; [assumption|]. intros Hdeep r.
    apply reads_nothing_traceRay_with. intros i' Hobj'. apply IH; [lia | assumption].
Qed.

End Safety.

(** X9.  [traceRay] never reads a property of [null]: its closest
    intersection has an object of the scene whenever [computeColor] is
    called, at every level of the recursion; and its calls of
    [computeColor] never nest deeper than [depth]. *)
Theorem traceRay_safe (scene : Scene) (ray : Ray.t float) (depth : Z)
  (tape : list float) :
  traceRay scene ray depth tape <> Throw
  /\ traceRay scene ray depth tape <> OutOfFuel.
Proof.
  split.
  - apply never_throws_traceRay_with. intros i Hobj. now apply never_throws_rec.
  - apply never_out_of_fuel_traceRay_with. intros i.
    apply never_out_of_fuel_rec. lia.
Qed.

(** X10.  In a scene where no material has a diffuse weight above [0],
    [traceRay] reads no random number and always returns: the colour is a
    function of the ray and the depth alone. *)
Theorem traceRay_without_diffuse (scene : Scene) (ray : Ray.t float)
  (depth : Z) :
  (forall object, In object (objects scene) ->
     (0 <? Material.diffuse (material object)) = false) ->
  exists c, forall tape, traceRay scene ray depth tape = Done c tape.
Proof.
  intros Hmatt. apply reads_nothing_traceRay_with. intros i Hobj.
  apply reads_nothing_rec; [assumption | lia | assumption].
Qed.


Lemma traceRay_without_diffuse_witness :
  exists c, forall tape, traceRay mirror_scene down_ray 3 tape = Done c tape.
Proof.
  apply traceRay_without_diffuse.
  intros object [<- | [<- | []]]; reflexivity.
Defined.

Example mirror_scene_colour :
  traceRay mirror_scene down_ray 3 [] = Done (Vector3.new 55 35 27.5) [].
Proof. vm_compute. reflexivity. Qed.

(** X11.  With [depth <= 1] [traceRay] returns the background colour for a
    ray that hits nothing and [(0,0,0)] for one that hits an object, and
    reads no random number: no lighting term is evaluated. *)
Theorem traceRay_shallow (scene : Scene) (ray : Ray.t float) (depth : Z)
  (tape : list float) :
  (depth <= 1)%Z ->
  traceRay scene ray depth tape
  = Done (match Intersection.object (closestIntersection scene ray) with
          | None => background (camera scene)
          | Some _ => Vector3.new 0 0 0
          end) tape.
Proof.
  intros Hdepth. unfold traceRay, traceRay_with.
  destruct (Intersection.object (closestIntersection scene ray)) as [i|] eqn:Hi;
    [|reflexivity].
  pose proof (closestIntersection_deref scene ray Hi) as Hobj.
  rewrite computeColor_unfold. unfold computeColor_body.
  rewrite Hi in *.
  destruct (deref scene (Some i)) as [object|]; [|congruence].
  cbv zeta. destruct (depth - 1 <? 1)%Z eqn:Hbase; [reflexivity|].
  apply Z.ltb_ge in Hbase. lia.
Qed.

Lemma traceRay_shallow_witness :
  traceRay default_scene forward_ray 1 [] = Done (Vector3.new 0 0 0) [].
Proof.
  rewrite traceRay_shallow; [vm_compute; reflexivity | lia].
Defined.

(** X12.  A surface whose material has neither a diffuse nor a specular
    weight above [0] is coloured [color.times(ambient)], exactly, at every
    depth above [1], with no random number read: lights and shadows leave
    no trace on it. *)
Theorem computeColor_ambient_only (scene : Scene) (ray : Ray.t float)
  (i : Intersection.result) (object : Primitive) (depth : Z)
  (tape : list float) :
  deref scene (Intersection.object i) = Some object ->
  (0 <? Material.diffuse (material object)) = false ->
  (0 <? Material.specular (material object)) = false ->
  (1 < depth)%Z ->
  computeColor scene ray i depth tape
  = Done (Vector3.times (Material.color (material object))
                        (Material.ambient (material object))) tape.
Proof.
  intros Hobj Hdiffuse Hspecular Hdepth.
  rewrite computeColor_unfold. unfold computeColor_body.
  destruct (Intersection.object i) as [objref|]; [|discriminate].
  rewrite Hobj. cbv zeta.
  destruct (depth - 1 <? 1)%Z eqn:Hbase; [apply Z.ltb_lt in Hbase; lia|].
  rewrite Hdiffuse, Hspecular. unfold bind, ret. f_equal.
  rewrite (@times_falsy _ (0 * Material.diffuse (material object))).
  - rewrite !add_zero_l by apply constructed_new. reflexivity.
  - rewrite mul_spec. change (Prim2SF 0) with (S754_zero false).
    destruct (Prim2SF _) as [[]|[]| |[] m e]; reflexivity.
Qed.

Lemma computeColor_ambient_only_witness :
  computeColor flat_scene down_ray floor_hit 3 []
  = Done (Vector3.new 5 10 15) [].
Proof.
  apply (@computeColor_ambient_only flat_scene down_ray floor_hit
           (APlane flat_wall) 3 []);
    [reflexivity | reflexivity | reflexivity | lia].
Defined.


(** ** The pixels of [renderScene] *)

Lemma ignores_tape_traceRay (scene : Scene) (ray : Ray.t float) (depth : Z) :
  ignores_tape (traceRay scene ray depth).
Proof.
  apply ignores_tape_traceRay_with. intros i. apply ignores_tape_rec.
Qed.

(** X13.  With one sample per pixel (antialiasing off) the colour
    [renderScene] gives a pixel does not depend on the random numbers: two
    runs that differ only in what [Math.random] returns colour the pixel
    alike, whatever the materials. *)
Theorem renderScene_pixel_ignores_random (Math_tan : float -> float)
  (Math_PI : float) (scene : Scene) (rayTraceDepth : Z) (x y : float)
  (tape1 tape2 rest1 rest2 : list float) (c1 c2 : Vec) :
  antialiasing_samples_per_pixel (camera scene) = 1%Z ->
  renderScene_pixel Math_tan Math_PI scene rayTraceDepth x y tape1
  = Done c1 rest1 ->
  renderScene_pixel Math_tan Math_PI scene rayTraceDepth x y tape2
  = Done c2 rest2 ->
  c1 = c2.
Proof.
  intros Hone. unfold renderScene_pixel. rewrite Hone. cbv zeta.
  destruct (cameraBasis _ _ _) as [[eye camVecX] camVecY].
  change (Z.to_nat 1) with 1%nat. cbn [renderScene_samples].
  revert tape1 tape2 c1 c2 rest1 rest2.
  apply ignores_tape_bind; [|intros color; apply ignores_tape_ret].
  apply ignores_tape_bind; [apply ignores_tape_traceRay|].
  intros traced. apply ignores_tape_bind_dropped.
  apply ignores_tape_bind_dropped. apply ignores_tape_ret.
Qed.


Lemma renderScene_pixel_ignores_random_witness :
  exists c rest1 rest2,
    renderScene_pixel tan_series pi_double default_scene 3 160 400 tape_calm
    = Done c rest1
    /\ renderScene_pixel tan_series pi_double default_scene 3 160 400 tape_mixed
       = Done c rest2.
Proof.
  destruct (renderScene_pixel tan_series pi_double default_scene 3 160 400
              tape_calm)
    as [c1 rest1| | |] eqn:Hcalm.
  2-4: vm_compute in Hcalm; discriminate.
  destruct (renderScene_pixel tan_series pi_double default_scene 3 160 400
              tape_mixed)
    as [c2 rest2| | |] eqn:Hmixed.
  2-4: vm_compute in Hmixed; discriminate.
  exists c1, rest1, rest2. split; [reflexivity|].
  pose proof (@renderScene_pixel_ignores_random tan_series pi_double
                default_scene 3 160 400 _ _ _ _ _ _ eq_refl Hcalm Hmixed)
    as Hsame.
  rewrite Hsame. reflexivity.
Defined.


(** ** Geometry in exact arithmetic *)

(** On the doubles [reflect_over] is [Material.reflect]. *)
Lemma reflect_over_doubles (v normal : Vec) :
  reflect_over v normal = Material.reflect v normal.
Proof. reflexivity. Qed.

Module ExactGeometry.
Import Reals Lra RNsatz.
Local Open Scope R_scope.

Lemma add_exact (u v : Vector3.t R) :
  Vector3.add u v
  = Vector3.raw (Vector3.x u + Vector3.x v) (Vector3.y u + Vector3.y v)
                (Vector3.z u + Vector3.z v).
Proof. apply Exact.new_exact. Qed.

Lemma times_exact (u : Vector3.t R) (s : R) :
  Vector3.times u s
  = Vector3.raw (s * Vector3.x u) (s * Vector3.y u) (s * Vector3.z u).
Proof. apply Exact.new_exact. Qed.

Lemma subtract_exact (u v : Vector3.t R) :
  Vector3.subtract u v
  = Vector3.raw (Vector3.x u - Vector3.x v) (Vector3.y u - Vector3.y v)
                (Vector3.z u - Vector3.z v).
Proof.
  unfold Vector3.subtract. rewrite times_exact, add_exact. simpl.
  f_equal; ring.
Qed.

Lemma cross_exact (u v : Vector3.t R) :
  Vector3.cross u v
  = Vector3.raw (Vector3.y u * Vector3.z v - Vector3.z u * Vector3.y v)
                (Vector3.z u * Vector3.x v - Vector3.x u * Vector3.z v)
                (Vector3.x u * Vector3.y v - Vector3.y u * Vector3.x v).
Proof. apply Exact.new_exact. Qed.

Lemma inner_exact (u v : Vector3.t R) :
  Vector3.inner u v
  = Vector3.x u * Vector3.x v + Vector3.y u * Vector3.y v
    + Vector3.z u * Vector3.z v.
Proof. reflexivity. Qed.

Lemma inner_self_nonneg (v : Vector3.t R) : 0 <= Vector3.inner v v.
Proof. rewrite inner_exact. nra. Qed.

Lemma norm_one_inner (v : Vector3.t R) :
  Vector3.norm v = 1 -> Vector3.inner v v = 1.
Proof.
  intros Hn. rewrite <- (sqrt_def (Vector3.inner v v) (inner_self_nonneg v)).
  change (sqrt (Vector3.inner v v)) with (Vector3.norm v). rewrite Hn. ring.
Qed.

Lemma nonzero_of_inner (v : Vector3.t R) :
  Vector3.inner v v <> 0 -> v <> Vector3.raw 0 0 0.
Proof. intros Hv ->. apply Hv. rewrite inner_exact. simpl. ring. Qed.

(** A vector that is not zero is normalised by a positive factor. *)
Lemma normalize_scales (v : Vector3.t R) :
  v <> Vector3.raw 0 0 0 ->
  exists k, 0 < k /\
    Vector3.normalize v
    = Vector3.raw (k * Vector3.x v) (k * Vector3.y v) (k * Vector3.z v).
Proof.
  intros Hv. exists (1 / Vector3.norm v). split.
  - apply Rdiv_lt_0_compat; [lra | now apply Exact.norm_pos].
  - now apply Exact.normalize_nonzero.
Qed.

(** X14.  [reflect_over] on the doubles is [Material.reflect].  In exact
    arithmetic, mirroring at a unit normal turns the sign of the component
    along the normal, keeps the squared length, and is undone by mirroring
    again. *)
Theorem reflect_exact :
  (forall v normal : Vec, reflect_over v normal = Material.reflect v normal)
  /\ (forall v normal : Vector3.t R,
        Vector3.norm normal = 1 ->
        Vector3.inner (reflect_over v normal) normal = - Vector3.inner v normal
        /\ Vector3.inner (reflect_over v normal) (reflect_over v normal)
           = Vector3.inner v v
        /\ reflect_over (reflect_over v normal) normal = v).
Proof.
  split; [exact reflect_over_doubles|].
  intros v normal Hunit. apply norm_one_inner in Hunit.
  rewrite inner_exact in Hunit.
  assert (Hr : forall w : Vector3.t R,
            reflect_over w normal
            = Vector3.raw
                (Vector3.x w - 2 * Vector3.inner normal w * Vector3.x normal)
                (Vector3.y w - 2 * Vector3.inner normal w * Vector3.y normal)
                (Vector3.z w - 2 * Vector3.inner normal w * Vector3.z normal)).
  { intros w. unfold reflect_over. rewrite times_exact, subtract_exact. simpl.
    f_equal; ring. }
  destruct v as [a b c], normal as [p q r]. simpl in Hunit.
  rewrite !Hr. unfold Vector3.inner. simpl.
  split; [nsatz|]. split; [nsatz|]. f_equal; nsatz.
Qed.

Lemma reflect_exact_witness :
  reflect_over (reflect_over (Vector3.raw 1 (-1) 0) (Vector3.raw 0 1 0))
               (Vector3.raw 0 1 0)
  = Vector3.raw 1 (-1) 0.
Proof.
  apply (proj2 reflect_exact). unfold Vector3.norm. rewrite inner_exact. simpl.
  replace (0 * 0 + 1 * 1 + 0 * 0) with 1 by ring. apply sqrt_1.
Defined.

Lemma inner_cross_left (u v : Vector3.t R) :
  Vector3.inner u (Vector3.cross u v) = 0.
Proof. rewrite cross_exact. unfold Vector3.inner. simpl. ring. Qed.

Lemma inner_cross_right (u v : Vector3.t R) :
  Vector3.inner v (Vector3.cross u v) = 0.
Proof. rewrite cross_exact. unfold Vector3.inner. simpl. ring. Qed.

(** Lagrange's identity. *)
Lemma inner_cross_cross (u v : Vector3.t R) :
  Vector3.inner (Vector3.cross u v) (Vector3.cross u v)
  = Vector3.inner u u * Vector3.inner v v
    - Vector3.inner u v * Vector3.inner u v.
Proof. rewrite cross_exact. unfold Vector3.inner. simpl. ring. Qed.

Lemma inner_scaled_right (u v : Vector3.t R) (k : R) :
  Vector3.inner u
    (Vector3.raw (k * Vector3.x v) (k * Vector3.y v) (k * Vector3.z v))
  = k * Vector3.inner u v.
Proof. unfold Vector3.inner. simpl. ring. Qed.

Lemma cross_scaled_left (u v : Vector3.t R) (k : R) :
  Vector3.cross
    (Vector3.raw (k * Vector3.x u) (k * Vector3.y u) (k * Vector3.z u)) v
  = Vector3.raw (k * Vector3.x (Vector3.cross u v))
                (k * Vector3.y (Vector3.cross u v))
                (k * Vector3.z (Vector3.cross u v)).
Proof. rewrite !cross_exact. simpl. f_equal; ring. Qed.

Lemma scaled_nonzero (v : Vector3.t R) (k : R) :
  0 < k -> v <> Vector3.raw 0 0 0 ->
  Vector3.raw (k * Vector3.x v) (k * Vector3.y v) (k * Vector3.z v)
  <> Vector3.raw 0 0 0.
Proof.
  intros Hk Hv H0. apply Hv. destruct v as [a b c]. simpl in H0.
  injection H0 as Ha Hb Hc. f_equal; nra.
Qed.

(** X15.  In exact arithmetic, when the camera's [up] is not parallel to
    the line from [pos] to [direction], the axes [eye], [camVecX] and
    [camVecY] of [renderScene] are unit vectors, each at a right angle to
    the two others. *)
Theorem cameraBasis_orthonormal (pos direction up : Vector3.t R) :
  Vector3.cross (Vector3.subtract direction pos) up <> Vector3.raw 0 0 0 ->
  Vector3.norm (fst (fst (cameraBasis pos direction up))) = 1
  /\ Vector3.norm (snd (fst (cameraBasis pos direction up))) = 1
  /\ Vector3.norm (snd (cameraBasis pos direction up)) = 1
  /\ Vector3.inner (fst (fst (cameraBasis pos direction up)))
                   (snd (fst (cameraBasis pos direction up))) = 0
  /\ Vector3.inner (fst (fst (cameraBasis pos direction up)))
                   (snd (cameraBasis pos direction up)) = 0
  /\ Vector3.inner (snd (fst (cameraBasis pos direction up)))
                   (snd (cameraBasis pos direction up)) = 0.
Proof.
  intros Hup. unfold cameraBasis. cbv zeta. simpl fst. simpl snd.
  set (d := Vector3.subtract direction pos) in *.
  assert (Hd : d <> Vector3.raw 0 0 0).
  { intros H0. apply Hup. rewrite H0, cross_exact. simpl. f_equal; ring. }
  destruct (normalize_scales Hd) as (k & Hk & He).
  pose proof (Exact.normalize_unit Hd) as Heye.
  set (eye := Vector3.normalize d) in *.
  assert (Hx0 : Vector3.cross eye up <> Vector3.raw 0 0 0).
  { rewrite He, cross_scaled_left. now apply scaled_nonzero. }
  destruct (normalize_scales Hx0) as (m & Hm & Hx).
  pose proof (Exact.normalize_unit Hx0) as HcamX.
  assert (HeX : Vector3.inner eye (Vector3.normalize (Vector3.cross eye up)) = 0).
  { rewrite Hx, inner_scaled_right, inner_cross_left. ring. }
  set (camVecX := Vector3.normalize (Vector3.cross eye up)) in *.
  assert (HXe : Vector3.inner camVecX eye = 0).
  { unfold Vector3.inner in *. simpl in *. lra. }
  assert (Hy0 : Vector3.cross camVecX eye <> Vector3.raw 0 0 0).
  { apply nonzero_of_inner. rewrite inner_cross_cross, HXe.
    rewrite (@norm_one_inner camVecX HcamX), (@norm_one_inner eye Heye). lra. }
  destruct (normalize_scales Hy0) as (n & Hn & Hy).
  pose proof (Exact.normalize_unit Hy0) as HcamY.
  split; [exact Heye|]. split; [exact HcamX|]. split; [exact HcamY|].
  split; [exact HeX|]. rewrite Hy, !inner_scaled_right.
  rewrite inner_cross_right, inner_cross_left. split; ring.
Qed.

Lemma cameraBasis_orthonormal_witness :
  Vector3.inner
    (fst (fst (cameraBasis (Vector3.raw 0 0 0) (Vector3.raw 0 0 1)
                 (Vector3.raw 0 1 0))))
    (snd (cameraBasis (Vector3.raw 0 0 0) (Vector3.raw 0 0 1)
            (Vector3.raw 0 1 0))) = 0.
Proof.
  assert (Hup : Vector3.cross
                  (Vector3.subtract (Vector3.raw 0 0 1) (Vector3.raw 0 0 0))
                  (Vector3.raw 0 1 0) <> Vector3.raw 0 0 0).
  { rewrite subtract_exact, cross_exact. simpl. intros H.
    injection H as H1 _ _. lra. }
  exact (proj1 (proj2 (proj2 (proj2 (proj2
           (@cameraBasis_orthonormal (Vector3.raw 0 0 0) (Vector3.raw 0 0 1)
              (Vector3.raw 0 1 0) Hup)))))).
Defined.

End ExactGeometry.


(** ** The scene builder *)

(** X16.  [objectOfIndex()] returns the array and the place at which the
    element shown at the selected index of [objectSelector] is stored: the
    chosen element is the element of [scene.lights.concat(scene.objects)]
    at that index, and there is none exactly when that index is out of
    range.  An argument other than [0] is used in place of the selected
    index; the argument [0] is taken for no argument. *)
Theorem objectOfIndex_selected (scene : Scene) (selected : Z) :
  chosen scene (objectOfIndex scene selected None)
  = at_index (selectable scene) selected
  /\ (forall i, i <> 0%Z ->
        chosen scene (objectOfIndex scene selected (Some i))
        = at_index (selectable scene) i)
  /\ objectOfIndex scene selected (Some 0%Z)
     = objectOfIndex scene selected None.
Proof.
  assert (Hat : forall i,
            chosen scene
              (if (i >? Z.of_nat (length (lights scene)) - 1)%Z
               then TheObjects else TheLights,
               if (i >? Z.of_nat (length (lights scene)) - 1)%Z
               then (i - Z.of_nat (length (lights scene)))%Z else i)
            = at_index (selectable scene) i).
  { intros i. unfold chosen, at_index, selectable.
    destruct (i >? Z.of_nat (length (lights scene)) - 1)%Z eqn:Hi; simpl.
    - apply Z.gtb_lt in Hi.
      destruct (i - Z.of_nat (length (lights scene)) <? 0)%Z eqn:Hneg;
        [apply Z.ltb_lt in Hneg; lia|].
      destruct (i <? 0)%Z eqn:Hneg'; [apply Z.ltb_lt in Hneg'; lia|].
      rewrite nth_error_app2; rewrite length_map; [|lia].
      rewrite nth_error_map. f_equal. f_equal. lia.
    - rewrite Z.gtb_ltb in Hi. apply Z.ltb_ge in Hi.
      destruct (i <? 0)%Z eqn:Hneg; [reflexivity|]. apply Z.ltb_ge in Hneg.
      rewrite nth_error_app1; [|rewrite length_map; lia].
      now rewrite nth_error_map. }
  split; [apply Hat|]. split.
  - intros i Hi. unfold objectOfIndex. apply Z.eqb_neq in Hi. rewrite Hi.
    apply Hat.
  - reflexivity.
Qed.

Lemma splice1_in_range {A} (a : list A) (start : Z) :
  (0 <= start)%Z ->
  splice1 a start
  = firstn (Z.to_nat start) a ++ skipn (S (Z.to_nat start)) a.
Proof.
  intros Hstart. unfold splice1.
  destruct (start <? 0)%Z eqn:Hneg; [apply Z.ltb_lt in Hneg; lia|].
  destruct (Z.le_gt_cases start (Z.of_nat (length a))) as [Hin | Hout].
  - now rewrite Z.min_l.
  - rewrite Z.min_r by lia. rewrite Nat2Z.id.
    rewrite !firstn_all2, !skipn_all2 by lia. reflexivity.
Qed.

(** X17.  A click on [removeBtn] with a selected index that is not
    negative removes from the scene exactly the element the selector shows
    at that index: the new [lights.concat(objects)] is the old one with
    that element spliced out, and is the old one when the index is beyond
    its end. *)
Theorem removeBtn_click_selected (scene : Scene) (selected : Z) :
  (0 <= selected)%Z ->
  selectable (removeBtn_click scene selected)
  = splice1 (selectable scene) selected
  /\ ((Z.of_nat (length (selectable scene)) <= selected)%Z ->
      selectable (removeBtn_click scene selected) = selectable scene).
Proof.
  intros Hsel.
  assert (Hremoved : selectable (removeBtn_click scene selected)
                     = splice1 (selectable scene) selected).
  { rewrite (splice1_in_range _ Hsel).
    unfold removeBtn_click, objectOfIndex, selectable. cbv zeta.
    destruct (selected >? Z.of_nat (length (lights scene)) - 1)%Z eqn:Hi;
      cbn [fst snd lights objects].
    - apply Z.gtb_lt in Hi. rewrite splice1_in_range by lia.
      rewrite firstn_app, skipn_app, !length_map, map_app.
      rewrite (@firstn_all2 _ (Z.to_nat selected) (map inl (lights scene)))
        by (rewrite length_map; lia).
      rewrite (@skipn_all2 _ (S (Z.to_nat selected)) (map inl (lights scene)))
        by (rewrite length_map; lia).
      rewrite <- firstn_map, <- skipn_map. cbn [app]. rewrite <- app_assoc.
      f_equal. f_equal; f_equal; lia.
    - rewrite Z.gtb_ltb in Hi. apply Z.ltb_ge in Hi.
      rewrite splice1_in_range by lia.
      rewrite firstn_app, skipn_app, !length_map, map_app.
      rewrite <- firstn_map, <- skipn_map.
      replace (Z.to_nat selected - length (lights scene))%nat with 0%nat by lia.
      replace (S (Z.to_nat selected) - length (lights scene))%nat
        with 0%nat by lia.
      cbn [firstn skipn]. rewrite app_nil_r, <- app_assoc. reflexivity. }
  split; [exact Hremoved|]. intros Hout. rewrite Hremoved.
  rewrite (splice1_in_range _ Hsel).
  rewrite firstn_all2, skipn_all2 by lia. apply app_nil_r.
Qed.

Lemma removeBtn_click_selected_witness :
  selectable (removeBtn_click default_scene 1)
  = splice1 (selectable default_scene) 1.
Proof.
  apply (proj1 (@removeBtn_click_selected default_scene 1%Z ltac:(lia))).
Defined.

(** X18.  [loadObjectProperties] takes the first and the third key out of
    [Object.keys(object)], wherever ["position"] and ["material"] are and
    whether or not they are there: its loop runs over the indices [0] and
    [1] of [ignoreIndices].  For a sphere and a plane those are
    ["position"] and ["material"]; for a light ["id"] goes with
    ["position"] and only ["intensity"] is left. *)
Theorem loadObjectProperties_keys_by_place (keys : list String.string) :
  loadObjectProperties_keys keys
  = match keys with
    | k0 :: k1 :: k2 :: rest => k1 :: rest
    | [k0; k1] => [k1]
    | _ => []
    end
  /\ loadObjectProperties_keys Sphere_keys = ["radius"; "id"]
  /\ loadObjectProperties_keys Plane_keys = ["normalVec"; "id"]
  /\ loadObjectProperties_keys Light_keys = ["intensity"].
Proof.
  split; [|repeat split; reflexivity].
  unfold loadObjectProperties_keys. simpl.
  rewrite !splice1_in_range by lia.
  destruct keys as [|k0 [|k1 [|k2 rest]]]; reflexivity.
Qed.


(** ** Colours *)

Lemma returns_constructed_bind {A} (m : M A) (f : A -> M Vec) :
  (forall a, returns_constructed (f a)) -> returns_constructed (bind m f).
Proof.
  intros Hf tape c rest. unfold bind.
  destruct (m tape) as [a rest'| | |]; try discriminate. apply Hf.
Qed.

Lemma returns_constructed_ret (c : Vec) :
  constructed c -> returns_constructed (ret c).
Proof. intros Hc tape c' rest H. injection H as <- _. exact Hc. Qed.

Lemma returns_constructed_body (scene : Scene)
  (f : Ray.t float -> Z -> M Vec) (ray : Ray.t float)
  (i : Intersection.result) (depth : Z) :
  returns_constructed (computeColor_body scene f ray i depth).
Proof.
  unfold computeColor_body.
  destruct (Intersection.object i) as [objref|]; [|discriminate].
  destruct (deref scene (Some objref)) as [object|]; [|discriminate].
  cbv zeta. destruct (depth - 1 <? 1)%Z.
  - apply returns_constructed_ret, constructed_new.
  - apply returns_constructed_bind. intros lambertianAmount.
    apply returns_constructed_bind. intros reflection.
    apply returns_constructed_ret, constructed_new.
Qed.

(** X19.  No colour of the tracer has a NaN (or [-0]) component:
    [computeColor] returns only vectors the constructor has made, so does
    [traceRay] when the background colour is one, and so does every pixel
    of [renderScene], whatever the scene and the host's tangent. *)
Theorem colours_constructed (scene : Scene) (ray : Ray.t float) (depth : Z) :
  (forall i, returns_constructed (computeColor scene ray i depth))
  /\ (constructed (background (camera scene)) ->
      returns_constructed (traceRay scene ray depth))
  /\ (forall Math_tan Math_PI x y,
        returns_constructed
          (renderScene_pixel Math_tan Math_PI scene depth x y)).
Proof.
  assert (Hcc : forall i, returns_constructed (computeColor scene ray i depth)).
  { intros i tape c rest. rewrite computeColor_unfold.
    apply returns_constructed_body. }
  split; [exact Hcc|]. split.
  - intros Hbg. unfold traceRay, traceRay_with.
    destruct (Intersection.object _);
      [apply Hcc | now apply returns_constructed_ret].
  - intros Math_tan Math_PI x y. unfold renderScene_pixel. cbv zeta.
    destruct (cameraBasis _ _ _) as [[eye camVecX] camVecY].
    apply returns_constructed_bind. intros color.
    apply returns_constructed_ret, constructed_new.
Qed.

Lemma colours_constructed_witness :
  returns_constructed (traceRay default_scene forward_ray 3).
Proof.
  apply (proj1 (proj2 (colours_constructed default_scene forward_ray 3))).
  apply constructed_new.
Defined.

(** ** Where a ray meets a plane *)

Lemma Plane_checkIntersection_solution (scene : Scene) (this : Plane.t)
  (ray : Ray.t float) :
  Plane_checkIntersection scene this ray = Infinity
  \/ Plane_checkIntersection scene this ray
     = Plane_solution (Plane.position this) (Plane.normalVec this) ray.
Proof.
  unfold Plane_checkIntersection. cbv zeta.
  destruct (Math_abs _ <? _); [now left|].
  destruct (zero_tol (image scene) <? _); [now right | now left].
Qed.

Module ExactPlane.
Import Reals Lra.
Local Open Scope R_scope.

(** X20.  What [Plane.checkIntersection] returns is [Infinity] or the
    quotient [Plane_solution]; in exact arithmetic, for a ray that is not
    parallel to the plane, the point of the ray at that distance lies in
    the plane: its difference to the plane's position is at a right angle
    to the normal. *)
Theorem Plane_solution_on_plane :
  (forall (scene : Scene) (this : Plane.t) (ray : Ray.t float),
     Plane_checkIntersection scene this ray = Infinity
     \/ Plane_checkIntersection scene this ray
        = Plane_solution (Plane.position this) (Plane.normalVec this) ray)
  /\ (forall (position normal : Vector3.t R) (ray : Ray.t R),
        Vector3.inner normal (Ray.direction ray) <> 0 ->
        Vector3.inner
          (Vector3.subtract
             (Ray.at_ ray (Plane_solution position normal ray)) position)
          normal = 0).
Proof.
  split; [exact Plane_checkIntersection_solution|].
  intros position normal ray Hdenom. unfold Plane_solution, Ray.at_.
  rewrite !ExactGeometry.subtract_exact, ExactGeometry.times_exact,
    ExactGeometry.add_exact.
  unfold Vector3.inner in *. simpl in *.
  destruct ray as [[a1 a2 a3] [b1 b2 b3]], position as [p1 p2 p3],
    normal as [n1 n2 n3]. simpl in *. field. exact Hdenom.
Qed.

Lemma Plane_solution_on_plane_witness :
  Vector3.inner
    (Vector3.subtract
       (Ray.at_ (Ray.raw (Vector3.raw 0 1 0) (Vector3.raw 0 (-1) 0))
          (Plane_solution (Vector3.raw 0 0 0) (Vector3.raw 0 1 0)
             (Ray.raw (Vector3.raw 0 1 0) (Vector3.raw 0 (-1) 0))))
       (Vector3.raw 0 0 0))
    (Vector3.raw 0 1 0) = 0.
Proof.
  apply (proj2 Plane_solution_on_plane).
  unfold Vector3.inner. simpl. lra.
Defined.

End ExactPlane.

(** * Rounding on the doubles *)

(** What one rounding of the kernel's specification of binary64 does to an
    integer mantissa. *)
Module Rounding.
Import Double.
Local Open Scope Z_scope.

Lemma digits2_pos_bounds (m : positive) :
  2 ^ (Z.pos (digits2_pos m) - 1) <= Z.pos m < 2 ^ Z.pos (digits2_pos m).
Proof.
  induction m as [m IH | m IH |]; cbn [digits2_pos].
  - rewrite Pos2Z.inj_succ.
    replace (Z.succ (Z.pos (digits2_pos m)) - 1) with (Z.succ (Z.pos (digits2_pos m) - 1)) by lia.
    rewrite !Z.pow_succ_r by lia. lia.
  - rewrite Pos2Z.inj_succ.
    replace (Z.succ (Z.pos (digits2_pos m)) - 1) with (Z.succ (Z.pos (digits2_pos m) - 1)) by lia.
    rewrite !Z.pow_succ_r by lia. lia.
  - cbn. lia.
Qed.

Lemma Zdigits2_nonneg (m : Z) : 0 <= Zdigits2 m.
Proof. destruct m; cbn; lia. Qed.

Lemma Zdigits2_bounds (m : Z) :
  0 < m -> 2 ^ (Zdigits2 m - 1) <= m < 2 ^ Zdigits2 m.
Proof.
  destruct m as [| m | m]; try lia. intros _. apply digits2_pos_bounds.
Qed.

(** [Zdigits2 m] is the least [d] with [m < 2 ^ d]. *)
Lemma Zdigits2_le (m d : Z) : 0 <= m -> 0 <= d -> (Zdigits2 m <= d <-> m < 2 ^ d).
Proof.
  intros Hm Hd. destruct (Z.eq_dec m 0) as [-> | Hnz].
  - cbn. split; intros _; [apply Z.pow_pos_nonneg | ]; lia.
  - pose proof (@Zdigits2_bounds m ltac:(lia)) as [Hlo Hhi]. split; intros H.
    + apply Z.lt_le_trans with (1 := Hhi). apply Z.pow_le_mono_r; lia.
    + destruct (Z_le_gt_dec (Zdigits2 m) d) as [Hle | Hgt]; [exact Hle | exfalso].
      assert (2 ^ d <= 2 ^ (Zdigits2 m - 1)) by (apply Z.pow_le_mono_r; lia). lia.
Qed.

Lemma shr_1_m (mrs : shr_record) : 0 <= shr_m mrs -> shr_m (shr_1 mrs) = shr_m mrs / 2.
Proof.
  destruct mrs as [m r s]; cbn [shr_m]. intros Hm.
  destruct m as [| [p | p |] | p]; cbn [shr_1 shr_m]; try lia; try reflexivity.
  - apply Z.div_unique with (r := 1); lia.
  - apply Z.div_unique with (r := 0); lia.
Qed.

Lemma shr_1_nonneg (mrs : shr_record) : 0 <= shr_m mrs -> 0 <= shr_m (shr_1 mrs).
Proof. intros H. rewrite shr_1_m by exact H. apply Z.div_pos; lia. Qed.

Lemma iter_pos_shr_m (p : positive) : forall mrs : shr_record,
  0 <= shr_m mrs ->
  shr_m (SpecFloat.iter_pos shr_1 p mrs) = shr_m mrs / 2 ^ Z.pos p.
Proof.
  induction p as [p IH | p IH |]; intros mrs Hm; cbn [SpecFloat.iter_pos].
  - assert (H1 : 0 <= shr_m (shr_1 mrs)) by (apply shr_1_nonneg; exact Hm).
    assert (H2 : 0 <= shr_m (SpecFloat.iter_pos shr_1 p (shr_1 mrs))).
    { rewrite IH by exact H1. apply Z.div_pos; [exact H1 | apply Z.pow_pos_nonneg; lia]. }
    rewrite IH by exact H2. rewrite IH by exact H1. rewrite shr_1_m by exact Hm.
    rewrite !Z.div_div by (try apply Z.pow_pos_nonneg; lia).
    f_equal. replace (Z.pos p~1) with (1 + Z.pos p + Z.pos p) by lia.
    rewrite !Z.pow_add_r by lia. lia.
  - assert (H2 : 0 <= shr_m (SpecFloat.iter_pos shr_1 p mrs)).
    { rewrite IH by exact Hm. apply Z.div_pos; [exact Hm | apply Z.pow_pos_nonneg; lia]. }
    rewrite IH by exact H2. rewrite IH by exact Hm.
    rewrite !Z.div_div by (try apply Z.pow_pos_nonneg; lia).
    f_equal. replace (Z.pos p~0) with (Z.pos p + Z.pos p) by lia.
    rewrite !Z.pow_add_r by lia. lia.
  - rewrite shr_1_m by exact Hm. reflexivity.
Qed.

Lemma shr_record_of_loc_m (m : Z) (l : location) : shr_m (shr_record_of_loc m l) = m.
Proof. destruct l as [| []]; reflexivity. Qed.

Lemma loc_of_shr_record_of_loc (m : Z) (l : location) :
  loc_of_shr_record (shr_record_of_loc m l) = l.
Proof. destruct l as [| []]; reflexivity. Qed.

(** What [shr] does to the mantissa and to the exponent. *)
Lemma shr_spec (mrs : shr_record) (e n : Z) :
  0 <= shr_m mrs ->
  shr_m (fst (shr mrs e n)) = shr_m mrs / 2 ^ Z.max n 0
  /\ snd (shr mrs e n) = e + Z.max n 0
  /\ (n <= 0 -> fst (shr mrs e n) = mrs).
Proof.
  intros Hm. destruct n as [| p | p]; cbn [shr fst snd].
  - rewrite Z.div_1_r. repeat split; lia.
  - rewrite iter_pos_shr_m by exact Hm. repeat split; try lia.
  - rewrite Z.div_1_r. repeat split; lia.
Qed.

Lemma round_nearest_even_bounds (m : Z) (l : location) :
  m <= round_nearest_even m l <= m + 1.
Proof. destruct l as [| []]; cbn; try lia. destruct (Z.even m); lia. Qed.


Lemma fexp64_eq (e : Z) : fexp prec emax e = Z.max (e - 53) (-1074).
Proof. reflexivity. Qed.

Ltac fexp_lia := rewrite ?fexp64_eq in *; lia.

(** One rounding: the mantissa is cut to [mx / 2 ^ k] for the shift [k] the
    format asks for, and is then kept or increased by one; a second shift
    by one place, when the increase carries, does not change the value. *)
Lemma binary_round_aux_spec (s : bool) (mx ex : Z) (lx : location) :
  0 <= mx ->
  lx = loc_Exact \/ ex <= fexp prec emax (Zdigits2 mx + ex) ->
  exists k c m' e' : Z,
    binary_round_aux prec emax s mx ex lx = rounded s m' e'
    /\ k = Z.max 0 (fexp prec emax (Zdigits2 mx + ex) - ex)
    /\ (c = 0 \/ c = 1)
    /\ (lx = loc_Exact -> k = 0 -> c = 0)
    /\ 0 <= m'
    /\ ((e' = ex + k /\ m' = mx / 2 ^ k + c)
        \/ (e' = ex + k + 1 /\ 2 * m' = mx / 2 ^ k + c)).
Proof.
  intros Hmx Hn.
  unfold binary_round_aux, shr_fexp.
  set (n := fexp prec emax (Zdigits2 mx + ex) - ex).
  pose proof (@shr_spec (shr_record_of_loc mx lx) ex n) as H1.
  rewrite shr_record_of_loc_m in H1. specialize (H1 Hmx).
  destruct (shr (shr_record_of_loc mx lx) ex n) as [mrs1 e1].
  cbn [fst snd] in H1. destruct H1 as (Hm1 & He1 & Hsame).
  set (m2 := round_nearest_even (shr_m mrs1) (loc_of_shr_record mrs1)).
  pose proof (round_nearest_even_bounds (shr_m mrs1) (loc_of_shr_record mrs1)) as Hm2.
  fold m2 in Hm2.
  set (k := Z.max n 0) in *.
  assert (Hk : 0 <= k) by lia.
  assert (Hpk : 0 < 2 ^ k) by (apply Z.pow_pos_nonneg; lia).
  assert (Hm1' : 0 <= shr_m mrs1) by (rewrite Hm1; apply Z.div_pos; lia).
  assert (Hm2' : 0 <= m2) by lia.
  (* the digits of the cut mantissa *)
  set (d := Zdigits2 mx) in *.
  pose proof (Zdigits2_nonneg mx) as Hd. fold d in Hd.
  assert (Hd1 : Zdigits2 (shr_m mrs1) <= Z.max (d - k) 0).
  { apply Zdigits2_le; [exact Hm1' | lia |]. rewrite Hm1.
    apply Z.div_lt_upper_bound; [exact Hpk |].
    rewrite <- Z.pow_add_r by lia.
    apply (proj1 (@Zdigits2_le mx (k + Z.max (d - k) 0) Hmx ltac:(lia))). lia. }
  pose proof (Zdigits2_nonneg (shr_m mrs1)) as Hd1'.
  pose proof (Zdigits2_nonneg m2) as Hd2'.
  assert (Hd2 : Zdigits2 m2 <= Zdigits2 (shr_m mrs1) + 1).
  { apply Zdigits2_le; [exact Hm2' | lia |].
    pose proof (proj1 (@Zdigits2_le (shr_m mrs1) (Zdigits2 (shr_m mrs1)) Hm1' Hd1') ltac:(lia)) as Hlt.
    rewrite Z.pow_add_r by lia. lia. }
  pose proof (@shr_spec (shr_record_of_loc m2 loc_Exact) e1 (fexp prec emax (Zdigits2 m2 + e1) - e1)) as H2.
  rewrite shr_record_of_loc_m in H2. specialize (H2 Hm2').
  destruct (shr (shr_record_of_loc m2 loc_Exact) e1 (fexp prec emax (Zdigits2 m2 + e1) - e1)) as [mrs2 e2].
  cbn [fst snd] in H2. destruct H2 as (Hm3 & He2 & _).
  set (n2 := fexp prec emax (Zdigits2 m2 + e1) - e1) in *.
  exists k, (m2 - shr_m mrs1), (shr_m mrs2), e2.
  assert (Hm3' : 0 <= shr_m mrs2).
  { rewrite Hm3. apply Z.div_pos; [exact Hm2' | apply Z.pow_pos_nonneg; lia]. }
  split.
  { unfold rounded. destruct (shr_m mrs2); try reflexivity. }
  split; [unfold k, n; lia |].
  split; [lia |].
  split.
  { intros -> Hk0. assert (Hn0 : n <= 0) by lia.
    specialize (Hsame Hn0). subst mrs1. unfold m2.
    rewrite loc_of_shr_record_of_loc. cbn. lia. }
  split; [exact Hm3' |].
  destruct (Z_le_gt_dec ex (fexp prec emax (d + ex))) as [Hge | Hlt].
  - (* the format cuts the mantissa, or leaves it *)
    assert (Hn2 : n2 <= 1) by (unfold n2, k, n in *; fexp_lia).
    destruct (Z_le_gt_dec n2 0) as [Hn20 | Hn21].
    + left. rewrite Hm3, He2, He1. replace (Z.max n2 0) with 0 by lia.
      rewrite Z.div_1_r. lia.
    + right. assert (Hn2eq : Z.max n2 0 = 1) by lia.
      rewrite Hm3, He2, He1, Hn2eq. split; [lia |].
      set (d1 := Zdigits2 (shr_m mrs1)) in *.
      assert (Hdd : ~ Zdigits2 m2 <= d1) by (unfold n2, k, n in *; fexp_lia).
      assert (Hpow : 2 ^ d1 <= m2).
      { destruct (Z_le_gt_dec (2 ^ d1) m2) as [Hok | Hbad]; [exact Hok | exfalso].
        apply Hdd. apply Zdigits2_le; [exact Hm2' | exact Hd1' | lia]. }
      pose proof (proj1 (@Zdigits2_le (shr_m mrs1) d1 Hm1' Hd1') ltac:(lia)) as Hlt1.
      assert (Hd1pos : 1 <= d1).
      { destruct (Z_le_gt_dec 1 d1) as [Hok | Hbad]; [exact Hok | exfalso].
        assert (Hz : d1 = 0) by lia. rewrite Hz in *.
        assert (Hdm2 : Zdigits2 m2 <= 1) by lia.
        unfold n2, k, n in *. fexp_lia. }
      assert (Heq : m2 = 2 * 2 ^ (d1 - 1)).
      { rewrite <- Z.pow_succ_r by lia. replace (Z.succ (d1 - 1)) with d1 by lia. lia. }
      replace (shr_m mrs1 + (m2 - shr_m mrs1)) with m2 by lia.
      rewrite Z.pow_1_r. rewrite Heq at 1.
      replace (2 * 2 ^ (d1 - 1) / 2) with (2 ^ (d1 - 1)); [lia |].
      symmetry. rewrite Z.mul_comm. apply Z.div_mul. lia.
  - (* an exact input with fewer digits than the format holds *)
    destruct Hn as [-> | Hn]; [| lia].
    assert (Hn0 : n <= 0) by (unfold n; lia).
    specialize (Hsame Hn0). subst mrs1.
    assert (Hm2eq : m2 = mx) by (unfold m2; rewrite loc_of_shr_record_of_loc; reflexivity).
    left. rewrite Hm3, He2, He1.
    assert (Hk0 : k = 0) by (unfold k; lia).
    assert (Hn2 : n2 <= 0).
    { unfold n2. rewrite Hm2eq, He1, Hk0, Z.add_0_r. fold d. unfold n in Hn0. lia. }
    replace (Z.max n2 0) with 0 by lia. rewrite Hk0.
    cbn [shr_record_of_loc shr_m]. rewrite !Z.div_1_r. lia.
Qed.

End Rounding.

(** The arithmetic of the doubles against that of the real numbers: every
    operation is the exact one, rounded once. *)
Module DoubleError.
Import Reals Lra Rounding Double.
Local Open Scope R_scope.

Lemma pow2_pos (e : Z) : 0 < powerRZ 2 e.
Proof. apply powerRZ_lt. lra. Qed.

Lemma pow2_add (a b : Z) : powerRZ 2 (a + b) = powerRZ 2 a * powerRZ 2 b.
Proof. apply powerRZ_add. lra. Qed.

Lemma pow2_le (a b : Z) : (a <= b)%Z -> powerRZ 2 a <= powerRZ 2 b.
Proof.
  intros H. replace b with (a + (b - a))%Z by lia. rewrite pow2_add.
  assert (1 <= powerRZ 2 (b - a)).
  { destruct (b - a)%Z as [| p | p] eqn:E; try lia.
    - simpl. lra.
    - simpl. apply pow_R1_Rle. lra. }
  pose proof (pow2_pos a). nra.
Qed.

Lemma pow2_lt (a b : Z) : (a < b)%Z -> powerRZ 2 a < powerRZ 2 b.
Proof.
  intros H. apply Rlt_le_trans with (powerRZ 2 (a + 1)).
  - rewrite pow2_add. change (powerRZ 2 1) with (2 * 1). pose proof (pow2_pos a). lra.
  - apply pow2_le. lia.
Qed.

Lemma IZR_pow2 (k : Z) : (0 <= k)%Z -> IZR (2 ^ k) = powerRZ 2 k.
Proof.
  intros Hk. destruct k as [| p | p]; try lia.
  - reflexivity.
  - simpl powerRZ. rewrite <- (positive_nat_Z p) at 1. rewrite <- pow_IZR. reflexivity.
Qed.

Lemma Zdigits2_pow2_le (m : Z) : (0 < m)%Z -> powerRZ 2 (Zdigits2 m - 1) <= IZR m.
Proof.
  intros Hm. pose proof (Zdigits2_bounds Hm) as [Hlo _].
  pose proof (Zdigits2_nonneg m) as Hd.
  assert (Hd1 : (1 <= Zdigits2 m)%Z).
  { destruct m; try lia. cbn. lia. }
  rewrite <- IZR_pow2 by lia. apply IZR_le. exact Hlo.
Qed.

Lemma Zdigits2_pow2_gt (m : Z) : (0 <= m)%Z -> IZR m + 1 <= powerRZ 2 (Zdigits2 m).
Proof.
  intros Hm. pose proof (Zdigits2_nonneg m) as Hd.
  pose proof (proj1 (@Zdigits2_le m (Zdigits2 m) Hm Hd) ltac:(lia)) as Hlt.
  rewrite <- IZR_pow2 by lia. rewrite <- plus_IZR. apply IZR_le. lia.
Qed.

Lemma pow2_lt_inv (a b : Z) : powerRZ 2 a < powerRZ 2 b -> (a < b)%Z.
Proof.
  intros H. destruct (Z_lt_le_dec a b) as [Hlt | Hle]; [exact Hlt | exfalso].
  pose proof (pow2_le Hle). lra.
Qed.

(** One rounding of a non-negative real [x] that lies in the cell
    [[mx * 2 ^ ex, (mx + 1) * 2 ^ ex)]: below the overflow threshold the
    result is finite and within one unit in the last place of [x]. *)
Lemma binary_round_aux_value (s : bool) (mx ex : Z) (lx : location) (x : R) :
  (0 <= mx)%Z ->
  (ex <= fexp prec emax (Zdigits2 mx + ex))%Z ->
  IZR mx * powerRZ 2 ex <= x < (IZR mx + 1) * powerRZ 2 ex ->
  x < powerRZ 2 1023 ->
  SF_finite (binary_round_aux prec emax s mx ex lx) = true
  /\ exists V : R,
       SF2R (binary_round_aux prec emax s mx ex lx) = (if s then - V else V)
       /\ 0 <= V
       /\ Rabs (V - x) <= x * powerRZ 2 (-52) + powerRZ 2 (-1074).
Proof.
  intros Hmx Hn [Hlo Hhi] Hbig.
  destruct (@binary_round_aux_spec s mx ex lx Hmx (or_intror Hn))
    as (k & c & m' & e' & Hr & Hk & Hc & _ & Hm' & Hval).
  rewrite Hr. clear Hr.
  set (d := Zdigits2 mx) in *.
  pose proof (Zdigits2_nonneg mx) as Hd. fold d in Hd.
  assert (Hk' : (ex + k = fexp prec emax (d + ex))%Z) by lia.
  assert (Hk0 : (0 <= k)%Z) by lia.
  set (q := (mx / 2 ^ k)%Z) in *.
  assert (Hpk : (0 < 2 ^ k)%Z) by (apply Z.pow_pos_nonneg; lia).
  assert (Hq0 : (0 <= q)%Z) by (apply Z.div_pos; lia).
  assert (Hq1 : (2 ^ k * q <= mx)%Z) by (apply Z.mul_div_le; exact Hpk).
  assert (Hq2 : (mx < 2 ^ k * Z.succ q)%Z) by (apply Z.mul_succ_div_gt; exact Hpk).
  set (P := powerRZ 2 (ex + k)).
  assert (HP : P = powerRZ 2 ex * IZR (2 ^ k)) by (unfold P; rewrite pow2_add, IZR_pow2 by lia; reflexivity).
  assert (HP0 : 0 < P) by apply pow2_pos.
  pose proof (pow2_pos ex) as Hex0.
  assert (Hx0 : 0 <= x).
  { apply Rle_trans with (2 := Hlo). apply Rmult_le_pos; [apply IZR_le; lia | lra]. }
  assert (Hcell : IZR q * P <= x < (IZR q + 1) * P).
  { apply IZR_le in Hq1. rewrite mult_IZR in Hq1.
    assert (Hq2' : (mx + 1 <= 2 ^ k * (q + 1))%Z) by lia.
    apply IZR_le in Hq2'. rewrite mult_IZR, !plus_IZR in Hq2'.
    rewrite HP. split.
    - apply Rle_trans with (2 := Hlo). nra.
    - apply Rlt_le_trans with (1 := Hhi). nra. }
  (* the exponent stays in the format *)
  assert (Hde : (d + ex <= 1023)%Z).
  { destruct (Z.eq_dec mx 0) as [Hz | Hnz].
    - subst mx. cbn in d. subst d. rewrite fexp64_eq in Hn. lia.
    - assert (Hpos : (0 < mx)%Z) by lia.
      pose proof (Zdigits2_pow2_le Hpos) as Hdig. fold d in Hdig.
      assert (Hlt : powerRZ 2 (d - 1 + ex) < powerRZ 2 1023).
      { rewrite pow2_add. apply Rle_lt_trans with (2 := Hbig).
        apply Rle_trans with (2 := Hlo). nra. }
      apply pow2_lt_inv in Hlt. lia. }
  assert (He' : (e' <= 971)%Z) by (rewrite fexp64_eq in Hk'; lia).
  assert (HPle : P <= x * powerRZ 2 (-52) + powerRZ 2 (-1074)).
  { pose proof (pow2_pos (-52)) as H52. pose proof (pow2_pos (-1074)) as H1074.
    unfold P. rewrite Hk', fexp64_eq.
    destruct (Z_le_gt_dec (-1074) (d + ex - 53)) as [Hnormal | Hsub].
    - rewrite Z.max_l by lia.
      assert (Hpos : (0 < mx)%Z).
      { destruct (Z.eq_dec mx 0) as [Hz | Hnz]; [| lia].
        subst mx. cbn in d. subst d. rewrite fexp64_eq in Hn. lia. }
      pose proof (Zdigits2_pow2_le Hpos) as Hdig. fold d in Hdig.
      replace (d + ex - 53)%Z with ((d - 1) + ex + -52)%Z by lia.
      rewrite !pow2_add.
      assert (powerRZ 2 (d - 1) * powerRZ 2 ex <= x) by (apply Rle_trans with (2 := Hlo); nra).
      nra.
    - rewrite Z.max_r by lia. nra. }
  set (V := (IZR q + IZR c) * P).
  assert (HV : IZR m' * powerRZ 2 e' = V).
  { unfold V. destruct Hval as [[-> ->] | [-> H2]].
    - rewrite plus_IZR. reflexivity.
    - replace (ex + k + 1)%Z with (1 + (ex + k))%Z by lia. rewrite pow2_add.
      fold P. change (powerRZ 2 1) with (2 * 1).
      apply (f_equal IZR) in H2. rewrite mult_IZR, plus_IZR in H2. fold q in H2.
      rewrite <- H2. ring. }
  assert (HcR : IZR c = 0 \/ IZR c = 1) by (destruct Hc as [-> | ->]; [left | right]; reflexivity).
  assert (HV0 : 0 <= V).
  { unfold V. apply Rmult_le_pos; [| lra]. apply IZR_le in Hq0. destruct HcR as [-> | ->]; lra. }
  assert (Herr : Rabs (V - x) <= P).
  { apply Rabs_le. unfold V. destruct HcR as [-> | ->]; split; nra. }
  unfold rounded. destruct m' as [| p | p]; try lia.
  - split; [reflexivity |]. exists V. cbn [SF2R]. rewrite <- HV.
    repeat split; try (destruct s; simpl; lra).
    rewrite HV. lra.
  - apply Z.leb_le in He'. rewrite He'. split; [reflexivity |].
    exists V. cbn [SF2R]. rewrite <- HV.
    repeat split; try (destruct s; ring).
    + rewrite HV. exact HV0.
    + rewrite HV. lra.
Qed.

Lemma Zdigits2_ge (m d : Z) : (0 <= d)%Z -> (2 ^ d <= m)%Z -> (d + 1 <= Zdigits2 m)%Z.
Proof.
  intros Hd Hm.
  assert (Hm0 : (0 <= m)%Z) by (pose proof (Z.pow_pos_nonneg 2 d ltac:(lia) Hd); lia).
  destruct (Z_le_gt_dec (d + 1) (Zdigits2 m)) as [Hok | Hbad]; [exact Hok | exfalso].
  pose proof (proj1 (@Zdigits2_le m d Hm0 Hd) ltac:(lia)). lia.
Qed.

Lemma Zdigits2_pos (m : positive) : (1 <= Zdigits2 (Z.pos m))%Z.
Proof. cbn. lia. Qed.

Lemma near_refl (x : R) : near x x.
Proof.
  unfold near. repeat split; try lra.
  replace (x - x) with 0 by ring. rewrite Rabs_R0.
  pose proof (Rabs_pos x). pose proof (pow2_pos (-52)). pose proof (pow2_pos (-1074)). nra.
Qed.

Lemma near_signed (s : bool) (x V : R) :
  0 < x -> 0 <= V ->
  Rabs (V - x) <= x * powerRZ 2 (-52) + powerRZ 2 (-1074) ->
  near (if s then - x else x) (if s then - V else V).
Proof.
  intros Hx HV Herr. unfold near. destruct s.
  - repeat split; try lra.
    replace (- V - - x) with (- (V - x)) by ring.
    rewrite !Rabs_Ropp. rewrite (Rabs_pos_eq x) by lra. exact Herr.
  - repeat split; try lra. rewrite (Rabs_pos_eq x) by lra. exact Herr.
Qed.

Lemma valid_finite (s : bool) (m : positive) (e : Z) :
  valid_binary (S754_finite s m e) = true ->
  fexp prec emax (Z.pos (digits2_pos m) + e) = e /\ (e <= 971)%Z.
Proof.
  cbn [SpecFloat.valid_binary]. unfold bounded, canonical_mantissa.
  intros H. apply andb_true_iff in H. destruct H as [H1 H2].
  apply Z.eqb_eq in H1. apply Z.leb_le in H2. split; [exact H1 | exact H2].
Qed.

Lemma SF2R_finite (s : bool) (m : positive) (e : Z) :
  SF2R (S754_finite s m e)
  = (if s then - (IZR (Z.pos m) * powerRZ 2 e) else IZR (Z.pos m) * powerRZ 2 e).
Proof. destruct s; cbn [SF2R]; ring. Qed.

Lemma signed_mul (sx sy : bool) (a b : R) :
  (if sx then - a else a) * (if sy then - b else b)
  = (if xorb sx sy then - (a * b) else a * b).
Proof. destruct sx, sy; cbn; ring. Qed.

Lemma IZR_pos_pos (m : positive) : 0 < IZR (Z.pos m).
Proof. apply IZR_lt. lia. Qed.

(** A product is rounded once. *)
Lemma SFmul_value (A B : spec_float) :
  valid_binary A = true -> valid_binary B = true ->
  SF_finite A = true -> SF_finite B = true ->
  Rabs (SF2R A * SF2R B) < powerRZ 2 1023 ->
  SF_finite (SF64mul A B) = true /\ near (SF2R A * SF2R B) (SF2R (SF64mul A B)).
Proof.
  intros HvA HvB HfA HfB Hbig.
  destruct A as [sx | sx | | sx mx ex]; try discriminate;
    destruct B as [sy | sy | | sy my ey]; try discriminate.
  - cbn. rewrite Rmult_0_l. split; [reflexivity | apply near_refl].
  - cbn [SF64mul SFmul SF2R]. rewrite Rmult_0_l. split; [reflexivity | apply near_refl].
  - cbn [SF64mul SFmul SF2R]. rewrite Rmult_0_r. split; [reflexivity | apply near_refl].
  - unfold SF64mul, SFmul. rewrite !SF2R_finite, signed_mul in *.
    apply valid_finite in HvA, HvB. destruct HvA as [HcA HeA], HvB as [HcB HeB].
    set (x := IZR (Z.pos mx) * powerRZ 2 ex * (IZR (Z.pos my) * powerRZ 2 ey)) in *.
    pose proof (IZR_pos_pos mx) as Hmx. pose proof (IZR_pos_pos my) as Hmy.
    pose proof (pow2_pos ex) as Hex. pose proof (pow2_pos ey) as Hey.
    assert (Hx0 : 0 < x) by (unfold x; repeat apply Rmult_lt_0_compat; assumption).
    assert (Hx : x = IZR (Z.pos (mx * my)) * powerRZ 2 (ex + ey)).
    { unfold x. rewrite Pos2Z.inj_mul, mult_IZR, pow2_add. ring. }
    assert (Hbig' : x < powerRZ 2 1023).
    { destruct (xorb sx sy); [rewrite Rabs_Ropp in Hbig |];
        rewrite Rabs_pos_eq in Hbig by lra; exact Hbig. }
    destruct (@binary_round_aux_value (xorb sx sy) (Z.pos (mx * my)) (ex + ey) loc_Exact x)
      as (Hfin & V & HV & HV0 & Herr).
    + lia.
    + (* the product has enough digits *)
      pose proof (digits2_pos_bounds mx) as [Hdx _].
      pose proof (digits2_pos_bounds my) as [Hdy _].
      assert (Hdd : (Z.pos (digits2_pos mx) - 1 + (Z.pos (digits2_pos my) - 1) + 1
                     <= Zdigits2 (Z.pos (mx * my)))%Z).
      { apply Zdigits2_ge; [lia |]. rewrite Z.pow_add_r by lia. rewrite Pos2Z.inj_mul.
        apply Z.mul_le_mono_nonneg; try lia; apply Z.pow_nonneg; lia. }
      rewrite fexp64_eq in *. lia.
    + rewrite <- Hx. split; [lra |].
      pose proof (pow2_pos (ex + ey)). rewrite Hx. nra.
    + exact Hbig'.
    + split; [exact Hfin |]. rewrite HV. apply near_signed; [lra | exact HV0 | exact Herr].
Qed.

Lemma Pos_iter_xO (m d : positive) :
  Z.pos (Pos.iter xO m d) = (Z.pos m * 2 ^ Z.pos d)%Z.
Proof.
  induction d as [| d IH] using Pos.peano_ind.
  - cbn [Pos.iter]. rewrite Z.pow_1_r. lia.
  - rewrite Pos.iter_succ, Pos2Z.inj_xO, IH, Pos2Z.inj_succ, Z.pow_succ_r by lia. lia.
Qed.

Lemma shl_align_spec (mx : positive) (ex ez : Z) :
  snd (shl_align mx ex ez) = Z.min ex ez
  /\ Z.pos (fst (shl_align mx ex ez)) = (Z.pos mx * 2 ^ (ex - Z.min ex ez))%Z.
Proof.
  unfold shl_align. destruct (ez - ex)%Z as [| d | d] eqn:E; cbn [fst snd].
  - replace (Z.min ex ez) with ex by lia. rewrite Z.sub_diag. split; lia.
  - replace (Z.min ex ez) with ex by lia. rewrite Z.sub_diag. split; lia.
  - replace (Z.min ex ez) with ez by lia. split; [reflexivity |].
    rewrite Pos_iter_xO. f_equal. f_equal. lia.
Qed.

Lemma Zdigits2_mul_pow2 (m j : Z) :
  (0 < m)%Z -> (0 <= j)%Z -> Zdigits2 (m * 2 ^ j) = (Zdigits2 m + j)%Z.
Proof.
  intros Hm Hj. pose proof (Zdigits2_bounds Hm) as [Hlo Hhi].
  assert (Hd : (1 <= Zdigits2 m)%Z) by (destruct m; try lia; apply Zdigits2_pos).
  assert (Hpj : (0 < 2 ^ j)%Z) by (apply Z.pow_pos_nonneg; lia).
  apply Z.le_antisymm.
  - apply Zdigits2_le; [nia | lia |]. rewrite Z.pow_add_r by lia. nia.
  - replace (Zdigits2 m + j)%Z with (Zdigits2 m - 1 + j + 1)%Z by lia.
    apply Zdigits2_ge; [lia |]. rewrite Z.pow_add_r by lia. nia.
Qed.

(** [binary_round] rounds [m * 2 ^ e] once. *)
Lemma binary_round_value (s : bool) (m : positive) (e : Z) :
  IZR (Z.pos m) * powerRZ 2 e < powerRZ 2 1023 ->
  SF_finite (binary_round prec emax s m e) = true
  /\ near (if s then - (IZR (Z.pos m) * powerRZ 2 e) else IZR (Z.pos m) * powerRZ 2 e)
          (SF2R (binary_round prec emax s m e)).
Proof.
  intros Hbig. unfold binary_round.
  pose proof (shl_align_spec m e (fexp prec emax (Z.pos (digits2_pos m) + e))) as [He Hm].
  destruct (shl_align m e (fexp prec emax (Z.pos (digits2_pos m) + e))) as [mz ez].
  cbn [fst snd] in He, Hm.
  set (x := IZR (Z.pos m) * powerRZ 2 e) in *.
  assert (Hx0 : 0 < x).
  { unfold x. apply Rmult_lt_0_compat; [apply IZR_pos_pos | apply pow2_pos]. }
  assert (Hx : x = IZR (Z.pos mz) * powerRZ 2 ez).
  { unfold x. rewrite Hm, mult_IZR, IZR_pow2 by lia.
    rewrite Rmult_assoc, <- pow2_add. do 2 f_equal. lia. }
  destruct (@binary_round_aux_value s (Z.pos mz) ez loc_Exact x)
    as (Hfin & V & HV & HV0 & Herr).
  - lia.
  - rewrite Hm, Zdigits2_mul_pow2 by lia.
    change (Zdigits2 (Z.pos m)) with (Z.pos (digits2_pos m)).
    replace (Z.pos (digits2_pos m) + (e - Z.min e (fexp prec emax (Z.pos (digits2_pos m) + e))) + ez)%Z
      with (Z.pos (digits2_pos m) + e)%Z by lia.
    lia.
  - rewrite <- Hx. split; [lra |]. rewrite Hx. pose proof (pow2_pos ez). nra.
  - exact Hbig.
  - split; [exact Hfin |]. rewrite HV. apply near_signed; [exact Hx0 | exact HV0 | exact Herr].
Qed.

Lemma cond_Zopp_IZR (s : bool) (m : Z) :
  IZR (cond_Zopp s m) = (if s then - IZR m else IZR m).
Proof. destruct s; cbn; [apply opp_IZR | reflexivity]. Qed.

(** A sum is rounded once. *)
Lemma SFadd_value (A B : spec_float) :
  SF_finite A = true -> SF_finite B = true ->
  Rabs (SF2R A + SF2R B) < powerRZ 2 1023 ->
  SF_finite (SF64add A B) = true /\ near (SF2R A + SF2R B) (SF2R (SF64add A B)).
Proof.
  intros HfA HfB Hbig.
  destruct A as [sx | sx | | sx mx ex]; try discriminate;
    destruct B as [sy | sy | | sy my ey]; try discriminate.
  - cbn [SF2R]. rewrite Rplus_0_l.
    destruct sx, sy; cbn; (split; [reflexivity | apply near_refl]).
  - cbn [SF64add SFadd]. change (SF2R (S754_zero sx)) with 0. rewrite Rplus_0_l.
    split; [reflexivity | apply near_refl].
  - cbn [SF64add SFadd]. change (SF2R (S754_zero sy)) with 0. rewrite Rplus_0_r.
    split; [reflexivity | apply near_refl].
  - unfold SF64add, SFadd.
    set (ez := Z.min ex ey).
    pose proof (shl_align_spec mx ex ez) as [_ H1].
    pose proof (shl_align_spec my ey ez) as [_ H2].
    replace (Z.min ex ez) with ez in H1 by lia.
    replace (Z.min ey ez) with ez in H2 by lia.
    set (M1 := Z.pos (fst (shl_align mx ex ez))) in *.
    set (M2 := Z.pos (fst (shl_align my ey ez))) in *.
    assert (Hx : SF2R (S754_finite sx mx ex) + SF2R (S754_finite sy my ey)
                 = IZR (cond_Zopp sx M1 + cond_Zopp sy M2) * powerRZ 2 ez).
    { rewrite plus_IZR, !cond_Zopp_IZR, H1, H2, !mult_IZR, !IZR_pow2 by lia.
      cbn [SF2R].
      replace (powerRZ 2 ex) with (powerRZ 2 (ex - ez) * powerRZ 2 ez)
        by (rewrite <- pow2_add; f_equal; lia).
      replace (powerRZ 2 ey) with (powerRZ 2 (ey - ez) * powerRZ 2 ez)
        by (rewrite <- pow2_add; f_equal; lia).
      destruct sx, sy; ring. }
    rewrite Hx in *.
    destruct (cond_Zopp sx M1 + cond_Zopp sy M2)%Z as [| m | m]; cbn [binary_normalize].
    + rewrite Rmult_0_l. split; [reflexivity | apply near_refl].
    + assert (Hpos : 0 < IZR (Z.pos m) * powerRZ 2 ez).
      { apply Rmult_lt_0_compat; [apply IZR_pos_pos | apply pow2_pos]. }
      rewrite Rabs_pos_eq in Hbig by lra.
      exact (@binary_round_value false m ez Hbig).
    + assert (Hpos : 0 < IZR (Z.pos m) * powerRZ 2 ez).
      { apply Rmult_lt_0_compat; [apply IZR_pos_pos | apply pow2_pos]. }
      change (Z.neg m) with (- Z.pos m)%Z in *. rewrite opp_IZR in *.
      replace (- IZR (Z.pos m) * powerRZ 2 ez) with (- (IZR (Z.pos m) * powerRZ 2 ez)) in * by ring.
      rewrite Rabs_Ropp, Rabs_pos_eq in Hbig by lra.
      exact (@binary_round_value true m ez Hbig).
Qed.

Lemma fexp64_mono (a b : Z) : (a <= b)%Z -> (fexp prec emax a <= fexp prec emax b)%Z.
Proof. intros H. rewrite !fexp64_eq. lia. Qed.

(** The integer quotient that [SFdiv] rounds: it has the digits the format
    asks for, and the real quotient lies in its cell. *)
Lemma SFdiv_core_binary_spec (m1 m2 : positive) (e1 e2 : Z) :
  let '(q, e', l) := SFdiv_core_binary prec emax (Z.pos m1) e1 (Z.pos m2) e2 in
  (0 <= q)%Z
  /\ (e' <= fexp prec emax (Zdigits2 q + e'))%Z
  /\ IZR q * powerRZ 2 e'
       <= IZR (Z.pos m1) * powerRZ 2 e1 / (IZR (Z.pos m2) * powerRZ 2 e2)
       < (IZR q + 1) * powerRZ 2 e'.
Proof.
  unfold SFdiv_core_binary.
  set (d1 := Zdigits2 (Z.pos m1)). set (d2 := Zdigits2 (Z.pos m2)).
  set (e' := Z.min (fexp prec emax (d1 + e1 - (d2 + e2))) (e1 - e2)).
  set (s := (e1 - e2 - e')%Z).
  assert (Hs : (0 <= s)%Z) by (unfold s, e'; lia).
  set (m' := match s with Z.pos _ => Z.shiftl (Z.pos m1) s | Z0 => Z.pos m1 | Z.neg _ => Z0 end).
  assert (Hm' : m' = (Z.pos m1 * 2 ^ s)%Z).
  { unfold m'. destruct s as [| p | p] eqn:E; try lia.
    rewrite Z.shiftl_mul_pow2 by lia. reflexivity. }
  clearbody m'.
  pose proof (Z_div_mod m' (Z.pos m2) ltac:(lia)) as Hdiv.
  destruct (Z.div_eucl m' (Z.pos m2)) as [q r]. destruct Hdiv as [Hqr Hr].
  assert (Hps : (0 < 2 ^ s)%Z) by (apply Z.pow_pos_nonneg; lia).
  assert (Hq : (0 <= q)%Z) by nia.
  pose proof (Zdigits2_bounds (m := Z.pos m1) ltac:(lia)) as [Hlo1 _].
  pose proof (Zdigits2_bounds (m := Z.pos m2) ltac:(lia)) as [_ Hhi2].
  fold d1 in Hlo1. fold d2 in Hhi2.
  pose proof (Zdigits2_pos m1) as Hd1. pose proof (Zdigits2_pos m2) as Hd2.
  fold d1 in Hd1. fold d2 in Hd2.
  split; [exact Hq |]. split.
  - assert (Hdq : (d1 - d2 + s <= Zdigits2 q)%Z).
    { pose proof (Zdigits2_nonneg q).
      destruct (Z_le_gt_dec (d1 - d2 + s) 0) as [Hle | Hgt]; [lia |].
      replace (d1 - d2 + s)%Z with (d1 - d2 + s - 1 + 1)%Z by lia.
      apply Zdigits2_ge; [lia |].
      set (t := (d1 - d2 + s - 1)%Z).
      assert (Hpow : (2 ^ (d1 - 1) * 2 ^ s = 2 ^ d2 * 2 ^ t)%Z).
      { rewrite <- !Z.pow_add_r by lia. f_equal. unfold t. lia. }
      assert (Hpt : (0 < 2 ^ t)%Z) by (apply Z.pow_pos_nonneg; unfold t; lia).
      assert (Hpd : (0 < 2 ^ d2)%Z) by (apply Z.pow_pos_nonneg; lia).
      assert (H1 : (2 ^ d2 * 2 ^ t < 2 ^ d2 * (q + 1))%Z) by nia.
      apply Z.mul_lt_mono_pos_l in H1; lia. }
    apply Z.le_trans with (fexp prec emax (d1 + e1 - (d2 + e2))); [unfold e'; lia |].
    apply fexp64_mono. unfold s in Hdq. lia.
  - assert (Hx : IZR (Z.pos m1) * powerRZ 2 e1 / (IZR (Z.pos m2) * powerRZ 2 e2)
                 = IZR m' / IZR (Z.pos m2) * powerRZ 2 e').
    { rewrite Hm', mult_IZR, IZR_pow2 by lia.
      replace e1 with (s + e' + e2)%Z at 1 by (unfold s; lia).
      rewrite !pow2_add.
      pose proof (IZR_pos_pos m2). pose proof (pow2_pos e2). field. lra. }
    rewrite Hx. pose proof (pow2_pos e') as He'. pose proof (IZR_pos_pos m2) as Hm2.
    assert (Hcell : IZR q <= IZR m' / IZR (Z.pos m2) < IZR q + 1).
    { rewrite Hqr, plus_IZR, mult_IZR.
      assert (0 <= IZR r < IZR (Z.pos m2)) by (split; [apply IZR_le | apply IZR_lt]; lia).
      split.
      - apply Rmult_le_reg_r with (IZR (Z.pos m2)); [exact Hm2 |].
        unfold Rdiv. rewrite Rmult_assoc, Rinv_l by lra. lra.
      - apply Rmult_lt_reg_r with (IZR (Z.pos m2)); [exact Hm2 |].
        unfold Rdiv. rewrite Rmult_assoc, Rinv_l by lra. lra. }
    nra.
Qed.

(** A quotient is rounded once. *)
Lemma SFdiv_value (A B : spec_float) :
  SF_finite A = true -> SF_finite B = true -> SF2R B <> 0 ->
  Rabs (SF2R A / SF2R B) < powerRZ 2 1023 ->
  SF_finite (SF64div A B) = true /\ near (SF2R A / SF2R B) (SF2R (SF64div A B)).
Proof.
  intros HfA HfB HB Hbig.
  destruct A as [sx | sx | | sx mx ex]; try discriminate;
    destruct B as [sy | sy | | sy my ey]; try discriminate;
    try (exfalso; apply HB; reflexivity).
  - cbn [SF64div SFdiv]. change (SF2R (S754_zero sx)) with 0.
    unfold Rdiv. rewrite Rmult_0_l. split; [reflexivity | apply near_refl].
  - unfold SF64div, SFdiv.
    pose proof (SFdiv_core_binary_spec mx my ex ey) as Hcore.
    destruct (SFdiv_core_binary prec emax (Z.pos mx) ex (Z.pos my) ey) as [[q e'] l].
    destruct Hcore as (Hq & Hn & Hcell).
    set (x := IZR (Z.pos mx) * powerRZ 2 ex / (IZR (Z.pos my) * powerRZ 2 ey)) in *.
    pose proof (IZR_pos_pos mx) as Hmx. pose proof (IZR_pos_pos my) as Hmy.
    pose proof (pow2_pos ex) as Hex. pose proof (pow2_pos ey) as Hey.
    assert (Hx0 : 0 < x).
    { unfold x. apply Rdiv_lt_0_compat; apply Rmult_lt_0_compat; assumption. }
    assert (Hx : SF2R (S754_finite sx mx ex) / SF2R (S754_finite sy my ey)
                 = (if xorb sx sy then - x else x)).
    { unfold x. cbn [SF2R]. destruct sx, sy; cbn [xorb]; field; nra. }
    rewrite Hx in *.
    assert (Hbig' : x < powerRZ 2 1023).
    { destruct (xorb sx sy); [rewrite Rabs_Ropp in Hbig |];
        rewrite Rabs_pos_eq in Hbig by lra; exact Hbig. }
    destruct (@binary_round_aux_value (xorb sx sy) q e' l x Hq Hn Hcell Hbig')
      as (Hfin & V & HV & HV0 & Herr).
    split; [exact Hfin |]. rewrite HV. apply near_signed; [exact Hx0 | exact HV0 | exact Herr].
Qed.

(** The integer square root that [SFsqrt] rounds. *)
Lemma SFsqrt_core_binary_spec (m : positive) (e : Z) :
  let '(q, e', l) := SFsqrt_core_binary prec emax (Z.pos m) e in
  (0 <= q)%Z
  /\ (e' <= fexp prec emax (Zdigits2 q + e'))%Z
  /\ IZR q * powerRZ 2 e' <= sqrt (IZR (Z.pos m) * powerRZ 2 e) < (IZR q + 1) * powerRZ 2 e'.
Proof.
  unfold SFsqrt_core_binary.
  set (d := Zdigits2 (Z.pos m)).
  set (h := Z.div2 (d + e + 1)).
  set (e' := Z.min (fexp prec emax h) (Z.div2 e)).
  set (s := (e - 2 * e')%Z).
  assert (He2 : (2 * Z.div2 e <= e)%Z).
  { pose proof (Z.div2_odd e). destruct (Z.odd e); cbn in *; lia. }
  assert (Hh : (2 * h <= d + e + 1)%Z).
  { unfold h. pose proof (Z.div2_odd (d + e + 1)). destruct (Z.odd (d + e + 1)); cbn in *; lia. }
  assert (Hs : (0 <= s)%Z) by (unfold s, e'; lia).
  set (m' := match s with Z.pos _ => Z.shiftl (Z.pos m) s | Z0 => Z.pos m | Z.neg _ => Z0 end).
  assert (Hm' : m' = (Z.pos m * 2 ^ s)%Z).
  { unfold m'. destruct s as [| p | p] eqn:E; try lia.
    rewrite Z.shiftl_mul_pow2 by lia. reflexivity. }
  clearbody m'.
  assert (Hps : (0 < 2 ^ s)%Z) by (apply Z.pow_pos_nonneg; lia).
  pose proof (Z.sqrtrem_spec m' ltac:(nia)) as Hsq.
  destruct (Z.sqrtrem m') as [q r]. destruct Hsq as [Hqr Hr].
  assert (Hq : (0 <= q)%Z) by lia.
  pose proof (Zdigits2_bounds (m := Z.pos m) ltac:(lia)) as [Hlo _]. fold d in Hlo.
  pose proof (Zdigits2_pos m) as Hd. fold d in Hd.
  split; [exact Hq |]. split.
  - assert (Hdq : (h - e' <= Zdigits2 q)%Z).
    { pose proof (Zdigits2_nonneg q).
      destruct (Z_le_gt_dec (h - e') 0) as [Hle | Hgt]; [lia |].
      replace (h - e')%Z with (h - e' - 1 + 1)%Z by lia.
      apply Zdigits2_ge; [lia |].
      set (t := (h - e' - 1)%Z).
      assert (Hpt : (0 < 2 ^ t)%Z) by (apply Z.pow_pos_nonneg; unfold t; lia).
      assert (Hpow : (2 ^ t * 2 ^ t <= 2 ^ (d - 1) * 2 ^ s)%Z).
      { rewrite <- !Z.pow_add_r by (unfold t; lia).
        apply Z.pow_le_mono_r; [lia |]. unfold t, s. lia. }
      assert (H1 : (2 ^ t * 2 ^ t < (q + 1) * (q + 1))%Z) by nia.
      nia. }
    apply Z.le_trans with (fexp prec emax h); [unfold e'; lia |].
    apply fexp64_mono. lia.
  - assert (Hx : sqrt (IZR (Z.pos m) * powerRZ 2 e) = sqrt (IZR m') * powerRZ 2 e').
    { rewrite Hm', mult_IZR, IZR_pow2 by lia.
      replace e with (s + (e' + e'))%Z at 1 by (unfold s; lia).
      rewrite !pow2_add. pose proof (pow2_pos e') as He'. pose proof (pow2_pos s).
      pose proof (IZR_pos_pos m).
      rewrite <- Rmult_assoc. rewrite sqrt_mult by nra.
      rewrite sqrt_square by lra. reflexivity. }
    rewrite Hx. pose proof (pow2_pos e') as He'.
    assert (Hcell : IZR q <= sqrt (IZR m') < IZR q + 1).
    { assert (Hq' : 0 <= IZR q) by (apply IZR_le; exact Hq).
      assert (Hm0 : IZR (q * q) <= IZR m') by (apply IZR_le; lia).
      assert (Hm1 : IZR m' < IZR ((q + 1) * (q + 1))) by (apply IZR_lt; nia).
      rewrite mult_IZR in Hm0. rewrite mult_IZR, plus_IZR in Hm1.
      split.
      - rewrite <- (sqrt_square (IZR q)) at 1 by exact Hq'. apply sqrt_le_1; nra.
      - rewrite <- (sqrt_square (IZR q + 1)) by lra. apply sqrt_lt_1; nra. }
    nra.
Qed.

(** A square root is rounded once. *)
Lemma SFsqrt_value (A : spec_float) :
  valid_binary A = true -> SF_finite A = true -> 0 <= SF2R A ->
  SF_finite (SF64sqrt A) = true /\ near (sqrt (SF2R A)) (SF2R (SF64sqrt A)).
Proof.
  intros HvA HfA Hpos.
  destruct A as [sx | sx | | sx mx ex]; try discriminate.
  - cbn [SF64sqrt SFsqrt SF2R]. rewrite sqrt_0. split; [reflexivity | apply near_refl].
  - pose proof (IZR_pos_pos mx) as Hmx. pose proof (pow2_pos ex) as Hex.
    destruct sx.
    { exfalso. cbn [SF2R] in Hpos. nra. }
    unfold SF64sqrt, SFsqrt.
    pose proof (SFsqrt_core_binary_spec mx ex) as Hcore.
    destruct (SFsqrt_core_binary prec emax (Z.pos mx) ex) as [[q e'] l].
    destruct Hcore as (Hq & Hn & Hcell).
    cbn [SF2R].
    set (x := sqrt (IZR (Z.pos mx) * powerRZ 2 ex)) in *.
    assert (Hx0 : 0 < x) by (apply sqrt_lt_R0; nra).
    assert (Hbig : x < powerRZ 2 1023).
    { apply valid_finite in HvA. destruct HvA as [Hc He].
      pose proof (Zdigits2_pow2_gt (m := Z.pos mx) ltac:(lia)) as Hhi.
      change (Zdigits2 (Z.pos mx)) with (Z.pos (digits2_pos mx)) in Hhi.
      assert (Hd : (Z.pos (digits2_pos mx) <= 53)%Z) by (rewrite fexp64_eq in Hc; lia).
      pose proof (pow2_le Hd) as H53. pose proof (pow2_le He) as H971.
      pose proof (pow2_add 53 971) as Hsum. pose proof (pow2_add 512 512) as Hsq.
      change (53 + 971)%Z with 1024%Z in Hsum. change (512 + 512)%Z with 1024%Z in Hsq.
      pose proof (pow2_pos 512) as H512.
      apply Rlt_le_trans with (powerRZ 2 512); [| apply pow2_le; lia].
      unfold x. rewrite <- (sqrt_square (powerRZ 2 512)) by lra.
      pose proof (pow2_pos 53). pose proof (pow2_pos 971).
      apply sqrt_lt_1; nra. }
    destruct (@binary_round_aux_value false q e' l x Hq Hn Hcell Hbig)
      as (Hfin & V & HV & HV0 & Herr).
    split; [exact Hfin |]. rewrite HV.
    exact (@near_signed false x V Hx0 HV0 Herr).
Qed.

Lemma is_finite_spec (a : float) : is_finite a = SF_finite (Prim2SF a).
Proof.
  unfold is_finite, is_infinity. rewrite is_nan_spec, FloatAxioms.eqb_spec, abs_spec.
  change (Prim2SF infinity) with (S754_infinity false).
  destruct (Prim2SF a) as [[] | [] | | [] m e]; reflexivity.
Qed.

Lemma mul_value (a b : float) :
  is_finite a = true -> is_finite b = true ->
  Rabs (value a * value b) < powerRZ 2 1023 ->
  is_finite (a * b) = true /\ near (value a * value b) (value (a * b)).
Proof.
  rewrite !is_finite_spec. unfold value. rewrite mul_spec.
  intros Ha Hb. apply SFmul_value; try assumption; apply Prim2SF_valid.
Qed.

Lemma add_value (a b : float) :
  is_finite a = true -> is_finite b = true ->
  Rabs (value a + value b) < powerRZ 2 1023 ->
  is_finite (a + b) = true /\ near (value a + value b) (value (a + b)).
Proof.
  rewrite !is_finite_spec. unfold value. rewrite add_spec.
  intros Ha Hb. apply SFadd_value; assumption.
Qed.

Lemma div_value (a b : float) :
  is_finite a = true -> is_finite b = true -> value b <> 0 ->
  Rabs (value a / value b) < powerRZ 2 1023 ->
  is_finite (a / b) = true /\ near (value a / value b) (value (a / b)).
Proof.
  rewrite !is_finite_spec. unfold value. rewrite div_spec.
  intros Ha Hb. apply SFdiv_value; assumption.
Qed.

Lemma sqrt_value (a : float) :
  is_finite a = true -> 0 <= value a ->
  is_finite (PrimFloat.sqrt a) = true /\ near (sqrt (value a)) (value (PrimFloat.sqrt a)).
Proof.
  rewrite !is_finite_spec. unfold value. rewrite sqrt_spec.
  intros Ha. apply SFsqrt_value; try assumption; apply Prim2SF_valid.
Qed.

Lemma value_zero : value 0%float = 0.
Proof. reflexivity. Qed.

Lemma value_one : value 1%float = 1.
Proof.
  unfold value. change (Prim2SF 1%float) with (S754_finite false 4503599627370496 (-52)).
  cbn [SF2R]. change 4503599627370496%Z with (2 ^ 52)%Z.
  rewrite IZR_pow2 by lia. rewrite <- pow2_add. reflexivity.
Qed.

(** [a || 0] keeps the value of a finite double. *)
Lemma js_or_value (a : float) :
  is_finite a = true ->
  is_finite (js_or a 0%float) = true /\ value (js_or a 0%float) = value a.
Proof.
  intros Ha. unfold js_or. cbn [num_truthy float_Number].
  destruct (is_zero a) eqn:Hz; cbn [orb negb].
  - split; [reflexivity |]. rewrite is_zero_spec in Hz. unfold value.
    destruct (Prim2SF a); try discriminate. reflexivity.
  - destruct (is_nan a) eqn:Hn; cbn [negb]; [| split; [exact Ha | reflexivity]].
    split; [reflexivity |]. rewrite is_zero_spec in Hz. unfold value.
    rewrite is_finite_spec in Ha. rewrite is_nan_spec in *.
    destruct (Prim2SF a); try discriminate.
Qed.

(** The order of two positive doubles is the order of their values. *)
Lemma SFleb_pos_value (m1 m2 : positive) (e1 e2 : Z) :
  valid_binary (S754_finite false m1 e1) = true ->
  valid_binary (S754_finite false m2 e2) = true ->
  SFleb (S754_finite false m1 e1) (S754_finite false m2 e2) = true ->
  IZR (Z.pos m1) * powerRZ 2 e1 <= IZR (Z.pos m2) * powerRZ 2 e2.
Proof.
  intros Hv1 Hv2. apply valid_finite in Hv1, Hv2.
  destruct Hv1 as [Hc1 _], Hv2 as [Hc2 _]. rewrite fexp64_eq in Hc1, Hc2.
  unfold SFleb, SFcompare.
  pose proof (IZR_pos_pos m1) as Hm1. pose proof (IZR_pos_pos m2) as Hm2.
  pose proof (pow2_pos e1) as He1. pose proof (pow2_pos e2) as He2.
  destruct (Z.compare_spec e1 e2) as [Heq | Hlt | Hgt]; try discriminate.
  - subst e2. change (PosDef.Pos.compare_cont Eq m1 m2) with (Pos.compare m1 m2).
    destruct (Pos.compare_spec m1 m2) as [Hm | Hm | Hm]; try discriminate; intros _.
    + subst m2. lra.
    + assert (IZR (Z.pos m1) <= IZR (Z.pos m2)) by (apply IZR_le; lia). nra.
  - intros _.
    pose proof (Zdigits2_pow2_gt (m := Z.pos m1) ltac:(lia)) as Hhi.
    pose proof (Zdigits2_pow2_le (m := Z.pos m2) ltac:(lia)) as Hlo.
    change (Zdigits2 (Z.pos m1)) with (Z.pos (digits2_pos m1)) in Hhi.
    change (Zdigits2 (Z.pos m2)) with (Z.pos (digits2_pos m2)) in Hlo.
    assert (Hd1 : (Z.pos (digits2_pos m1) <= 53)%Z) by lia.
    assert (Hd2 : (Z.pos (digits2_pos m2) = 53)%Z) by lia.
    rewrite Hd2 in Hlo. change (53 - 1)%Z with 52%Z in Hlo.
    pose proof (pow2_le Hd1) as H53.
    pose proof (pow2_le (a := e1 + 1) (b := e2) ltac:(lia)) as Hee.
    rewrite pow2_add in Hee. change (powerRZ 2 1) with (2 * 1) in Hee.
    pose proof (pow2_add 52 1) as H5253. change (52 + 1)%Z with 53%Z in H5253.
    change (powerRZ 2 1) with (2 * 1) in H5253.
    pose proof (pow2_pos 52). nra.
Qed.

Lemma Rabs_SF2R_finite (s : bool) (m : positive) (e : Z) :
  Rabs (SF2R (S754_finite s m e)) = IZR (Z.pos m) * powerRZ 2 e.
Proof.
  pose proof (IZR_pos_pos m). pose proof (pow2_pos e).
  rewrite SF2R_finite. destruct s; [rewrite Rabs_Ropp |]; apply Rabs_pos_eq; nra.
Qed.

(** A double of magnitude at most [2 ^ 510] is finite, with that bound on
    its value. *)
Lemma abs_leb_value (a : float) :
  (abs a <=? 0x1p510)%float = true ->
  is_finite a = true /\ Rabs (value a) <= powerRZ 2 510.
Proof.
  rewrite leb_spec, abs_spec, is_finite_spec. unfold value.
  change (Prim2SF 0x1p510%float) with (S754_finite false 4503599627370496 458).
  pose proof (Prim2SF_valid a) as Hv.
  destruct (Prim2SF a) as [s | s | | s m e]; cbn [SFabs]; try discriminate.
  - intros _. split; [reflexivity |]. cbn [SF2R]. rewrite Rabs_R0.
    pose proof (pow2_pos 510). lra.
  - intros H. split; [reflexivity |]. rewrite Rabs_SF2R_finite.
    apply SFleb_pos_value in H; [| exact Hv | reflexivity].
    change 4503599627370496%Z with (2 ^ 52)%Z in H.
    rewrite IZR_pow2, <- pow2_add in H by lia. exact H.
Qed.

(** A finite double of magnitude at least [2 ^ -510] has such a value. *)
Lemma leb_abs_value (a : float) :
  is_finite a = true ->
  (0x1p-510 <=? abs a)%float = true ->
  powerRZ 2 (-510) <= Rabs (value a).
Proof.
  rewrite leb_spec, abs_spec, is_finite_spec. unfold value.
  change (Prim2SF 0x1p-510%float) with (S754_finite false 4503599627370496 (-562)).
  pose proof (Prim2SF_valid a) as Hv.
  destruct (Prim2SF a) as [s | s | | s m e]; cbn [SFabs]; try discriminate.
  intros _ H. rewrite Rabs_SF2R_finite.
  apply SFleb_pos_value in H; [| reflexivity | exact Hv].
  change 4503599627370496%Z with (2 ^ 52)%Z in H.
  rewrite IZR_pow2, <- pow2_add in H by lia. exact H.
Qed.

(** A finite double of non-zero value is different from [0]. *)
Lemma eqb_zero_value (a : float) :
  is_finite a = true -> value a <> 0 -> (a =? 0)%float = false.
Proof.
  rewrite FloatAxioms.eqb_spec, is_finite_spec. unfold value.
  change (Prim2SF 0%float) with (S754_zero false).
  destruct (Prim2SF a) as [s | s | | [] m e]; try discriminate; try reflexivity.
  intros _ H. exfalso. apply H. reflexivity.
Qed.

End DoubleError.

(** * Normalisation on the doubles, within a tolerance *)

Module Tolerance.
Import Reals Lra Rounding Double DoubleError.
Local Open Scope R_scope.

Lemma pow2_neg (k : Z) : powerRZ 2 (- k) = / powerRZ 2 k.
Proof.
  pose proof (pow2_pos k) as Hk. pose proof (pow2_add (- k) k) as H.
  replace (- k + k)%Z with 0%Z in H by lia. change (powerRZ 2 0) with 1 in H.
  apply Rmult_eq_reg_r with (powerRZ 2 k); [| lra]. rewrite <- H. field. lra.
Qed.

Lemma pow2_m52 : powerRZ 2 (-52) = / 4503599627370496.
Proof.
  change (-52)%Z with (- (52))%Z. rewrite (pow2_neg 52). f_equal.
  rewrite <- IZR_pow2 by lia. reflexivity.
Qed.

Lemma pow2_m45 : powerRZ 2 (-45) = 128 * / 4503599627370496.
Proof.
  change (-45)%Z with (7 + -52)%Z. rewrite pow2_add, pow2_m52.
  rewrite <- (IZR_pow2 (k := 7)) by lia. reflexivity.
Qed.

(** The smallest positive double against [2 ^ -1020]. *)
Lemma pow2_m1074 :
  powerRZ 2 (-1074) = / 4503599627370496 * / 4 * powerRZ 2 (-1020).
Proof.
  change (-1074)%Z with (-52 + (-2 + -1020))%Z. rewrite !pow2_add, pow2_m52.
  change (-2)%Z with (- (2))%Z. rewrite (pow2_neg 2). rewrite <- (IZR_pow2 (k := 2)) by lia.
  change (2 ^ 2)%Z with 4%Z. ring.
Qed.

Lemma pow2_1023 : powerRZ 2 1023 = 8 * powerRZ 2 1020.
Proof.
  change 1023%Z with (3 + 1020)%Z. rewrite pow2_add.
  rewrite <- (IZR_pow2 (k := 3)) by lia. reflexivity.
Qed.

Lemma pow2_510_sq : powerRZ 2 510 * powerRZ 2 510 = powerRZ 2 1020.
Proof. rewrite <- pow2_add. reflexivity. Qed.

Lemma pow2_m510_sq : powerRZ 2 (-510) * powerRZ 2 (-510) = powerRZ 2 (-1020).
Proof. rewrite <- pow2_add. reflexivity. Qed.

Lemma pow2_510_inv : powerRZ 2 510 * powerRZ 2 (-510) = 1.
Proof. rewrite <- pow2_add. reflexivity. Qed.

Lemma Rabs_le_inv (a b : R) : Rabs a <= b -> - b <= a <= b.
Proof.
  intros H. pose proof (Rle_abs a). pose proof (Rle_abs (- a)) as H'.
  rewrite Rabs_Ropp in H'. lra.
Qed.

(** What [near] says of a non-negative real. *)
Lemma near_pos (x V : R) :
  near x V -> 0 <= x ->
  0 <= V
  /\ - (x * / 4503599627370496 + powerRZ 2 (-1074)) <= V - x
       <= x * / 4503599627370496 + powerRZ 2 (-1074).
Proof.
  intros (Hpos & _ & Herr) Hx. split; [apply Hpos; exact Hx |].
  rewrite (Rabs_pos_eq x), pow2_m52 in Herr by exact Hx.
  apply Rabs_le_inv in Herr. exact Herr.
Qed.

(** What [near] says of a real of magnitude at most [b]. *)
Lemma near_bound (x V b : R) :
  near x V -> Rabs x <= b ->
  - (b * / 4503599627370496 + powerRZ 2 (-1074)) <= V - x
    <= b * / 4503599627370496 + powerRZ 2 (-1074).
Proof.
  intros (_ & _ & Herr) Hx. rewrite pow2_m52 in Herr.
  apply Rabs_le_inv in Herr. lra.
Qed.

Lemma square_le (a b : R) : Rabs a <= b -> 0 <= a * a <= b * b.
Proof.
  intros H. apply Rabs_le_inv in H. split; nra.
Qed.

Lemma square_value (a : float) :
  component_ok a ->
  is_finite (a * a) = true
  /\ 0 <= value (a * a)
  /\ value a * value a <= powerRZ 2 1020
  /\ - (value a * value a * / 4503599627370496 + powerRZ 2 (-1074))
       <= value (a * a) - value a * value a
       <= value a * value a * / 4503599627370496 + powerRZ 2 (-1074).
Proof.
  intros [Hf Hb]. pose proof (@square_le (value a) (powerRZ 2 510) Hb) as [Hsq0 Hsq]. rewrite pow2_510_sq in Hsq.
  pose proof (pow2_pos 1020) as H1020.
  destruct (@mul_value a a Hf Hf) as [Hfin Hnear].
  { rewrite Rabs_pos_eq by exact Hsq0. rewrite pow2_1023. lra. }
  destruct (near_pos Hnear Hsq0) as [H0 Herr].
  repeat split; try assumption; lra.
Qed.

(** [inner v v] on doubles against the exact sum of squares. *)
Lemma inner_self_value (v : Vec) :
  components_ok v ->
  is_finite (Vector3.inner v v) = true
  /\ 0 <= value (Vector3.inner v v)
  /\ sumsq v * (1 - 4 * / 4503599627370496) - 6 * powerRZ 2 (-1074)
       <= value (Vector3.inner v v)
       <= sumsq v * (1 + 4 * / 4503599627370496) + 6 * powerRZ 2 (-1074).
Proof.
  intros (Hx & Hy & Hz). unfold sumsq.
  destruct v as [a b c]. cbn [Vector3.x Vector3.y Vector3.z] in *.
  cbn [Vector3.inner Vector3.x Vector3.y Vector3.z num_add num_mul float_Number].
  destruct (square_value Hx) as (Hfa & Ha0 & Hab & Hae).
  destruct (square_value Hy) as (Hfb & Hb0 & Hbb & Hbe).
  destruct (square_value Hz) as (Hfc & Hc0 & Hcb & Hce).
  set (A := value a * value a) in *. set (B := value b * value b) in *.
  set (C := value c * value c) in *.
  assert (HA0 : 0 <= A) by (unfold A; nra).
  assert (HB0 : 0 <= B) by (unfold B; nra).
  assert (HC0 : 0 <= C) by (unfold C; nra).
  pose proof (pow2_pos 1020) as H1020. pose proof (pow2_pos (-1074)) as Heta0.
  pose proof (pow2_pos (-1020)) as Hm1020.
  assert (Heta1 : powerRZ 2 (-1074) <= powerRZ 2 1020) by (apply pow2_le; lia).
  destruct (@add_value (a * a) (b * b) Hfa Hfb) as [Hf1 Hn1].
  { rewrite Rabs_pos_eq by lra. rewrite pow2_1023. lra. }
  destruct (near_pos Hn1 ltac:(lra)) as [Hs0 Hs1].
  destruct (@add_value (a * a + b * b) (c * c) Hf1 Hfc) as [Hf2 Hn2].
  { rewrite Rabs_pos_eq by lra. rewrite pow2_1023. lra. }
  destruct (near_pos Hn2 ltac:(lra)) as [Ht0 Ht1].
  split; [exact Hf2 |]. split; [exact Ht0 |]. split; lra.
Qed.

Lemma sumsq_nonneg (v : Vec) : 0 <= sumsq v.
Proof. unfold sumsq. nra. Qed.

Lemma sumsq_le (v : Vec) : components_ok v -> sumsq v <= 3 * powerRZ 2 1020.
Proof.
  intros ([_ Hx] & [_ Hy] & [_ Hz]). unfold sumsq.
  apply square_le in Hx, Hy, Hz. rewrite pow2_510_sq in *. lra.
Qed.

Lemma sq_le_inv (a b : R) : 0 <= a -> 0 <= b -> a * a <= b * b -> a <= b.
Proof. intros Ha Hb H. nra. Qed.

Lemma sq_le_abs (a b : R) : 0 <= b -> a * a <= b * b -> Rabs a <= b.
Proof.
  intros Hb H. apply sq_le_inv; [apply Rabs_pos | exact Hb |].
  replace (Rabs a * Rabs a) with (a * a); [exact H |].
  unfold Rabs. destruct (Rcase_abs a); ring.
Qed.

(** [norm v] on doubles against the exact norm. *)
Lemma norm_value (v : Vec) :
  components_ok v -> powerRZ 2 (-1020) <= sumsq v ->
  is_finite (Vector3.norm v) = true
  /\ sqrt (sumsq v) * (1 - 8 * / 4503599627370496)
       <= value (Vector3.norm v)
       <= sqrt (sumsq v) * (1 + 8 * / 4503599627370496).
Proof.
  intros Hok Hlow.
  destruct (inner_self_value Hok) as (Hfin & Hi0 & Hi).
  cbn [Vector3.norm num_sqrt float_Number].
  destruct (@sqrt_value (Vector3.inner v v) Hfin Hi0) as [Hfs Hnear].
  pose proof (sqrt_pos (value (Vector3.inner v v))) as Hr0.
  destruct (near_pos Hnear Hr0) as [Hn0 Hn].
  pose proof (sumsq_nonneg v) as HS0.
  pose proof (sqrt_sqrt (sumsq v) HS0) as HNN.
  pose proof (sqrt_sqrt (value (Vector3.inner v v)) Hi0) as HRR.
  pose proof (sqrt_pos (sumsq v)) as HN0.
  set (S := sumsq v) in *. set (N := sqrt S) in *.
  set (Sh := value (Vector3.inner v v)) in *. set (Rh := sqrt Sh) in *.
  pose proof (pow2_pos (-1020)) as HL2. pose proof (pow2_pos (-510)) as HL.
  pose proof pow2_m510_sq as HLL.
  assert (HL1 : powerRZ 2 (-510) <= 1) by (apply (pow2_le (a := -510) (b := 0)); lia).
  assert (HLN : powerRZ 2 (-510) <= N) by (apply sq_le_inv; nra).
  rewrite pow2_m1074 in *.
  set (L2 := powerRZ 2 (-1020)) in *. set (L := powerRZ 2 (-510)) in *.
  assert (HL2N : L2 <= N) by nra.
  assert (Hlo : N * (1 - 6 * / 4503599627370496) <= Rh).
  { apply sq_le_inv; [nra | exact Hr0 |]. rewrite HRR.
    apply Rle_trans with (S * (1 - 6 * / 4503599627370496)); [| lra].
    rewrite <- HNN. nra. }
  assert (Hhi : Rh <= N * (1 + 6 * / 4503599627370496)).
  { apply sq_le_inv; [exact Hr0 | nra |]. rewrite HRR.
    apply Rle_trans with (S * (1 + 6 * / 4503599627370496)); [lra |].
    rewrite <- HNN. nra. }
  split; [exact Hfs |]. split; lra.
Qed.

(** [normalize v] on doubles: every component is the exact one scaled by
    some [s] near [1 / norm], rounded once. *)
Lemma normalize_value (v : Vec) :
  components_ok v -> powerRZ 2 (-1020) <= sumsq v ->
  exists s : R,
    1 - 10 * / 4503599627370496 <= s * sqrt (sumsq v) <= 1 + 10 * / 4503599627370496
    /\ scaled s (Vector3.x v) (Vector3.x (Vector3.normalize v))
    /\ scaled s (Vector3.y v) (Vector3.y (Vector3.normalize v))
    /\ scaled s (Vector3.z v) (Vector3.z (Vector3.normalize v)).
Proof.
  intros Hok Hlow.
  destruct (norm_value Hok Hlow) as (Hfn & Hn).
  pose proof (sumsq_le Hok) as Hup.
  pose proof (sumsq_nonneg v) as HS0.
  pose proof (sqrt_sqrt (sumsq v) HS0) as HNN.
  pose proof (sqrt_pos (sumsq v)) as HN0.
  set (S := sumsq v) in *. set (N := sqrt S) in *.
  set (nh := value (Vector3.norm v)) in *.
  pose proof (pow2_pos (-1020)) as HL2. pose proof (pow2_pos (-510)) as HL.
  pose proof (pow2_pos 510) as HH. pose proof (pow2_pos 1020) as HH2.
  pose proof pow2_m510_sq as HLL. pose proof pow2_510_sq as HHH.
  pose proof pow2_510_inv as HHL.
  assert (HLN : powerRZ 2 (-510) <= N) by (apply sq_le_inv; nra).
  assert (HNH : N <= 2 * powerRZ 2 510) by (apply sq_le_inv; nra).
  assert (Hnh0 : 0 < nh) by nra.
  (* the guard *)
  assert (Hguard : (Vector3.norm v =? 0)%float = false).
  { apply eqb_zero_value; [exact Hfn | fold nh; lra]. }
  unfold Vector3.normalize. cbn [num_neq float_Number num_zero].
  change PrimFloat.zero with 0%float. rewrite Hguard. cbn [negb].
  unfold Vector3.divide, Vector3.times, Vector3.new.
  cbn [Vector3.x Vector3.y Vector3.z num_div num_mul num_one num_zero float_Number].
  (* the scalar *)
  destruct (@div_value 1%float (Vector3.norm v) eq_refl Hfn) as [Hfs Hnear].
  { fold nh. lra. }
  { fold nh. rewrite value_one.
    assert (Hinv : 0 < 1 / nh) by (apply Rdiv_lt_0_compat; lra).
    rewrite Rabs_pos_eq by lra. rewrite pow2_1023.
    apply Rmult_lt_reg_r with nh; [exact Hnh0 |].
    unfold Rdiv. rewrite Rmult_assoc, Rinv_l by lra.
    assert (H1 : 1 <= powerRZ 2 510) by (apply (pow2_le (a := 0) (b := 510)); lia).
    assert (H2 : powerRZ 2 1020 * powerRZ 2 (-510) = powerRZ 2 510).
    { rewrite <- HHH, Rmult_assoc, HHL. ring. }
    assert (H3 : powerRZ 2 (-510) * / 2 <= nh) by lra.
    apply Rlt_le_trans with (8 * powerRZ 2 1020 * (powerRZ 2 (-510) * / 2)).
    - replace (8 * powerRZ 2 1020 * (powerRZ 2 (-510) * / 2))
        with (4 * (powerRZ 2 1020 * powerRZ 2 (-510))) by field.
      rewrite H2. lra.
    - apply Rmult_le_compat_l; lra. }
  rewrite value_one in Hnear. fold nh in Hnear.
  set (sf := (1 / Vector3.norm v)%float) in *.
  set (s := value sf) in *.
  assert (Hinv : 0 < 1 / nh) by (apply Rdiv_lt_0_compat; lra).
  destruct (near_pos Hnear ltac:(lra)) as [Hs0 Hs].
  set (I := 1 / nh) in *.
  assert (HIn : I * nh = 1) by (unfold I; field; lra).
  set (r := I * N).
  assert (Hr : r * (1 - 8 * / 4503599627370496) <= 1 <= r * (1 + 8 * / 4503599627370496)).
  { unfold r. split.
    - apply Rle_trans with (I * nh); [| lra].
      rewrite Rmult_assoc. apply Rmult_le_compat_l; lra.
    - apply Rle_trans with (I * nh); [lra |].
      rewrite Rmult_assoc. apply Rmult_le_compat_l; lra. }
  rewrite pow2_m1074 in Hs.
  set (L2 := powerRZ 2 (-1020)) in *. set (L := powerRZ 2 (-510)) in *.
  set (H := powerRZ 2 510) in *.
  assert (HetaN : L2 * N <= 2 * L).
  { apply Rle_trans with (L2 * (2 * H)); [apply Rmult_le_compat_l; lra |].
    rewrite <- HLL. replace (L * L * (2 * H)) with (2 * L * (H * L)) by ring.
    rewrite HHL. lra. }
  assert (HL1 : L <= 1) by (apply (pow2_le (a := -510) (b := 0)); lia).
  assert (HsN : 1 - 10 * / 4503599627370496 <= s * N <= 1 + 10 * / 4503599627370496).
  { assert (H1 : (I - (I * / 4503599627370496 + / 4503599627370496 * / 4 * L2)) * N
                 <= s * N) by (apply Rmult_le_compat_r; lra).
    assert (H2 : s * N
                 <= (I + (I * / 4503599627370496 + / 4503599627370496 * / 4 * L2)) * N)
      by (apply Rmult_le_compat_r; lra).
    fold r in H1, H2.
    replace ((I - (I * / 4503599627370496 + / 4503599627370496 * / 4 * L2)) * N)
      with (r * (1 - / 4503599627370496) - / 4503599627370496 * / 4 * (L2 * N))
      in H1 by (unfold r; ring).
    replace ((I + (I * / 4503599627370496 + / 4503599627370496 * / 4 * L2)) * N)
      with (r * (1 + / 4503599627370496) + / 4503599627370496 * / 4 * (L2 * N))
      in H2 by (unfold r; ring).
    split; lra. }
  assert (HsH : s <= 2 * H).
  { apply Rmult_le_reg_r with L; [exact HL |].
    apply Rle_trans with (s * N); [apply Rmult_le_compat_l; lra |].
    replace (2 * H * L) with (2 * (H * L)) by ring. rewrite HHL. lra. }
  assert (Hcomp : forall a : float, component_ok a -> scaled s a (js_or (sf * a)%float 0%float)).
  { intros a [Hfa Hba]. fold H in Hba.
    destruct (@mul_value sf a Hfs Hfa) as [Hfm Hnm].
    { fold s. rewrite Rabs_mult, (Rabs_pos_eq s) by exact Hs0. rewrite pow2_1023.
      pose proof (Rabs_pos (value a)).
      apply Rle_lt_trans with (2 * H * H); [apply Rmult_le_compat; lra |].
      nra. }
    destruct (@js_or_value (sf * a)%float Hfm) as [Hfj Hvj].
    split; [exact Hfj |]. rewrite Hvj. exact Hnm. }
  exists s. destruct Hok as (Hx & Hy & Hz).
  split; [exact HsN |]. repeat split; try apply Hcomp; assumption.
Qed.

(** The square of a perturbed real. *)
Lemma sq_perturb (T U eta : R) :
  Rabs (U - T) <= Rabs T * / 4503599627370496 + eta ->
  Rabs T <= 2 -> 0 <= eta <= / 1000 ->
  - (3 * / 4503599627370496 * (T * T) + 5 * eta) <= U * U - T * T
    <= 3 * / 4503599627370496 * (T * T) + 5 * eta.
Proof.
  intros Herr HT Heta.
  set (t := Rabs T) in *. pose proof (Rabs_pos T) as Ht0. fold t in Ht0.
  assert (Htt : t * t = T * T).
  { unfold t. unfold Rabs. destruct (Rcase_abs T); ring. }
  assert (HTt : - t <= T <= t) by (apply Rabs_le_inv; unfold t; lra).
  apply Rabs_le_inv in Herr.
  set (a := U - T) in *. set (e := t * / 4503599627370496 + eta) in *.
  assert (He0 : 0 <= e) by (unfold e; lra).
  replace (U * U - T * T) with (2 * T * a + a * a) by (unfold a; ring).
  assert (H1 : - (2 * t * e) <= 2 * T * a <= 2 * t * e) by (split; nra).
  assert (H2 : 0 <= a * a <= e * e) by (split; nra).
  assert (H3 : 2 * t * e + e * e <= 3 * / 4503599627370496 * (t * t) + 5 * eta).
  { unfold e. nra. }
  rewrite <- Htt. lra.
Qed.

Lemma near_abs (x V : R) :
  near x V -> Rabs (V - x) <= Rabs x * / 4503599627370496 + powerRZ 2 (-1074).
Proof. intros (_ & _ & H). rewrite pow2_m52 in H. exact H. Qed.

Lemma eta_small : 0 < powerRZ 2 (-1074) <= / 4503599627370496 * / 4194304.
Proof.
  split; [apply pow2_pos |].
  apply Rle_trans with (powerRZ 2 (-74)); [apply pow2_le; lia |].
  change (-74)%Z with (-52 + -22)%Z. rewrite pow2_add, pow2_m52.
  change (-22)%Z with (- (22))%Z. rewrite (pow2_neg 22).
  rewrite <- (IZR_pow2 (k := 22)) by lia. change (2 ^ 22)%Z with 4194304%Z. lra.
Qed.

(** A vector whose components are those of [v] scaled by about [1 / norm]
    has components of magnitude at most [2] and a sum of squares near [1]. *)
Lemma scaled_sumsq (v n : Vec) (s : R) :
  1 - 10 * / 4503599627370496 <= s * sqrt (sumsq v) <= 1 + 10 * / 4503599627370496 ->
  scaled s (Vector3.x v) (Vector3.x n) ->
  scaled s (Vector3.y v) (Vector3.y n) ->
  scaled s (Vector3.z v) (Vector3.z n) ->
  components_ok n
  /\ (Rabs (value (Vector3.x n)) <= 2 /\ Rabs (value (Vector3.y n)) <= 2
      /\ Rabs (value (Vector3.z n)) <= 2)
  /\ 1 - 24 * / 4503599627370496 <= sumsq n <= 1 + 24 * / 4503599627370496.
Proof.
  intros Hrho [Hfx Hx] [Hfy Hy] [Hfz Hz].
  pose proof (sumsq_nonneg v) as HS0.
  pose proof (sqrt_sqrt (sumsq v) HS0) as HNN.
  pose proof (sqrt_pos (sumsq v)) as HN0.
  unfold sumsq in *.
  set (X := value (Vector3.x v)) in *. set (Y := value (Vector3.y v)) in *.
  set (Z := value (Vector3.z v)) in *.
  set (N := sqrt (X * X + Y * Y + Z * Z)) in *.
  set (rho := s * N) in *.
  assert (Hsum : s * X * (s * X) + s * Y * (s * Y) + s * Z * (s * Z) = rho * rho).
  { unfold rho. replace (s * N * (s * N)) with (s * s * (N * N)) by ring. rewrite HNN. ring. }
  assert (Hrho2 : (1 - 10 * / 4503599627370496) * (1 - 10 * / 4503599627370496) <= rho * rho
                  <= (1 + 10 * / 4503599627370496) * (1 + 10 * / 4503599627370496)).
  { split; nra. }
  assert (Hcomp : forall T : R, T * T <= rho * rho -> Rabs T <= 2).
  { intros T HT. apply Rle_trans with rho; [apply sq_le_abs; lra | lra]. }
  pose proof eta_small as [Heta0 Heta1].
  apply near_abs in Hx, Hy, Hz.
  set (eta := powerRZ 2 (-1074)) in *.
  assert (HTx : Rabs (s * X) <= 2) by (apply Hcomp; nra).
  assert (HTy : Rabs (s * Y) <= 2) by (apply Hcomp; nra).
  assert (HTz : Rabs (s * Z) <= 2) by (apply Hcomp; nra).
  pose proof (@sq_perturb (s * X) (value (Vector3.x n)) eta Hx HTx ltac:(lra)) as Hpx.
  pose proof (@sq_perturb (s * Y) (value (Vector3.y n)) eta Hy HTy ltac:(lra)) as Hpy.
  pose proof (@sq_perturb (s * Z) (value (Vector3.z n)) eta Hz HTz ltac:(lra)) as Hpz.
  assert (Hbound : forall T U : R,
            Rabs (U - T) <= Rabs T * / 4503599627370496 + eta -> T * T <= rho * rho ->
            Rabs U <= 2).
  { intros T U HU HT.
    assert (HT1 : Rabs T <= 1 + 10 * / 4503599627370496).
    { apply Rle_trans with rho; [apply sq_le_abs; lra | lra]. }
    apply Rabs_le_inv in HU.
    pose proof (@Rabs_le_inv T _ HT1). apply Rabs_le. split; lra. }
  assert (Hux : Rabs (value (Vector3.x n)) <= 2) by (apply (Hbound (s * X)); [exact Hx | nra]).
  assert (Huy : Rabs (value (Vector3.y n)) <= 2) by (apply (Hbound (s * Y)); [exact Hy | nra]).
  assert (Huz : Rabs (value (Vector3.z n)) <= 2) by (apply (Hbound (s * Z)); [exact Hz | nra]).
  assert (H2 : 2 <= powerRZ 2 510).
  { apply Rle_trans with (powerRZ 2 1); [simpl; lra | apply pow2_le; lia]. }
  split.
  { unfold components_ok, component_ok. repeat split; try assumption; lra. }
  split; [repeat split; assumption |].
  split; lra.
Qed.

Lemma abs_square_ge (a l : R) : 0 <= l -> l <= Rabs a -> l * l <= a * a.
Proof.
  intros Hl H. unfold Rabs in H. destruct (Rcase_abs a); nra.
Qed.

Lemma normalizable_ok (v : Vec) :
  normalizable v = true -> components_ok v /\ powerRZ 2 (-1020) <= sumsq v.
Proof.
  unfold normalizable, in_range, sizeable. intros H.
  apply andb_true_iff in H. destruct H as [H Hs].
  apply andb_true_iff in H. destruct H as [H Hz].
  apply andb_true_iff in H. destruct H as [Hx Hy].
  apply abs_leb_value in Hx, Hy, Hz.
  split; [repeat split; tauto |].
  unfold sumsq. rewrite <- pow2_m510_sq.
  pose proof (pow2_pos (-510)) as HL.
  set (X := value (Vector3.x v)). set (Y := value (Vector3.y v)).
  set (Z := value (Vector3.z v)).
  assert (HX : 0 <= X * X) by nra. assert (HY : 0 <= Y * Y) by nra.
  assert (HZ : 0 <= Z * Z) by nra.
  apply orb_true_iff in Hs. destruct Hs as [Hs | Hs];
    [apply orb_true_iff in Hs; destruct Hs as [Hs | Hs] |].
  - apply leb_abs_value in Hs; [| tauto].
    apply abs_square_ge in Hs; [| lra]. fold X in Hs. lra.
  - apply leb_abs_value in Hs; [| tauto].
    apply abs_square_ge in Hs; [| lra]. fold Y in Hs. lra.
  - apply leb_abs_value in Hs; [| tauto].
    apply abs_square_ge in Hs; [| lra]. fold Z in Hs. lra.
Qed.

(** The normalised vector: moderate components, a sum of squares near 1. *)
Lemma normalize_sumsq (v : Vec) :
  components_ok v -> powerRZ 2 (-1020) <= sumsq v ->
  components_ok (Vector3.normalize v)
  /\ (Rabs (value (Vector3.x (Vector3.normalize v))) <= 2
      /\ Rabs (value (Vector3.y (Vector3.normalize v))) <= 2
      /\ Rabs (value (Vector3.z (Vector3.normalize v))) <= 2)
  /\ 1 - 24 * / 4503599627370496 <= sumsq (Vector3.normalize v)
       <= 1 + 24 * / 4503599627370496.
Proof.
  intros Hok Hlow.
  destruct (normalize_value Hok Hlow) as (s & Hs & Hx & Hy & Hz).
  exact (scaled_sumsq v (Vector3.normalize v) Hs Hx Hy Hz).
Qed.

Lemma near_one_low : powerRZ 2 (-1020) <= 1 - 24 * / 4503599627370496.
Proof.
  apply Rle_trans with (powerRZ 2 (-1)); [apply pow2_le; lia | simpl; lra].
Qed.

Lemma sqrt_near_one (S : R) :
  1 - 24 * / 4503599627370496 <= S <= 1 + 24 * / 4503599627370496 ->
  1 - 24 * / 4503599627370496 <= sqrt S <= 1 + 24 * / 4503599627370496.
Proof.
  intros HS. assert (HS0 : 0 <= S) by lra.
  pose proof (sqrt_sqrt S HS0) as HNN. pose proof (sqrt_pos S) as HN0.
  split; apply sq_le_inv; try lra; nra.
Qed.

(** The norm, and the squared norm, of a normalised vector are within the
    tolerance of 1. *)
Lemma normalize_unit_value (v : Vec) :
  normalizable v = true ->
  within_tolerance (Vector3.norm (Vector3.normalize v)) 1
  /\ within_tolerance (Vector3.inner (Vector3.normalize v) (Vector3.normalize v)) 1.
Proof.
  intros Hv. destruct (normalizable_ok v Hv) as [Hok Hlow].
  destruct (normalize_sumsq Hok Hlow) as (Hokn & _ & Hsum).
  pose proof near_one_low as Hone.
  assert (Hlown : powerRZ 2 (-1020) <= sumsq (Vector3.normalize v)) by lra.
  destruct (norm_value Hokn Hlown) as [Hfn Hn].
  destruct (inner_self_value Hokn) as (Hfi & _ & Hi).
  pose proof (sqrt_near_one Hsum) as HN.
  pose proof eta_small as [Heta0 Heta1].
  unfold within_tolerance, tolerance. rewrite pow2_m45.
  set (n := Vector3.normalize v) in *.
  set (N := sqrt (sumsq n)) in *. set (S := sumsq n) in *.
  set (eta := powerRZ 2 (-1074)) in *.
  split; (split; [assumption |]); apply Rabs_le; split; nra.
Qed.

(** Normalising a normalised vector changes every component by at most the
    tolerance. *)
Lemma normalize_idempotent_value (v : Vec) :
  normalizable v = true ->
  close (Vector3.x (Vector3.normalize (Vector3.normalize v)))
        (Vector3.x (Vector3.normalize v))
  /\ close (Vector3.y (Vector3.normalize (Vector3.normalize v)))
           (Vector3.y (Vector3.normalize v))
  /\ close (Vector3.z (Vector3.normalize (Vector3.normalize v)))
           (Vector3.z (Vector3.normalize v)).
Proof.
  intros Hv. destruct (normalizable_ok v Hv) as [Hok Hlow].
  destruct (normalize_sumsq Hok Hlow) as (Hokn & (Hbx & Hby & Hbz) & Hsum).
  pose proof near_one_low as Hone.
  assert (Hlown : powerRZ 2 (-1020) <= sumsq (Vector3.normalize v)) by lra.
  destruct (normalize_value Hokn Hlown) as (s & Hs & Hx & Hy & Hz).
  pose proof (sqrt_near_one Hsum) as HN.
  pose proof eta_small as [Heta0 Heta1].
  destruct Hokn as ([Hfx _] & [Hfy _] & [Hfz _]).
  set (n := Vector3.normalize v) in *.
  set (N := sqrt (sumsq n)) in *.
  set (eta := powerRZ 2 (-1074)) in *.
  assert (Hs1 : Rabs (s - 1) <= 35 * / 4503599627370496).
  { apply Rabs_le. split; nra. }
  assert (Hcomp : forall a a' : float,
            is_finite a = true -> Rabs (value a) <= 2 -> scaled s a a' -> close a' a).
  { intros a a' Hfa Ha [Hf Hnear]. split; [exact Hf |]. split; [exact Hfa |].
    unfold tolerance. rewrite pow2_m45.
    apply near_abs in Hnear. fold eta in Hnear.
    set (U := value a) in *. set (W := value a') in *.
    assert (Hd : Rabs ((s - 1) * U) <= 35 * / 4503599627370496 * 2).
    { rewrite Rabs_mult. apply Rmult_le_compat; try apply Rabs_pos; assumption. }
    assert (HsU : Rabs (s * U) <= 2 + 35 * / 4503599627370496 * 2).
    { replace (s * U) with (U + (s - 1) * U) by ring.
      apply Rle_trans with (1 := Rabs_triang _ _). lra. }
    replace (W - U) with ((W - s * U) + (s - 1) * U) by ring.
    apply Rle_trans with (1 := Rabs_triang _ _). lra. }
  split; [apply Hcomp; assumption |]. split; apply Hcomp; assumption.
Qed.

(** ** Normalisation within the floating tolerance *)

(** C9, on the doubles.  [normalize] returns the zero vector, and every
    vector whose computed norm is [0], unchanged.  For every vector with no
    component above [2 ^ 510] in magnitude and one of at least [2 ^ -510],
    the computed norm of [normalize v] is a finite double within [2 ^ -45]
    of [1], and every component of [normalize (normalize v)] is within
    [2 ^ -45] of the same component of [normalize v], both of them finite
    doubles. *)
Theorem normalize_within_tolerance :
  Vector3.normalize (Vector3.new 0 0 0 : Vec)%float = (Vector3.new 0 0 0)%float
  /\ (forall v : Vec,
        (Vector3.norm v =? 0)%float = true -> Vector3.normalize v = v)
  /\ (forall v : Vec,
        normalizable v = true ->
        within_tolerance (Vector3.norm (Vector3.normalize v)) 1
        /\ close (Vector3.x (Vector3.normalize (Vector3.normalize v)))
                 (Vector3.x (Vector3.normalize v))
        /\ close (Vector3.y (Vector3.normalize (Vector3.normalize v)))
                 (Vector3.y (Vector3.normalize v))
        /\ close (Vector3.z (Vector3.normalize (Vector3.normalize v)))
                 (Vector3.z (Vector3.normalize v))).
Proof.
  split; [reflexivity |]. split.
  - intros v Hzero. unfold Vector3.normalize. cbv zeta.
    change (num_neq (Vector3.norm v) num_zero)
      with (negb (PrimFloat.eqb (Vector3.norm v) 0%float)).
    now rewrite Hzero.
  - intros v Hv. split.
    + exact (proj1 (normalize_unit_value v Hv)).
    + exact (normalize_idempotent_value v Hv).
Qed.

Lemma normalize_within_tolerance_witness :
  ((Vector3.norm underflowing_vector =? 0)%float = true
   /\ Vector3.normalize underflowing_vector = underflowing_vector)
  /\ (normalizable pythagorean_vector = true
      /\ within_tolerance (Vector3.norm (Vector3.normalize pythagorean_vector)) 1
      /\ close (Vector3.x (Vector3.normalize (Vector3.normalize pythagorean_vector)))
               (Vector3.x (Vector3.normalize pythagorean_vector))
      /\ close (Vector3.y (Vector3.normalize (Vector3.normalize pythagorean_vector)))
               (Vector3.y (Vector3.normalize pythagorean_vector))
      /\ close (Vector3.z (Vector3.normalize (Vector3.normalize pythagorean_vector)))
               (Vector3.z (Vector3.normalize pythagorean_vector))).
Proof.
  split.
  - split; [reflexivity |].
    apply (proj1 (proj2 normalize_within_tolerance)). reflexivity.
  - split; [reflexivity |].
    apply (proj2 (proj2 normalize_within_tolerance)). reflexivity.
Defined.

(** C8, on the doubles.  The constructor stores the normalised direction.
    For every direction with no component above [2 ^ 510] in magnitude and
    one of at least [2 ^ -510], that is a unit vector within the floating
    tolerance: its computed norm, and its computed squared norm (the
    leading coefficient of the quadratic of the sphere intersection), are
    finite doubles within [2 ^ -45] of [1].  The zero direction is stored
    as it is. *)
Theorem Ray_direction_within_tolerance :
  (forall origin direction : Vec,
     Ray.direction (Ray.new origin direction) = Vector3.normalize direction)
  /\ (forall origin direction : Vec,
        normalizable direction = true ->
        within_tolerance
          (Vector3.norm (Ray.direction (Ray.new origin direction))) 1
        /\ within_tolerance
             (Vector3.inner (Ray.direction (Ray.new origin direction))
                            (Ray.direction (Ray.new origin direction))) 1)
  /\ (forall origin : Vec,
        Ray.direction (Ray.new origin (Vector3.new 0 0 0)%float)
        = (Vector3.new 0 0 0)%float).
Proof.
  split; [reflexivity |]. split.
  - intros origin direction Hd. exact (normalize_unit_value direction Hd).
  - intros origin. reflexivity.
Qed.

Lemma Ray_direction_within_tolerance_witness :
  normalizable pythagorean_vector = true
  /\ within_tolerance
       (Vector3.norm
          (Ray.direction (Ray.new (Vector3.new 0 0 0)%float pythagorean_vector))) 1
  /\ within_tolerance
       (Vector3.inner
          (Ray.direction (Ray.new (Vector3.new 0 0 0)%float pythagorean_vector))
          (Ray.direction (Ray.new (Vector3.new 0 0 0)%float pythagorean_vector))) 1.
Proof.
  split; [reflexivity |].
  apply (proj1 (proj2 Ray_direction_within_tolerance)). reflexivity.
Defined.

End Tolerance.

(** ** Outside the range, and without the tolerance *)

(** The squared norm of [(2^512, 0, 0)] overflows and that of
    [(2^-538, 0, 0)] underflows to [0]: for both vectors, which are not the
    zero vector, the computed norm of the normalised vector is [0].  The
    squared norm of [((1 + 2^-44) * 2^-516, 0, 0)] is subnormal and loses
    digits: the computed norm of the normalised vector is [1 - 2^-44].  By
    rounding alone the normalised diagonal has the norm [1 - 2^-53], and
    normalising it again moves it. *)
Lemma normalize_not_unit :
  (overflowing_vector <> Vector3.new 0 0 0
   /\ Vector3.norm (Vector3.normalize overflowing_vector) = 0)
  /\ (underflowing_vector <> Vector3.new 0 0 0
      /\ Vector3.norm (Vector3.normalize underflowing_vector) = 0)
  /\ Vector3.norm (Vector3.normalize lossy_vector) = 0x1.ffffffffffep-1
  /\ (Vector3.norm (Vector3.normalize diagonal_vector) = 0x1.fffffffffffffp-1
      /\ Vector3.normalize (Vector3.normalize diagonal_vector)
         <> Vector3.normalize diagonal_vector).
Proof.
  split; [| split; [| split]].
  - split; [| vm_compute; reflexivity]. intros H.
    apply (f_equal (fun v => PrimFloat.eqb (Vector3.x v) 0)) in H.
    vm_compute in H. discriminate.
  - split; [| vm_compute; reflexivity]. intros H.
    apply (f_equal (fun v => PrimFloat.eqb (Vector3.x v) 0)) in H.
    vm_compute in H. discriminate.
  - vm_compute. reflexivity.
  - split; [vm_compute; reflexivity |]. intros H.
    apply (f_equal (fun v => PrimFloat.eqb (Vector3.x v)
                               (Vector3.x (Vector3.normalize diagonal_vector))))
      in H.
    vm_compute in H. discriminate.
Qed.

(** A ray built with the zero direction, with a direction whose squared
    norm overflows, or with one whose squared norm underflows to [0], has a
    direction of computed norm [0]; with a direction whose squared norm
    loses digits, one of computed norm [1 - 2^-44]; and the direction
    stored for [(0, 3, 4)] has the squared norm [1 + 2^-52], not [1]. *)
Lemma Ray_direction_not_unit :
  Vector3.norm
    (Ray.direction (Ray.new (Vector3.new 0 0 0) (Vector3.new 0 0 0))) = 0
  /\ Vector3.norm
       (Ray.direction (Ray.new (Vector3.new 0 0 0) overflowing_vector)) = 0
  /\ Vector3.norm
       (Ray.direction (Ray.new (Vector3.new 0 0 0) underflowing_vector)) = 0
  /\ Vector3.norm (Ray.direction (Ray.new (Vector3.new 0 0 0) lossy_vector))
     = 0x1.ffffffffffep-1
  /\ Vector3.inner
       (Ray.direction (Ray.new (Vector3.new 0 0 0) pythagorean_vector))
       (Ray.direction (Ray.new (Vector3.new 0 0 0) pythagorean_vector))
     = 0x1.0000000000001p+0.
Proof. repeat split; vm_compute; reflexivity. Qed.
